(** * AI Wargame: a shallow embedding of [ai_wargame_skeleton.py]

    The development follows the layout of the Python module: the
    enumerations, the [Unit] class with its damage and repair tables,
    coordinates and coordinate pairs, the options, the game state with
    its board, move validation and execution, the transition heuristic
    and the minimax search.

    Conventions.
    - Python [int] is [Z]; a list indexed by an [int] is a [list] read
      with stdpp's lookup at [Z.to_nat] of the index.  Every index used
      by the program is first checked by [is_valid_coord], so it is never
      negative.
    - A Python exception is a value [Raise e] of the type [result].
    - Python objects mutated in place ([Unit], the board rows) become
      values threaded through the functions.  Each board cell owns its
      unit object: [__post_init__] creates a fresh [Unit] per cell,
      [perform_movement] moves the reference and clears the origin, and
      [clone] deep-copies the board, so no unit is ever reachable from two
      cells and updating the cell is the same as mutating the object. *)

From Stdlib Require Import ZArith QArith Lia Bool Ascii String.
From stdpp Require Import base option list.

Local Open Scope Z_scope.

(** ** Exceptions *)

Inductive exn : Type :=
| AttributeError      (* attribute access on [None] *)
| NameError           (* use of a global name that is not defined *)
| UnboundLocalError.  (* use of a local variable never assigned *)

Inductive result (A : Type) : Type :=
| Ok (a : A)
| Raise (e : exn).

Arguments Ok {A} a.
Arguments Raise {A} e.

Global Instance result_ret : MRet result := fun _ a => Ok a.
Global Instance result_bind : MBind result := fun _ _ k m =>
  match m with
  | Ok a => k a
  | Raise e => Raise e
  end.

(** [o.attr] where [o] may be [None]. *)
Definition attr {A} (o : option A) : result A :=
  match o with
  | Some a => Ok a
  | None => Raise AttributeError
  end.

(** ** Enumerations *)

Inductive UnitType : Type := AI | Tech | Virus | Program | Firewall.

Definition UnitType_value (t : UnitType) : nat :=
  match t with
  | AI => 0 | Tech => 1 | Virus => 2 | Program => 3 | Firewall => 4
  end%nat.

Inductive ActionType : Type := MOVE | ATTACK | REPAIR | SUICIDE.

Inductive Player : Type := Attacker | Defender.

Definition Player_next (p : Player) : Player :=
  match p with
  | Attacker => Defender
  | Defender => Attacker
  end.

Global Instance UnitType_eq_dec : EqDecision UnitType.
Proof. solve_decision. Defined.
Global Instance ActionType_eq_dec : EqDecision ActionType.
Proof. solve_decision. Defined.
Global Instance Player_eq_dec : EqDecision Player.
Proof. solve_decision. Defined.

(** ** Units *)

Record Unit : Type := mkUnit {
  player : Player;
  type : UnitType;
  health : Z
}.

Global Instance Unit_eq_dec : EqDecision Unit.
Proof. solve_decision. Defined.

Definition damage_table : list (list Z) :=
  [ [3; 3; 3; 3; 1];   (* AI *)
    [1; 1; 6; 1; 1];   (* Tech *)
    [9; 6; 1; 6; 1];   (* Virus *)
    [3; 3; 3; 3; 1];   (* Program *)
    [1; 1; 1; 1; 1] ]. (* Firewall *)

Definition repair_table : list (list Z) :=
  [ [0; 1; 1; 0; 0];   (* AI *)
    [3; 0; 0; 3; 3];   (* Tech *)
    [0; 0; 0; 0; 0];   (* Virus *)
    [0; 0; 0; 0; 0];   (* Program *)
    [0; 0; 0; 0; 0] ]. (* Firewall *)

(** [table[a.value][b.value]]: both tables are 5 x 5 and the values of
    [UnitType] are 0..4, so the lookup is always in range. *)
Definition table_at (t : list (list Z)) (a b : UnitType) : Z :=
  match t !! UnitType_value a with
  | Some r => default 0 (r !! UnitType_value b)
  | None => 0
  end.

Definition Unit_is_alive (u : Unit) : bool := 0 <? health u.

Definition Unit_mod_health (u : Unit) (health_delta : Z) : Unit :=
  let h := health u + health_delta in
  mkUnit (player u) (type u)
         (if h <? 0 then 0 else if 9 <? h then 9 else h).

Definition Unit_damage_amount (u target : Unit) : Z :=
  let amount := table_at damage_table (type u) (type target) in
  if health target - amount <? 0 then health target else amount.

Definition Unit_repair_amount (u target : Unit) : Z :=
  let amount := table_at repair_table (type u) (type target) in
  if 9 <? health target + amount then 9 - health target else amount.

(** ** Coordinates *)

Record Coord : Type := mkCoord { row : Z; col : Z }.

Global Instance Coord_eq_dec : EqDecision Coord.
Proof. solve_decision. Defined.

(** [range(a, b)] *)
Definition range (a b : Z) : list Z := seqZ a (b - a).

Definition iter_range (c : Coord) (dist : Z) : list Coord :=
  r ← range (row c - dist) (row c + 1 + dist);
  k ← range (col c - dist) (col c + 1 + dist);
  [mkCoord r k].

Definition iter_adjacent (c : Coord) : list Coord :=
  [ mkCoord (row c - 1) (col c);
    mkCoord (row c) (col c - 1);
    mkCoord (row c + 1) (col c);
    mkCoord (row c) (col c + 1) ].

Record CoordPair : Type := mkCoordPair { src : Coord; dst : Coord }.

Global Instance CoordPair_eq_dec : EqDecision CoordPair.
Proof. solve_decision. Defined.

Definition iter_rectangle (p : CoordPair) : list Coord :=
  r ← range (row (src p)) (row (dst p) + 1);
  k ← range (col (src p)) (col (dst p) + 1);
  [mkCoord r k].

Definition from_dim (dim : Z) : CoordPair :=
  mkCoordPair (mkCoord 0 0) (mkCoord (dim - 1) (dim - 1)).

(** *** Coordinate text notation

    A Python [str] is modelled as a list of characters with code points
    below 256.  On these, [str.upper] only moves [a-z] onto [A-Z] as far
    as membership in ["A".."Z"] is concerned, and [str.lower] only moves
    [A-Z] onto [a-z] as far as membership in ["0".."9a".."f"] is
    concerned: every other character is sent outside both alphabets.

    Texts with a code point from 256 on are outside this model, and
    every statement about the parsers is a statement about texts of
    code points below 256.  Beyond them Python's tables go further:
    [str.upper] sends U+0131 to [I], U+017F to [S], and U+FB05 and
    U+FB06 to [ST], which [find] locates at 8, 18 and 18, and
    [str.strip] also removes the spaces U+1680, U+2000 to U+200A,
    U+2028, U+2029, U+202F, U+205F and U+3000. *)

Definition code (a : ascii) : Z := Z.of_N (N_of_ascii a).

(** [str.isspace] on code points below 256, as used by [str.strip]. *)
Definition is_space (a : ascii) : bool :=
  let n := code a in
  ((9 <=? n) && (n <=? 13)) || ((28 <=? n) && (n <=? 32))
  || (n =? 133) || (n =? 160).

Fixpoint lstrip (s : list ascii) : list ascii :=
  match s with
  | [] => []
  | a :: s' => if is_space a then lstrip s' else s
  end.

Definition strip (s : list ascii) : list ascii :=
  rev (lstrip (rev (lstrip s))).

Definition ascii_eqb (a b : ascii) : bool := code a =? code b.

(** [s.replace(sep, "")] for a one-character [sep]. *)
Definition remove_char (sep : ascii) (s : list ascii) : list ascii :=
  List.filter (fun a => negb (ascii_eqb a sep)) s.

Definition separators : list ascii :=
  list_ascii_of_string " ,.:;-_".

(** The common prefix of both parsers: strip, then drop the separators. *)
Definition clean (s : string) : list ascii :=
  fold_left (fun acc sep => remove_char sep acc) separators
            (strip (list_ascii_of_string s)).

Definition upper (a : ascii) : ascii :=
  let n := code a in
  if (97 <=? n) && (n <=? 122) then ascii_of_N (Z.to_N (n - 32)) else a.

Definition lower (a : ascii) : ascii :=
  let n := code a in
  if (65 <=? n) && (n <=? 90) then ascii_of_N (Z.to_N (n + 32)) else a.

(** [alphabet.find(ch)]: the index of the first occurrence, or -1. *)
Fixpoint find_from (i : Z) (alphabet : list ascii) (ch : ascii) : Z :=
  match alphabet with
  | [] => -1
  | a :: rest => if ascii_eqb a ch then i else find_from (i + 1) rest ch
  end.

Definition find (alphabet : string) (ch : ascii) : Z :=
  find_from 0 (list_ascii_of_string alphabet) ch.

Definition row_letters : string := "ABCDEFGHIJKLMNOPQRSTUVWXYZ".
Definition col_digits : string := "0123456789abcdef".

Definition Coord_from_string (s : string) : option Coord :=
  match clean s with
  | [c0; c1] =>
      Some (mkCoord (find row_letters (upper c0)) (find col_digits (lower c1)))
  | _ => None
  end.

Definition CoordPair_from_string (s : string) : option CoordPair :=
  match clean s with
  | [c0; c1; c2; c3] =>
      Some (mkCoordPair
              (mkCoord (find row_letters (upper c0)) (find col_digits (lower c1)))
              (mkCoord (find row_letters (upper c2)) (find col_digits (lower c3))))
  | _ => None
  end.

(** ** Options and game state *)

(** The fields of [Options] the engine reads.  [max_time] is a number of
    seconds. *)
Record Options : Type := mkOptions {
  dim : Z;
  max_time : option Q;
  alpha_beta : bool;
  max_turns : option Z
}.

(** The statistics object only accumulates the search time for the
    printed report and is left out. *)
Record Game : Type := mkGame {
  board : list (list (option Unit));
  next_player : Player;
  turns_played : Z;
  options : Options;
  _attacker_has_ai : bool;
  _defender_has_ai : bool
}.

Definition with_board (g : Game) (b : list (list (option Unit))) : Game :=
  mkGame b (next_player g) (turns_played g) (options g)
         (_attacker_has_ai g) (_defender_has_ai g).

(** [clone] copies the board deeply and shares the options: on values
    this is the identity. *)
Definition clone (g : Game) : Game := g.

Definition is_valid_coord (g : Game) (coord : Coord) : bool :=
  let d := dim (options g) in
  if (row coord <? 0) || (row coord >=? d) || (col coord <? 0) || (col coord >=? d)
  then false else true.

(** [self.board[coord.row][coord.col]] is only evaluated after
    [is_valid_coord]; on a board of [dim] rows of [dim] cells (see
    [wf_game]) both lookups succeed. *)
Definition get (g : Game) (coord : Coord) : option Unit :=
  if is_valid_coord g coord then
    match board g !! Z.to_nat (row coord) with
    | Some r => default None (r !! Z.to_nat (col coord))
    | None => None
    end
  else None.

Definition set (g : Game) (coord : Coord) (unit : option Unit) : Game :=
  if is_valid_coord g coord then
    with_board g (alter (fun r => <[Z.to_nat (col coord) := unit]> r)
                        (Z.to_nat (row coord)) (board g))
  else g.

Definition remove_dead (g : Game) (coord : Coord) : Game :=
  match get g coord with
  | Some unit =>
      if negb (Unit_is_alive unit) then
        let g' := set g coord None in
        if decide (type unit = AI) then
          if decide (player unit = Attacker) then
            mkGame (board g') (next_player g') (turns_played g') (options g')
                   false (_defender_has_ai g')
          else
            mkGame (board g') (next_player g') (turns_played g') (options g')
                   (_attacker_has_ai g') false
        else g'
      else g
  | None => g
  end.

Definition mod_health (g : Game) (coord : Coord) (health_delta : Z) : Game :=
  match get g coord with
  | Some target => remove_dead (set g coord (Some (Unit_mod_health target health_delta))) coord
  | None => g
  end.

Definition next_turn (g : Game) : Game :=
  mkGame (board g) (Player_next (next_player g)) (turns_played g + 1)
         (options g) (_attacker_has_ai g) (_defender_has_ai g).

Definition player_units (g : Game) (p : Player) : list (Coord * Unit) :=
  coord ← iter_rectangle (from_dim (dim (options g)));
  match get g coord with
  | Some unit => if decide (player unit = p) then [(coord, unit)] else []
  | None => []
  end.

Definition has_winner (g : Game) : option Player :=
  if match max_turns (options g) with
     | Some m => turns_played g >=? m
     | None => false
     end
  then Some Defender
  else if _attacker_has_ai g then
         if _defender_has_ai g then None else Some Attacker
       else Some Defender.

Definition is_finished (g : Game) : bool :=
  match has_winner g with Some _ => true | None => false end.

(** ** Move classification and legality *)

Local Open Scope bool_scope.

Definition determine_action (g : Game) (coords : CoordPair) : result ActionType :=
  let src_unit := get g (src coords) in
  let dst_unit := get g (dst coords) in
  if decide (src coords = dst coords) then Ok SUICIDE
  else match dst_unit with
       | None => Ok MOVE
       | Some d =>
           s ← attr src_unit;
           if decide (player s = player d) then Ok REPAIR else Ok ATTACK
       end.

Definition restricted_type (t : UnitType) : bool :=
  match t with
  | AI | Firewall | Program => true
  | Tech | Virus => false
  end.

(** The adjacency scan of [unit_movement_restriction]: [false] as soon as
    a neighbouring cell holds a unit of the other player. *)
Fixpoint adjacent_enemy_scan (g : Game) (src_unit : Unit) (cs : list Coord) : bool :=
  match cs with
  | [] => true
  | coord :: rest =>
      match get g coord with
      | Some unit =>
          if restricted_type (type src_unit)
             && negb (bool_decide (player src_unit = player unit))
          then false
          else adjacent_enemy_scan g src_unit rest
      | None => adjacent_enemy_scan g src_unit rest
      end
  end.

Definition unit_movement_restriction (g : Game) (coords : CoordPair) : result bool :=
  s ← attr (get g (src coords));
  let row_dst := row (dst coords) - row (src coords) in
  let col_dst := col (dst coords) - col (src coords) in
  if restricted_type (type s) then
    if (if decide (player s = Attacker)
        then (row_dst >? 0) || (col_dst >? 0)
        else (row_dst <? 0) || (col_dst <? 0))
    then Ok false
    else Ok (adjacent_enemy_scan g s (iter_adjacent (src coords)))
  else Ok true.

(** The body run by [is_valid_move] at the neighbour equal to [dst]. *)
Definition valid_at_neighbour (g : Game) (coords : CoordPair) (src_unit : Unit)
  : result bool :=
  match get g (dst coords) with
  | Some dst_unit =>
      action ← determine_action g coords;
      if decide (action = REPAIR) then
        let repair := table_at repair_table (type src_unit) (type dst_unit) in
        if repair =? 0 then Ok false
        else if health dst_unit =? 9 then Ok false
        else Ok true
      else Ok true
  | None => unit_movement_restriction g coords
  end.

(** The loop [for coord in coords.src.iter_adjacent()] of
    [is_valid_move]: it returns from the first neighbour equal to [dst]
    and yields [False] when there is none. *)
Fixpoint neighbour_loop (cs : list Coord) (d : Coord) (body : result bool)
  : result bool :=
  match cs with
  | [] => Ok false
  | coord :: rest =>
      if decide (coord = d) then body else neighbour_loop rest d body
  end.

Definition is_valid_move (g : Game) (coords : CoordPair) : result bool :=
  if negb (is_valid_coord g (src coords)) || negb (is_valid_coord g (dst coords))
  then Ok false
  else match get g (src coords) with
       | None => Ok false
       | Some src_unit =>
           if negb (bool_decide (player src_unit = next_player g)) then Ok false
           else if negb (bool_decide (src coords = dst coords)) then
                  neighbour_loop (iter_adjacent (src coords)) (dst coords)
                                 (valid_at_neighbour g coords src_unit)
                else Ok true
       end.

(** ** Action execution *)

(** The data from which the description string of an executed move is
    rendered. *)
Inductive description : Type :=
| attack_from (s d : Coord) (to_source to_target : Z)
| repair_from (s d : Coord) (repaired : Z)
| move_from (s d : Coord)
| self_destruct_at (s : Coord) (total_damage : Z)
| invalid_move.

Definition perform_attack (g : Game) (coords : CoordPair) (src_unit dst_unit : Unit)
  : Game * (bool * description) :=
  let src_damage := table_at damage_table (type src_unit) (type dst_unit) * -1 in
  let dst_damage := table_at damage_table (type dst_unit) (type src_unit) * -1 in
  let g1 := mod_health g (src coords) src_damage in
  let g2 := mod_health g1 (dst coords) dst_damage in
  (g2, (true, attack_from (src coords) (dst coords) (src_damage * -1) (dst_damage * -1))).

Definition perform_repair (g : Game) (coords : CoordPair) (src_unit dst_unit : Unit)
  : Game * (bool * description) :=
  let repair := table_at repair_table (type src_unit) (type dst_unit) in
  (mod_health g (dst coords) repair,
   (true, repair_from (src coords) (dst coords) repair)).

Definition perform_movement (g : Game) (coords : CoordPair)
  : Game * (bool * description) :=
  let g1 := set g (dst coords) (get g (src coords)) in
  (set g1 (src coords) None, (true, move_from (src coords) (dst coords))).

(** One iteration of the splash loop of [perform_suicide]. *)
Definition splash_step (acc : Game * Z) (coord : Coord) : Game * Z :=
  let '(g, total_damage) := acc in
  match get g coord with
  | Some _ => (mod_health g coord (-2), total_damage + 2)
  | None => (g, total_damage)
  end.

Definition perform_suicide (g : Game) (coords : CoordPair)
  : Game * (bool * description) :=
  let g1 := mod_health g (src coords) (-9) in
  let '(g2, total_damage) :=
    fold_left splash_step (iter_range (src coords) 1) (g1, 0) in
  (g2, (true, self_destruct_at (src coords) total_damage)).

Definition perform_move (g : Game) (coords : CoordPair)
  : result (Game * (bool * description)) :=
  valid ← is_valid_move g coords;
  if valid : bool then
    let src_unit := get g (src coords) in
    let dst_unit := get g (dst coords) in
    action ← determine_action g coords;
    match action with
    | MOVE => Ok (perform_movement g coords)
    | ATTACK =>
        s ← attr src_unit; d ← attr dst_unit;
        Ok (perform_attack g coords s d)
    | REPAIR =>
        s ← attr src_unit; d ← attr dst_unit;
        Ok (perform_repair g coords s d)
    | SUICIDE => Ok (perform_suicide g coords)
    end
  else Ok (g, (false, invalid_move)).

(** ** Candidate moves *)

(** The moves yielded for one unit: its legal neighbours in the order of
    [iter_adjacent], then the self-targeting pair. *)
Fixpoint adjacent_candidates (g : Game) (s : Coord) (ds : list Coord)
  : result (list CoordPair) :=
  match ds with
  | [] => Ok []
  | d :: rest =>
      valid ← is_valid_move g (mkCoordPair s d);
      tail ← adjacent_candidates g s rest;
      Ok (if valid : bool then mkCoordPair s d :: tail else tail)
  end.

Fixpoint candidates_of_units (g : Game) (units : list (Coord * Unit))
  : result (list CoordPair) :=
  match units with
  | [] => Ok []
  | (s, _) :: rest =>
      adj ← adjacent_candidates g s (iter_adjacent s);
      tail ← candidates_of_units g rest;
      Ok (adj ++ mkCoordPair s s :: tail)
  end.

Definition move_candidates (g : Game) : result (list CoordPair) :=
  candidates_of_units g (player_units g (next_player g)).

(** ** Transition heuristic *)

Definition MAX_HEURISTIC_SCORE : Z := 2000000000.
Definition MIN_HEURISTIC_SCORE : Z := -2000000000.

(** The board scan of the MOVE branch.  The module never imports [math],
    so evaluating [math.sqrt] at the first enemy AI raises [NameError].
    When the scan ends without meeting one, the result is the value left
    in the loop variable [unit]: [last] is [None] while [unit] has never
    been assigned. *)
Fixpoint enemy_ai_scan (prev_state : Game) (src_unit : option Unit)
    (cs : list Coord) (last : option (option Unit))
  : result (option (option Unit)) :=
  match cs with
  | [] => Ok last
  | coord :: rest =>
      match get prev_state coord with
      | Some unit =>
          if decide (type unit = AI) then
            s ← attr src_unit;
            if negb (bool_decide (player unit = player s))
            then Raise NameError
            else enemy_ai_scan prev_state src_unit rest (Some (Some unit))
          else enemy_ai_scan prev_state src_unit rest (Some (Some unit))
      | None => enemy_ai_scan prev_state src_unit rest (Some None)
      end
  end.

Definition attack_score (s d : Unit) : Z :=
  match player s with
  | Attacker =>
      match type s with
      | Virus =>
          match type d with
          | Tech => 98 | Firewall => 89 | Program => 94 | _ => 100 end
      | Firewall =>
          match type d with
          | Tech => 92 | Firewall => 91 | Program => 93 | _ => 90 end
      | Program =>
          match type d with
          | Tech => 99 | Firewall => 95 | Program => 97 | _ => 96 end
      | _ =>
          match type d with
          | Tech => 88 | Firewall => 86 | Program => 84 | _ => 87 end
      end
  | Defender =>
      match type s with
      | Tech =>
          match type d with
          | Virus => -91 | Firewall => -86 | Program => -92 | _ => -93 end
      | Firewall =>
          match type d with
          | Virus => -95 | Firewall => -84 | Program => -94 | _ => -85 end
      | Program =>
          match type d with
          | Virus => -83 | Firewall => -87 | Program => -96 | _ => -97 end
      | _ =>
          match type d with
          | Virus => 0 | Firewall => -81 | Program => -80 | _ => -79 end
      end
  end.

Definition repair_score (d : Unit) : Z :=
  match type d with
  | Firewall => if health d <=? 6 then -98 else -88
  | Program => if health d <=? 6 then -99 else -89
  | _ => if health d <=? 6 then -100 else -90
  end.

Definition calculate_heuristic3 (self : Game) (move : option CoordPair)
    (action : option ActionType) (prev_state : option Game) : result Z :=
  p ← attr prev_state;
  m ← attr move;
  let src_unit := get p (src m) in
  let dst_unit := get p (dst m) in
  match action with
  | Some MOVE =>
      last ← enemy_ai_scan p src_unit
               (iter_rectangle (from_dim (dim (options p)))) None;
      match last with
      | None => Raise UnboundLocalError
      | Some unit =>
          u ← attr unit;
          let score :=
            match type u with
            | Virus => 80 - 0
            | Firewall => 70 - 0
            | Program => 60 - 0
            | _ => 50 - 0
            end in
          s ← attr src_unit;
          Ok (if decide (player s = Defender) then score * -1 else score)
      end
  | Some ATTACK =>
      s ← attr src_unit;
      d ← attr dst_unit;
      Ok (attack_score s d)
  | Some REPAIR =>
      s ← attr src_unit;
      if decide (player s = Attacker) then Ok 85
      else d ← attr dst_unit; Ok (repair_score d)
  | _ =>
      Ok (if decide (next_player self = Attacker) then 300 else -300)
  end.

(** ** Minimax search *)

Section Search.

(** [elapsed k] is the value of
    [(datetime.now() - start_time).total_seconds()] at the [k]-th
    reading of the clock made by the search.  Every function of the
    search threads the number of readings made so far. *)
Variable elapsed : nat -> Q.

(** The time check at the head of both sibling loops. *)
Definition time_exceeded (self : Game) (n : nat) : bool * nat :=
  match max_time (options self) with
  | Some t => (Qle_bool t (elapsed n), S n)
  | None => (false, n)
  end.

(** The body of both loops up to the recursive call, which is [mm]. *)
Definition expand
    (mm : Game -> Z -> Z -> nat -> option CoordPair -> option ActionType ->
          option Game -> result (Z * option CoordPair * Z * nat))
    (self : Game) (move : CoordPair) (alpha beta : Z) (n : nat)
  : result (Z * nat) :=
  let game_clone := clone self in
  action2 ← determine_action self move;
  '(game_clone, _) ← perform_move game_clone move;
  let game_clone := next_turn game_clone in
  '(eval, _, _, n') ← mm game_clone alpha beta n (Some move) (Some action2)
                         (Some (clone self));
  Ok (eval, n').

Fixpoint max_loop (child : CoordPair -> Z -> nat -> result (Z * nat))
    (self : Game) (beta : Z) (possible_moves : list CoordPair)
    (max_eval : Z) (best_move : option CoordPair) (alpha : Z) (n : nat)
  : result (Z * option CoordPair * nat) :=
  match possible_moves with
  | [] => Ok (max_eval, best_move, n)
  | move :: rest =>
      let '(late, n1) := time_exceeded self n in
      if late : bool then Ok (max_eval, best_move, n1)
      else
        '(eval, n2) ← child move alpha n1;
        let better := eval >? max_eval in
        let max_eval := if better then eval else max_eval in
        let best_move := if better then Some move else best_move in
        if alpha_beta (options self) then
          let alpha := Z.max alpha eval in
          if beta <=? alpha then Ok (max_eval, best_move, n2)
          else max_loop child self beta rest max_eval best_move alpha n2
        else max_loop child self beta rest max_eval best_move alpha n2
  end.

Fixpoint min_loop (child : CoordPair -> Z -> nat -> result (Z * nat))
    (self : Game) (alpha : Z) (possible_moves : list CoordPair)
    (min_eval : Z) (best_move : option CoordPair) (beta : Z) (n : nat)
  : result (Z * option CoordPair * nat) :=
  match possible_moves with
  | [] => Ok (min_eval, best_move, n)
  | move :: rest =>
      let '(late, n1) := time_exceeded self n in
      if late : bool then Ok (min_eval, best_move, n1)
      else
        '(eval, n2) ← child move beta n1;
        let better := eval <? min_eval in
        let min_eval := if better then eval else min_eval in
        let best_move := if better then Some move else best_move in
        if alpha_beta (options self) then
          let beta := Z.min beta eval in
          if beta <=? alpha then Ok (min_eval, best_move, n2)
          else min_loop child self alpha rest min_eval best_move beta n2
        else min_loop child self alpha rest min_eval best_move beta n2
  end.

(** [minimax] is only ever called by [suggest_move] with depth 2, so
    [depth] is a natural number; the result carries the number of clock
    readings as its last component. *)
Fixpoint minimax (depth : nat) (self : Game) (maximizing_player : bool)
    (alpha beta : Z) (n : nat) (move : option CoordPair)
    (action : option ActionType) (prev_state : option Game)
  : result (Z * option CoordPair * Z * nat) :=
  match depth with
  | O =>
      h ← calculate_heuristic3 self move action prev_state;
      Ok (h, None, 0, n)
  | S d =>
      if is_finished self then
        h ← calculate_heuristic3 self move action prev_state;
        Ok (h, None, 0, n)
      else if maximizing_player then
        possible_moves ← move_candidates self;
        '(max_eval, best_move, n') ←
          max_loop (fun move alpha n =>
                      expand (fun gc a b k => minimax d gc false a b k)
                             self move alpha beta n)
                   self beta possible_moves MIN_HEURISTIC_SCORE None alpha n;
        Ok (max_eval, best_move, Z.of_nat depth, n')
      else
        possible_moves ← move_candidates self;
        '(min_eval, best_move, n') ←
          min_loop (fun move beta n =>
                      expand (fun gc a b k => minimax d gc true a b k)
                             self move alpha beta n)
                   self alpha possible_moves MAX_HEURISTIC_SCORE None beta n;
        Ok (min_eval, best_move, 0, n')
  end.

(** The first reading of the clock is [start_time] itself; the reading
    taken after the search only feeds the printed statistics. *)
Definition suggest_move (self : Game) (n : nat) : result (option CoordPair * nat) :=
  let game_clone := clone self in
  '(score, move, avg_depth, n') ←
    minimax 2 game_clone (bool_decide (next_player self = Attacker))
            MIN_HEURISTIC_SCORE MAX_HEURISTIC_SCORE n None None None;
  Ok (move, n').

End Search.

(** ** Well-formed states and the initial deployment *)

Definition wf_cell (cell : option Unit) : bool :=
  match cell with
  | Some u => (0 <? health u) && (health u <=? 9)
  | None => true
  end.

(** The representation invariant of [Game]: the board has [dim] rows of
    [dim] cells, as built by [__post_init__] and kept by every update,
    and each unit on it is alive with health at most 9. *)
Definition wf_game (g : Game) : bool :=
  let d := Z.to_nat (dim (options g)) in
  (0 <=? dim (options g))
  && (length (board g) =? d)%nat
  && forallb (fun r => (length r =? d)%nat && forallb wf_cell r) (board g).

Definition empty_board (d : Z) : list (list (option Unit)) :=
  replicate (Z.to_nat d) (replicate (Z.to_nat d) None).

(** A game on an empty board, onto which [place] puts units. *)
Definition blank_game (o : Options) (p : Player) (turns : Z) : Game :=
  mkGame (empty_board (dim o)) p turns o true true.

Definition place (g : Game) (r k : Z) (p : Player) (t : UnitType) (h : Z) : Game :=
  set g (mkCoord r k) (Some (mkUnit p t h)).

(** [Game.__post_init__] *)
Definition post_init (o : Options) : Game :=
  let md := dim o - 1 in
  let g := blank_game o Attacker 0 in
  let g := place g 0 0 Defender AI 9 in
  let g := place g 1 0 Defender Tech 9 in
  let g := place g 0 1 Defender Tech 9 in
  let g := place g 2 0 Defender Firewall 9 in
  let g := place g 0 2 Defender Firewall 9 in
  let g := place g 1 1 Defender Program 9 in
  let g := place g md md Attacker AI 9 in
  let g := place g (md - 1) md Attacker Virus 9 in
  let g := place g md (md - 1) Attacker Virus 9 in
  let g := place g (md - 2) md Attacker Program 9 in
  let g := place g md (md - 2) Attacker Program 9 in
  let g := place g (md - 1) (md - 1) Attacker Firewall 9 in
  g.

(** The options set up by [main]. *)
Definition main_options : Options := mkOptions 5 None false (Some 200).

(** ** Text rendering of coordinates *)

(** Python indexing [l[i]] with an index that may be negative: a
    negative index counts from the end, and [None] stands for the
    [IndexError] raised outside [-len(l) .. len(l) - 1]. *)
Definition py_index {A} (l : list A) (i : Z) : option A :=
  if 0 <=? i then l !! Z.to_nat i
  else if - Z.of_nat (length l) <=? i then l !! Z.to_nat (Z.of_nat (length l) + i)
  else None.

Definition col_string (c : Coord) : option string :=
  if col c <? 16 then
    a ← py_index (list_ascii_of_string col_digits) (col c);
    Some (String a EmptyString)
  else Some "?"%string.

Definition row_string (c : Coord) : option string :=
  if row c <? 26 then
    a ← py_index (list_ascii_of_string row_letters) (row c);
    Some (String a EmptyString)
  else Some "?"%string.

Definition Coord_to_string (c : Coord) : option string :=
  r ← row_string c; k ← col_string c; Some (r ++ k)%string.

Definition CoordPair_to_string (p : CoordPair) : option string :=
  s ← Coord_to_string (src p); d ← Coord_to_string (dst p);
  Some (s ++ " " ++ d)%string.

(** ** Further operations of the game *)

(** [is_empty] indexes the board without the guard of [get]. *)
Definition is_empty (g : Game) (coord : Coord) : option bool :=
  r ← py_index (board g) (row coord);
  cell ← py_index r (col coord);
  Some (bool_decide (cell = None)).

(** [random_move], for any behaviour [shuffle] of [random.shuffle]. *)
Definition random_move (shuffle : list CoordPair -> list CoordPair) (g : Game)
  : result (Z * option CoordPair * Z) :=
  move_candidates ← move_candidates g;
  match shuffle move_candidates with
  | m :: _ => Ok (0, Some m, 1)
  | [] => Ok (0, None, 0)
  end.

(** [computer_turn], without the trace file and the printing. *)
Definition computer_turn (elapsed : nat -> Q) (g : Game) (n : nat)
  : result (Game * option CoordPair * nat) :=
  '(mv, n') ← suggest_move elapsed g n;
  match mv with
  | Some m =>
      '(g', (success, _)) ← perform_move g m;
      if success : bool then Ok (next_turn g', mv, n') else Ok (g', mv, n')
  | None => Ok (g, mv, n')
  end.

(** [read_move] on the lines typed at the keyboard: the first line that
    parses to a pair of coordinates of the board, with the lines left;
    [None] while no such line has come. *)
Fixpoint read_move (g : Game) (inputs : list string)
  : option (CoordPair * list string) :=
  match inputs with
  | [] => None
  | s :: rest =>
      match CoordPair_from_string s with
      | Some coords =>
          if is_valid_coord g (src coords) && is_valid_coord g (dst coords)
          then Some (coords, rest)
          else read_move g rest
      | None => read_move g rest
      end
  end.

(** The keyboard loop of [human_turn] (no broker).  Each iteration reads
    at least one line, so [fuel] iterations suffice for [fuel] lines;
    [Ok None] means that the loop still waits for input. *)
Fixpoint human_turn_loop (fuel : nat) (g : Game) (inputs : list string)
  : result (option (Game * list string)) :=
  match fuel with
  | O => Ok None
  | S fuel' =>
      match read_move g inputs with
      | None => Ok None
      | Some (mv, rest) =>
          '(g', (success, _)) ← perform_move g mv;
          if success : bool then Ok (Some (next_turn g', rest))
          else human_turn_loop fuel' g rest
      end
  end.

Definition human_turn (g : Game) (inputs : list string)
  : result (option (Game * list string)) :=
  human_turn_loop (length inputs) g inputs.

(** ** Vocabulary of the statements *)

(** The board has [dim] rows of [dim] cells. *)
Definition shape (g : Game) : Prop :=
  length (board g) = Z.to_nat (dim (options g))
  /\ Forall (fun r => length r = Z.to_nat (dim (options g))) (board g).

(** What a cell holds after its unit took [delta]: the unit with its
    health moved and clamped, or nothing when that health is 0. *)
Definition after_hit (o : option Unit) (delta : Z) : option Unit :=
  match o with
  | Some u =>
      let u' := Unit_mod_health u delta in
      if Unit_is_alive u' then Some u' else None
  | None => None
  end.

(** [d] lies in the box of radius 1 around [c]. *)
Definition in_box (c d : Coord) : Prop :=
  row c - 1 <= row d <= row c + 1 /\ col c - 1 <= col d <= col c + 1.

(** The step from [s] to [d] goes in the direction of advance of [p]:
    towards a smaller row or column for the Attacker, a larger one for
    the Defender. *)
Definition advances (p : Player) (s d : Coord) : bool :=
  match p with
  | Attacker => (row d <? row s) || (col d <? col s)
  | Defender => (row s <? row d) || (col s <? col d)
  end.

Definition health_at (g : Game) (c : Coord) : option Z := health <$> get g c.

(** Letters and digits of the coordinate notation, in either case. *)
Definition is_row_letter (a : ascii) : bool :=
  let n := code a in
  ((65 <=? n) && (n <=? 90)) || ((97 <=? n) && (n <=? 122)).

Definition is_col_digit (a : ascii) : bool :=
  let n := code a in
  ((48 <=? n) && (n <=? 57)) || ((97 <=? n) && (n <=? 102))
  || ((65 <=? n) && (n <=? 70)).

(** The row named by a letter (A = 0 ... Z = 25) and the column named by
    a hexadecimal digit (0 = 0 ... f = 15), in either case; -1 for any
    other character. *)
Definition row_of_letter (a : ascii) : Z :=
  let n := code a in
  if (65 <=? n) && (n <=? 90) then n - 65
  else if (97 <=? n) && (n <=? 122) then n - 97
  else -1.

Definition col_of_digit (a : ascii) : Z :=
  let n := code a in
  if (48 <=? n) && (n <=? 57) then n - 48
  else if (97 <=? n) && (n <=? 102) then n - 87
  else if (65 <=? n) && (n <=? 70) then n - 55
  else -1.

(** [g] with the pruning option set to [b]. *)
Definition set_alpha_beta (b : bool) (g : Game) : Game :=
  mkGame (board g) (next_player g) (turns_played g)
         (mkOptions (dim (options g)) (max_time (options g)) b
                    (max_turns (options g)))
         (_attacker_has_ai g) (_defender_has_ai g).

(** How the value [r] of a pruned search with window [(a, b)] relates to
    the exact value [v]: equal inside the window, on the same side
    outside. *)
Definition window_rel (a b v r : Z) : Prop :=
  (v <= a -> r <= a) /\ (b <= v -> b <= r) /\ (a < v < b -> r = v).

(** The AI-alive flag of a player. *)
Definition has_ai_flag (g : Game) (p : Player) : bool :=
  match p with
  | Attacker => _attacker_has_ai g
  | Defender => _defender_has_ai g
  end.

(** The cell [c] holds the AI of player [p]. *)
Definition ai_at (g : Game) (p : Player) (c : Coord) : Prop :=
  exists u, get g c = Some u /\ type u = AI /\ player u = p.

(** The flags tell the truth: a set flag means that exactly one cell
    holds the AI of that player, a cleared flag that none does. *)
Definition flags_ok (g : Game) : Prop :=
  forall p,
    (has_ai_flag g p = true ->
     exists c, ai_at g p c /\ forall c', ai_at g p c' -> c' = c)
    /\ (has_ai_flag g p = false -> forall c, ~ ai_at g p c).

(** A line of input that [human_turn] acts on: it parses to a legal
    move. *)
Definition accepts (g : Game) (s : string) : bool :=
  match CoordPair_from_string s with
  | Some mv => match is_valid_move g mv with Ok true => true | _ => false end
  | None => false
  end.

(** A character that [clean] keeps: neither white space nor a
    separator. *)
Definition plain (a : ascii) : bool :=
  negb (is_space a) && forallb (fun sep => negb (ascii_eqb a sep)) separators.

(** [s.upper()] and [s.lower()] on a text of 7-bit characters. *)
Definition string_map (f : ascii -> ascii) (s : string) : string :=
  string_of_list_ascii (map f (list_ascii_of_string s)).

Definition ascii7 (s : string) : bool :=
  forallb (fun a => code a <? 128) (list_ascii_of_string s).

(** What parsing gives back for an index [x] rendered over an alphabet
    of [n] characters: a negative index down to [-n] counts from the end
    of the alphabet, an index from [n] on is rendered as a question
    mark. *)
Definition wrapped (n x : Z) : Z :=
  if x <? 0 then x + n else if x <? n then x else -1.

(** Every unit on the board is alive, with health at most 9. *)
Definition healthy (g : Game) : Prop :=
  forall c u, get g c = Some u -> 0 < health u <= 9.

(** What a move leaves alone: the options, the mover and the count of
    turns. *)
Definition same_frame (g g' : Game) : Prop :=
  options g' = options g /\ next_player g' = next_player g
  /\ turns_played g' = turns_played g.

(** The states of a game played with options [o]: the initial
    deployment, and the state after each successful move and the
    [next_turn] that follows it, as in [human_turn] and
    [computer_turn]. *)
Inductive reachable (o : Options) : Game -> Prop :=
| reachable_init : reachable o (post_init o)
| reachable_turn g coords g' d :
    reachable o g ->
    perform_move g coords = Ok (g', (true, d)) ->
    reachable o (next_turn g').

(** The turn limit has not been reached. *)
Definition within_turn_limit (g : Game) : Prop :=
  match max_turns (options g) with
  | Some m => turns_played g < m
  | None => True
  end.

(** The scores a search can return: one of the two sentinels, or the
    score of a leaf. *)
Definition search_score (v : Z) : Prop :=
  v = MIN_HEURISTIC_SCORE \/ v = MAX_HEURISTIC_SCORE \/ -300 <= v <= 300.

(** ** Example states *)

(** The initial deployment with the turn limit of [main] already
    reached: both AIs are on the board and both flags are set. *)
Definition limit_game : Game :=
  let g := post_init main_options in
  mkGame (board g) Attacker 200 main_options true true.

(** An Attacker Program at C2 with a Defender Firewall on its right. *)
Definition engaged_game : Game :=
  let g := blank_game main_options Attacker 6 in
  let g := place g 0 0 Defender AI 9 in
  let g := place g 4 4 Attacker AI 9 in
  let g := place g 2 2 Attacker Program 9 in
  let g := place g 2 3 Defender Firewall 9 in
  g.

(** An Attacker Virus at B0 below the Defender AI at A0. *)
Definition assault_game : Game :=
  let g := blank_game main_options Attacker 10 in
  let g := place g 0 0 Defender AI 9 in
  let g := place g 1 0 Attacker Virus 9 in
  let g := place g 4 4 Attacker AI 9 in
  g.

(** An Attacker Virus at C2 with a Defender Tech on its left. *)
Definition duel_game : Game :=
  let g := blank_game main_options Attacker 10 in
  let g := place g 0 0 Defender AI 9 in
  let g := place g 2 1 Defender Tech 9 in
  let g := place g 2 2 Attacker Virus 9 in
  let g := place g 4 4 Attacker AI 9 in
  g.

(** A Defender Program at C2 with a weak Attacker Program above it and a
    Defender Tech at its lower right. *)
Definition crowded_game : Game :=
  let g := blank_game main_options Defender 11 in
  let g := place g 0 0 Defender AI 9 in
  let g := place g 1 2 Attacker Program 2 in
  let g := place g 2 2 Defender Program 5 in
  let g := place g 3 3 Defender Tech 9 in
  let g := place g 4 4 Attacker AI 9 in
  g.

(** The two AIs alone, each in its corner of arrival: the Attacker AI at
    A0 cannot move and can only self-destruct. *)
Definition standoff_game : Game :=
  let g := blank_game main_options Attacker 40 in
  let g := place g 0 0 Attacker AI 9 in
  let g := place g 4 4 Defender AI 9 in
  g.

(** A clock that never advances. *)
Definition frozen_clock : nat -> Q := fun _ => 0%Q.

(** The Defender to move, no time limit: a weakened Attacker AI at A0
    with a Virus below it, a Defender Tech at A1 and the Defender AI at
    E4. *)
Definition siege_game (pruning : bool) : Game :=
  let g := blank_game (mkOptions 5 None pruning (Some 200)) Defender 61 in
  let g := place g 0 0 Attacker AI 3 in
  let g := place g 1 0 Attacker Virus 5 in
  let g := place g 0 1 Defender Tech 9 in
  let g := place g 4 4 Defender AI 9 in
  g.

(** A full board of dimension 2 without a time limit, the Attacker to
    move: its AI at A0 and its Virus at A1 face the Defender Tech at B0
    and the Defender AI at B1.  No cell is free at the root; the
    exhaustive search returns a score, and the search with pruning cuts
    below the move A1 to B1. *)
Definition skirmish_game : Game :=
  let g := blank_game (mkOptions 2 None false (Some 200)) Attacker 0 in
  let g := place g 0 0 Attacker AI 9 in
  let g := place g 0 1 Attacker Virus 9 in
  let g := place g 1 0 Defender Tech 9 in
  let g := place g 1 1 Defender AI 9 in
  g.

(** The initial deployment with a time budget of 0 seconds. *)
Definition hurried_game : Game := post_init (mkOptions 5 (Some 0%Q) false (Some 200)).

(** * Properties of the board operations *)

Section Board.

Implicit Types (g : Game) (c d : Coord) (u : Unit) (o : option Unit).

Lemma is_valid_coord_spec g c :
  is_valid_coord g c = true <->
  0 <= row c < dim (options g) /\ 0 <= col c < dim (options g).
Proof.
  unfold is_valid_coord. rewrite !Z.geb_leb.
  destruct (Z.ltb_spec (row c) 0), (Z.leb_spec (dim (options g)) (row c)),
    (Z.ltb_spec (col c) 0), (Z.leb_spec (dim (options g)) (col c));
    simpl; split; intros; try lia; try discriminate.
Qed.

Lemma get_Some_valid g c u : get g c = Some u -> is_valid_coord g c = true.
Proof. unfold get. destruct (is_valid_coord g c); [done | discriminate]. Qed.

Lemma get_invalid g c : is_valid_coord g c = false -> get g c = None.
Proof. unfold get. intros ->. done. Qed.

Lemma wf_shape g : wf_game g = true -> shape g.
Proof.
  unfold wf_game, shape. rewrite !andb_true_iff, forallb_forall.
  intros [[_ Hlen] Hrows]. split.
  - by apply Nat.eqb_eq.
  - apply Forall_forall. intros r Hr.
    apply list_elem_of_In, Hrows in Hr.
    apply andb_true_iff in Hr as [Hr _]. by apply Nat.eqb_eq.
Qed.

Lemma wf_health g c u :
  wf_game g = true -> get g c = Some u -> 0 < health u <= 9.
Proof.
  unfold wf_game, get. rewrite !andb_true_iff, forallb_forall.
  intros [_ Hrows] Hget.
  destruct (is_valid_coord g c); [|discriminate].
  destruct (board g !! Z.to_nat (row c)) as [r|] eqn:Hr; [|discriminate].
  destruct (r !! Z.to_nat (col c)) as [cell|] eqn:Hc; simpl in Hget; [|discriminate].
  subst cell.
  assert (Hin : In r (board g)).
  { apply list_elem_of_In. eapply list_elem_of_lookup_2; eauto. }
  apply Hrows, andb_true_iff in Hin as [_ Hcells].
  rewrite forallb_forall in Hcells.
  assert (Hin' : In (Some u) r).
  { apply list_elem_of_In. eapply list_elem_of_lookup_2; eauto. }
  apply Hcells in Hin'. simpl in Hin'. apply andb_true_iff in Hin' as [H1 H2].
  apply Z.ltb_lt in H1. apply Z.leb_le in H2. lia.
Qed.

Lemma is_valid_coord_set g c o d :
  is_valid_coord (set g c o) d = is_valid_coord g d.
Proof. unfold set. by destruct (is_valid_coord g c). Qed.

Lemma options_set g c o : options (set g c o) = options g.
Proof. unfold set. by destruct (is_valid_coord g c). Qed.

Lemma next_player_set g c o : next_player (set g c o) = next_player g.
Proof. unfold set. by destruct (is_valid_coord g c). Qed.

Lemma shape_set g c o : shape g -> shape (set g c o).
Proof.
  intros [Hlen Hrows]. unfold set, shape.
  destruct (is_valid_coord g c); [|done]. simpl. split.
  - by rewrite length_alter.
  - apply Forall_forall. intros r Hr.
    apply list_elem_of_lookup in Hr as [i Hi].
    destruct (decide (i = Z.to_nat (row c))) as [->|Hne].
    + rewrite list_lookup_alter_eq in Hi.
      destruct (board g !! Z.to_nat (row c)) as [r0|] eqn:Hr0; [|discriminate].
      simpl in Hi. injection Hi as <-. rewrite length_insert.
      rewrite Forall_forall in Hrows. apply Hrows.
      eapply list_elem_of_lookup_2; eauto.
    + rewrite list_lookup_alter_ne in Hi by done.
      rewrite Forall_forall in Hrows. apply Hrows.
      eapply list_elem_of_lookup_2; eauto.
Qed.

Lemma get_set_eq g c o :
  shape g -> is_valid_coord g c = true -> get (set g c o) c = o.
Proof.
  intros [Hlen Hrows] Hv. unfold get. rewrite is_valid_coord_set, Hv.
  unfold set. rewrite Hv. simpl.
  apply is_valid_coord_spec in Hv.
  rewrite list_lookup_alter_eq.
  destruct (lookup_lt_is_Some_2 (board g) (Z.to_nat (row c))) as [r Hr]; [lia|].
  rewrite Hr. simpl.
  rewrite list_lookup_insert_eq; [done|].
  rewrite Forall_forall in Hrows.
  rewrite (Hrows r) by (eapply list_elem_of_lookup_2; eauto). lia.
Qed.

Lemma get_set_ne g c o d : c <> d -> get (set g c o) d = get g d.
Proof.
  intros Hne. unfold get. rewrite is_valid_coord_set.
  destruct (is_valid_coord g d) eqn:Hd; [|done].
  unfold set. destruct (is_valid_coord g c) eqn:Hc; [|done]. simpl.
  apply is_valid_coord_spec in Hc, Hd.
  destruct (decide (Z.to_nat (row c) = Z.to_nat (row d))) as [Hrow|Hrow].
  - rewrite Hrow, list_lookup_alter_eq.
    destruct (board g !! Z.to_nat (row d)) as [r|]; [|done]. simpl.
    rewrite list_lookup_insert_ne; [done|].
    intros Hcol. apply Hne. destruct c, d; simpl in *. f_equal; lia.
  - by rewrite list_lookup_alter_ne.
Qed.

Lemma get_set g c o d :
  shape g -> is_valid_coord g c = true ->
  get (set g c o) d = if decide (d = c) then o else get g d.
Proof.
  intros Hs Hv. destruct (decide (d = c)) as [->|Hne].
  - by apply get_set_eq.
  - by apply get_set_ne.
Qed.

Lemma is_valid_coord_remove_dead g c d :
  is_valid_coord (remove_dead g c) d = is_valid_coord g d.
Proof.
  unfold remove_dead. destruct (get g c) as [u|]; [|done].
  destruct (negb (Unit_is_alive u)); [|done].
  destruct (decide (type u = AI)); [destruct (decide (player u = Attacker))|];
    apply is_valid_coord_set.
Qed.

Lemma get_remove_dead g c d :
  shape g ->
  get (remove_dead g c) d =
  if decide (d = c)
  then match get g c with
       | Some u => if Unit_is_alive u then Some u else None
       | None => None
       end
  else get g d.
Proof.
  intros Hs. unfold remove_dead.
  destruct (get g c) as [u|] eqn:Hc.
  - pose proof (get_Some_valid _ _ _ Hc) as Hv.
    destruct (Unit_is_alive u); simpl.
    + destruct (decide (d = c)) as [->|]; done.
    + assert (Hget : get (set g c None) d = if decide (d = c) then None else get g d)
        by (by apply get_set).
      destruct (decide (type u = AI)); [destruct (decide (player u = Attacker))|];
        exact Hget.
  - destruct (decide (d = c)) as [->|]; done.
Qed.

Lemma shape_remove_dead g c : shape g -> shape (remove_dead g c).
Proof.
  intros Hs. unfold remove_dead. destruct (get g c) as [u|]; [|done].
  destruct (negb (Unit_is_alive u)); [|done].
  pose proof (shape_set g c None Hs) as Hs'.
  destruct (decide (type u = AI)); [destruct (decide (player u = Attacker))|];
    exact Hs'.
Qed.

Lemma get_mod_health g c delta d :
  shape g ->
  get (mod_health g c delta) d =
  if decide (d = c) then after_hit (get g c) delta else get g d.
Proof.
  intros Hs. unfold mod_health.
  destruct (get g c) as [u|] eqn:Hc.
  - pose proof (get_Some_valid _ _ _ Hc) as Hv.
    rewrite get_remove_dead by (by apply shape_set).
    rewrite get_set_eq by done.
    destruct (decide (d = c)) as [->|Hne]; [done|].
    by rewrite get_set_ne.
  - destruct (decide (d = c)) as [->|]; done.
Qed.

Lemma shape_mod_health g c delta : shape g -> shape (mod_health g c delta).
Proof.
  intros Hs. unfold mod_health. destruct (get g c); [|done].
  by apply shape_remove_dead, shape_set.
Qed.

Lemma is_valid_coord_mod_health g c delta d :
  is_valid_coord (mod_health g c delta) d = is_valid_coord g d.
Proof.
  unfold mod_health. destruct (get g c); [|done].
  by rewrite is_valid_coord_remove_dead, is_valid_coord_set.
Qed.

End Board.

(** * Termination check *)

(** C5.  Once [turns_played] has reached [max_turns], [has_winner]
    answers Defender whatever the board and the AI flags are: the
    turn-limit test comes before the tests on the flags. *)
Theorem has_winner_turn_limit (g : Game) (m : Z) :
  max_turns (options g) = Some m ->
  m <= turns_played g ->
  has_winner g = Some Defender /\ is_finished g = true.
Proof.
  intros Hm Hle. unfold is_finished, has_winner. rewrite Hm.
  rewrite Z.geb_leb. destruct (Z.leb_spec m (turns_played g)); [done | lia].
Qed.

Lemma has_winner_turn_limit_witness :
  _attacker_has_ai limit_game = true /\ _defender_has_ai limit_game = true
  /\ has_winner limit_game = Some Defender.
Proof.
  split; [reflexivity | split; [reflexivity |]].
  apply (has_winner_turn_limit limit_game 200); [reflexivity | simpl; lia].
Defined.

(** * Move classification *)

Lemma determine_action_empty_source :
  determine_action (post_init main_options)
                   (mkCoordPair (mkCoord 2 2) (mkCoord 0 0))
  = Raise AttributeError.
Proof. reflexivity. Qed.

(** Outside the domain of the next theorem the function raises. *)
Lemma determine_action_raises (g : Game) (coords : CoordPair) :
  get g (src coords) = None -> src coords <> dst coords ->
  is_Some (get g (dst coords)) ->
  determine_action g coords = Raise AttributeError.
Proof.
  unfold determine_action. intros Hs Hne [d Hd]. rewrite Hs, Hd.
  destruct (decide (src coords = dst coords)); done.
Qed.

(** C8, as the code has it.  [determine_action] reads the state only and
    checks no legality.  Whenever the source holds a unit, or both
    coordinates are equal, or the destination holds no unit, it returns
    an action: SUICIDE when [src = dst], MOVE when the destination holds
    no unit, and REPAIR or ATTACK by comparing the owners when both cells
    hold a unit. *)
Theorem determine_action_cases (g : Game) (coords : CoordPair) :
  is_Some (get g (src coords)) \/ src coords = dst coords
  \/ get g (dst coords) = None ->
  exists a, determine_action g coords = Ok a
    /\ (src coords = dst coords -> a = SUICIDE)
    /\ (src coords <> dst coords -> get g (dst coords) = None -> a = MOVE)
    /\ (forall s d, src coords <> dst coords ->
          get g (src coords) = Some s -> get g (dst coords) = Some d ->
          a = if decide (player s = player d) then REPAIR else ATTACK).
Proof.
  unfold determine_action.
  intros Hpre. destruct (decide (src coords = dst coords)) as [Heq|Hne].
  { exists SUICIDE. repeat split; congruence. }
  destruct (get g (dst coords)) as [d|] eqn:Hd.
  - destruct (get g (src coords)) as [s|] eqn:Hs.
    + simpl. exists (if decide (player s = player d) then REPAIR else ATTACK).
      split; [by destruct (decide (player s = player d))|].
      split; [done|]. split; [done|].
      intros s' d' _ [= <-] [= <-]. done.
    + destruct Hpre as [[? ?]|[?|?]]; congruence.
  - exists MOVE. repeat split; congruence.
Qed.

Lemma determine_action_cases_witness :
  exists a,
    determine_action engaged_game (mkCoordPair (mkCoord 2 2) (mkCoord 2 3)) = Ok a
    /\ a = ATTACK.
Proof.
  destruct (determine_action_cases engaged_game
              (mkCoordPair (mkCoord 2 2) (mkCoord 2 3)))
    as (a & Ha & _ & _ & Hboth).
  - left. vm_compute. eauto.
  - exists a. split; [exact Ha|].
    apply (Hboth (mkUnit Attacker Program 9) (mkUnit Defender Firewall 9));
      [discriminate | reflexivity | reflexivity].
Defined.

(** * Move legality *)

Section Legality.

Implicit Types (g : Game) (s d e : Coord) (u : Unit).

Lemma neighbour_loop_in cs d body :
  d ∈ cs -> neighbour_loop cs d body = body.
Proof.
  induction cs as [|c cs IH]; intros Hin.
  - by apply elem_of_nil in Hin.
  - simpl. destruct (decide (c = d)); [done|].
    apply elem_of_cons in Hin as [->|Hin]; [done | by apply IH].
Qed.

Lemma neighbour_loop_notin cs d body :
  d ∉ cs -> neighbour_loop cs d body = Ok false.
Proof.
  induction cs as [|c cs IH]; intros Hnin; [done|].
  simpl. apply not_elem_of_cons in Hnin as [Hne Hnin].
  destruct (decide (c = d)); [congruence | by apply IH].
Qed.

Lemma adjacent_ne s d : d ∈ iter_adjacent s -> s <> d.
Proof.
  unfold iter_adjacent. rewrite !elem_of_cons, elem_of_nil.
  intros [->|[->|[->|[->|[]]]]] Heq;
    apply (f_equal row) in Heq as Hr; apply (f_equal col) in Heq as Hc;
    simpl in *; lia.
Qed.

Lemma adjacent_enemy_scan_friends g u cs :
  (forall e eu, e ∈ cs -> get g e = Some eu -> player eu = player u) ->
  adjacent_enemy_scan g u cs = true.
Proof.
  induction cs as [|c cs IH]; intros Hall; [done|]. simpl.
  destruct (get g c) as [cu|] eqn:Hc.
  - rewrite (bool_decide_eq_true_2 (player u = player cu)).
    + rewrite andb_false_r. apply IH. intros e eu He. apply Hall. by right.
    + symmetry. apply (Hall c cu); [by left | done].
  - apply IH. intros e eu He. apply Hall. by right.
Qed.

Lemma adjacent_enemy_scan_enemy g u cs e eu :
  restricted_type (type u) = true ->
  e ∈ cs -> get g e = Some eu -> player eu <> player u ->
  adjacent_enemy_scan g u cs = false.
Proof.
  intros Hr Hin He Hne. induction cs as [|c cs IH].
  - by apply elem_of_nil in Hin.
  - simpl. apply elem_of_cons in Hin as [->|Hin].
    + rewrite He, Hr. rewrite bool_decide_eq_false_2 by congruence. done.
    + destruct (get g c) as [cu|]; [|by apply IH].
      destruct (restricted_type (type u) && negb (bool_decide (player u = player cu)));
        [done | by apply IH].
Qed.

(** On a neighbouring destination, [is_valid_move] is the body of its
    loop. *)
Lemma is_valid_move_adjacent g s d u :
  is_valid_coord g s = true -> is_valid_coord g d = true ->
  get g s = Some u -> player u = next_player g ->
  d ∈ iter_adjacent s ->
  is_valid_move g (mkCoordPair s d) = valid_at_neighbour g (mkCoordPair s d) u.
Proof.
  intros Hs Hd Hu Hp Hadj. unfold is_valid_move. cbn [src dst].
  rewrite Hs, Hd, Hu. cbn [negb orb].
  rewrite (bool_decide_eq_true_2 _ Hp). cbn [negb].
  rewrite (bool_decide_eq_false_2 _ (adjacent_ne _ _ Hadj)). cbn [negb].
  by apply neighbour_loop_in.
Qed.

Lemma is_valid_move_self g s u :
  is_valid_coord g s = true -> get g s = Some u -> player u = next_player g ->
  is_valid_move g (mkCoordPair s s) = Ok true.
Proof.
  intros Hs Hu Hp. unfold is_valid_move. simpl. rewrite Hs, Hu. simpl.
  rewrite (bool_decide_eq_true_2 _ Hp). simpl.
  by rewrite (bool_decide_eq_true_2 (s = s)).
Qed.

Lemma valid_at_neighbour_total g coords u :
  get g (src coords) = Some u ->
  exists b, valid_at_neighbour g coords u = Ok b.
Proof.
  intros Hu. unfold valid_at_neighbour.
  destruct (get g (dst coords)) as [du|] eqn:Hd.
  - unfold determine_action. rewrite Hu, Hd.
    destruct (decide (src coords = dst coords)); simpl.
    + eauto.
    + destruct (decide (player u = player du)); simpl; [|eauto].
      destruct (table_at repair_table (type u) (type du) =? 0); [eauto|].
      destruct (health du =? 9); eauto.
  - unfold unit_movement_restriction. rewrite Hu. simpl.
    destruct (restricted_type (type u)); [|eauto].
    match goal with |- context [if ?c then Ok false else _] => destruct c end; eauto.
Qed.

Lemma is_valid_move_total g coords : exists b, is_valid_move g coords = Ok b.
Proof.
  unfold is_valid_move.
  destruct (negb (is_valid_coord g (src coords)) || negb (is_valid_coord g (dst coords)));
    [eauto|].
  destruct (get g (src coords)) as [u|] eqn:Hu; [|eauto].
  destruct (negb (bool_decide (player u = next_player g))); [eauto|].
  destruct (negb (bool_decide (src coords = dst coords))); [|eauto].
  destruct (decide (dst coords ∈ iter_adjacent (src coords))) as [Hin|Hnin].
  - rewrite neighbour_loop_in by done. by apply valid_at_neighbour_total.
  - rewrite neighbour_loop_notin by done. eauto.
Qed.

End Legality.

Lemma restricted_type_true (t : UnitType) :
  restricted_type t = true <-> t = AI \/ t = Firewall \/ t = Program.
Proof. destruct t; simpl; intuition congruence. Qed.

Lemma restricted_type_false (t : UnitType) :
  restricted_type t = false <-> t = Tech \/ t = Virus.
Proof. destruct t; simpl; intuition congruence. Qed.

Lemma is_valid_move_off_board (g : Game) (s d : Coord) :
  is_valid_coord g d = false -> is_valid_move g (mkCoordPair s d) = Ok false.
Proof.
  intros Hd. unfold is_valid_move. cbn [src dst]. rewrite Hd.
  by rewrite orb_true_r.
Qed.

Ltac case_ltb :=
  repeat match goal with
         | |- context [?a <? ?b] => destruct (Z.ltb_spec a b)
         end.

(** The direction test of [unit_movement_restriction] on a neighbour. *)
Lemma direction_test (p : Player) (s d : Coord) :
  d ∈ iter_adjacent s ->
  (if decide (p = Attacker)
   then (row d - row s >? 0) || (col d - col s >? 0)
   else (row d - row s <? 0) || (col d - col s <? 0))
  = negb (advances p s d).
Proof.
  unfold iter_adjacent, advances. rewrite !elem_of_cons, elem_of_nil.
  rewrite !Z.gtb_ltb.
  intros [->|[->|[->|[->|[]]]]]; destruct p; simpl; case_ltb;
    simpl; try reflexivity; lia.
Qed.

(** A move of a unit of the mover to an empty neighbouring cell of the
    board is decided by [unit_movement_restriction] alone. *)
Lemma is_valid_move_empty_neighbour (g : Game) (s d : Coord) (u : Unit) :
  get g s = Some u -> player u = next_player g ->
  d ∈ iter_adjacent s -> is_valid_coord g d = true -> get g d = None ->
  is_valid_move g (mkCoordPair s d) =
  if restricted_type (type u)
  then if advances (player u) s d
       then Ok (adjacent_enemy_scan g u (iter_adjacent s))
       else Ok false
  else Ok true.
Proof.
  intros Hu Hp Hadj Hd Hempty.
  rewrite (is_valid_move_adjacent g s d u) by eauto using get_Some_valid.
  unfold valid_at_neighbour, unit_movement_restriction. cbn [src dst].
  rewrite Hempty, Hu. simpl.
  destruct (restricted_type (type u)); [|done].
  rewrite (direction_test (player u) s d Hadj).
  by destruct (advances (player u) s d).
Qed.

(** C3.  For a unit [u] of the mover at [s]:
    - if [u] is an AI, a Firewall or a Program and some neighbouring cell
      holds an enemy unit, no move to a neighbouring cell without a unit
      is legal, while the pair [(s, e)] towards that enemy is an ATTACK
      and is legal;
    - if [u] is of these types and no neighbouring cell holds an enemy,
      a move to an empty neighbouring cell of the board is legal exactly
      when it advances (smaller row or column for the Attacker, larger
      for the Defender);
    - if [u] is a Tech or a Virus, every move to an empty neighbouring
      cell of the board is legal. *)
Theorem engagement_lock_and_direction (g : Game) (s : Coord) (u : Unit) :
  wf_game g = true ->
  get g s = Some u -> player u = next_player g ->
  (type u = AI \/ type u = Firewall \/ type u = Program ->
   (forall e eu, e ∈ iter_adjacent s -> get g e = Some eu ->
                 player eu <> player u ->
      (forall d, d ∈ iter_adjacent s -> get g d = None ->
                 is_valid_move g (mkCoordPair s d) = Ok false)
      /\ determine_action g (mkCoordPair s e) = Ok ATTACK
      /\ is_valid_move g (mkCoordPair s e) = Ok true)
   /\ ((forall e eu, e ∈ iter_adjacent s -> get g e = Some eu ->
                     player eu = player u) ->
       forall d, d ∈ iter_adjacent s -> is_valid_coord g d = true ->
                 get g d = None ->
         is_valid_move g (mkCoordPair s d) = Ok (advances (player u) s d)))
  /\ (type u = Tech \/ type u = Virus ->
      forall d, d ∈ iter_adjacent s -> is_valid_coord g d = true ->
                get g d = None ->
        is_valid_move g (mkCoordPair s d) = Ok true).
Proof.
  intros _ Hu Hp. split; [intros Hty; split|].
  - apply restricted_type_true in Hty.
    intros e eu He Heu Hne.
    assert (Hact : determine_action g (mkCoordPair s e) = Ok ATTACK).
    { unfold determine_action. cbn [src dst]. rewrite Hu, Heu.
      destruct (decide (s = e)) as [Heq|_]; [by apply adjacent_ne in He|].
      simpl. destruct (decide (player u = player eu)); congruence. }
    split; [|split; [exact Hact|]].
    + intros d Hd Hempty.
      destruct (is_valid_coord g d) eqn:Hv; [|by apply is_valid_move_off_board].
      rewrite (is_valid_move_empty_neighbour g s d u) by done.
      rewrite Hty, (adjacent_enemy_scan_enemy g u _ e eu) by done.
      by destruct (advances (player u) s d).
    + rewrite (is_valid_move_adjacent g s e u) by eauto using get_Some_valid.
      unfold valid_at_neighbour. cbn [dst]. rewrite Heu, Hact. done.
  - apply restricted_type_true in Hty.
    intros Hfriends d Hd Hv Hempty.
    rewrite (is_valid_move_empty_neighbour g s d u) by done.
    rewrite Hty, adjacent_enemy_scan_friends by done.
    by destruct (advances (player u) s d).
  - intros Hty d Hd Hv Hempty. apply restricted_type_false in Hty.
    rewrite (is_valid_move_empty_neighbour g s d u) by done.
    by rewrite Hty.
Qed.

Lemma engagement_lock_and_direction_witness :
  is_valid_move engaged_game (mkCoordPair (mkCoord 2 2) (mkCoord 1 2)) = Ok false
  /\ is_valid_move engaged_game (mkCoordPair (mkCoord 2 2) (mkCoord 2 3)) = Ok true.
Proof.
  destruct (engagement_lock_and_direction engaged_game (mkCoord 2 2)
              (mkUnit Attacker Program 9))
    as [Hlocked _]; [reflexivity | reflexivity | reflexivity |].
  destruct Hlocked as [Hlock _]; [right; right; reflexivity|].
  destruct (Hlock (mkCoord 2 3) (mkUnit Defender Firewall 9))
    as (Hmove & _ & Hattack); [| reflexivity | discriminate |].
  { unfold iter_adjacent. simpl. rewrite !elem_of_cons. auto. }
  split; [|exact Hattack].
  apply Hmove; [|reflexivity].
  unfold iter_adjacent. simpl. rewrite !elem_of_cons. auto.
Defined.

(** * Candidate moves *)

Lemma elem_of_range (a b x : Z) : x ∈ range a b <-> a <= x < b.
Proof. unfold range. rewrite elem_of_seqZ. lia. Qed.

Lemma elem_of_iter_rectangle (p : CoordPair) (c : Coord) :
  c ∈ iter_rectangle p <->
  row (src p) <= row c <= row (dst p) /\ col (src p) <= col c <= col (dst p).
Proof.
  unfold iter_rectangle. rewrite list_elem_of_bind. split.
  - intros (r & Hc & Hr). apply list_elem_of_bind in Hc as (k & Hc & Hk).
    apply list_elem_of_singleton in Hc as ->.
    apply elem_of_range in Hr, Hk. simpl. lia.
  - intros [Hr Hk]. exists (row c). split; [|apply elem_of_range; lia].
    apply list_elem_of_bind. exists (col c). split; [|apply elem_of_range; lia].
    destruct c. by apply list_elem_of_singleton.
Qed.

Lemma elem_of_player_units (g : Game) (p : Player) (c : Coord) (u : Unit) :
  (c, u) ∈ player_units g p <-> get g c = Some u /\ player u = p.
Proof.
  unfold player_units. rewrite list_elem_of_bind. split.
  - intros (c' & Hin & _). destruct (get g c') as [u'|] eqn:Hc'.
    + destruct (decide (player u' = p)).
      * apply list_elem_of_singleton in Hin. by injection Hin as -> ->.
      * by apply elem_of_nil in Hin.
    + by apply elem_of_nil in Hin.
  - intros [Hc Hp]. exists c. rewrite Hc. split.
    + destruct (decide (player u = p)); [by apply list_elem_of_singleton | done].
    + apply elem_of_iter_rectangle. simpl.
      apply get_Some_valid, is_valid_coord_spec in Hc. lia.
Qed.

Lemma adjacent_candidates_valid (g : Game) (s : Coord) (ds : list Coord) :
  exists ms, adjacent_candidates g s ds = Ok ms
    /\ forall m, m ∈ ms -> is_valid_move g m = Ok true.
Proof.
  induction ds as [|d ds (ms & Hms & Hall)]; simpl.
  - exists []. split; [done|]. intros m Hm. by apply elem_of_nil in Hm.
  - destruct (is_valid_move_total g (mkCoordPair s d)) as [b Hb].
    rewrite Hb, Hms. simpl. destruct b.
    + eexists. split; [done|]. intros m Hm.
      apply elem_of_cons in Hm as [->|Hm]; [done | by apply Hall].
    + eauto.
Qed.

Lemma candidates_of_units_valid (g : Game) (units : list (Coord * Unit)) :
  (forall c u, (c, u) ∈ units -> get g c = Some u /\ player u = next_player g) ->
  exists ms, candidates_of_units g units = Ok ms
    /\ (forall c u, (c, u) ∈ units -> mkCoordPair c c ∈ ms)
    /\ (forall m, m ∈ ms -> is_valid_move g m = Ok true).
Proof.
  induction units as [|[s su] units IH]; intros Hunits; cbn [candidates_of_units].
  - exists []. split; [done|].
    split; [intros c u Hin | intros m Hin]; by apply elem_of_nil in Hin.
  - destruct IH as (ms & Hms & Hself & Hall).
    { intros c u Hin. apply Hunits. by right. }
    destruct (adjacent_candidates_valid g s (iter_adjacent s)) as (adj & Hadj & Hvalid).
    rewrite Hadj, Hms. simpl. eexists. split; [done|]. split.
    + intros c u Hin. apply elem_of_app. right.
      apply elem_of_cons in Hin as [[= -> ->]|Hin]; [by left|].
      right. by eapply Hself.
    + intros m Hin. apply elem_of_app in Hin as [Hin|Hin]; [by apply Hvalid|].
      apply elem_of_cons in Hin as [->|Hin]; [|by apply Hall].
      destruct (Hunits s su) as [Hget Hp]; [by left|].
      eapply is_valid_move_self; eauto using get_Some_valid.
Qed.

(** Every candidate satisfies [is_valid_move]. *)
Lemma move_candidates_sound (g : Game) :
  exists ms, move_candidates g = Ok ms
    /\ forall m, m ∈ ms -> is_valid_move g m = Ok true.
Proof.
  unfold move_candidates.
  destruct (candidates_of_units_valid g (player_units g (next_player g)))
    as (ms & Hms & _ & Hall); [|by eauto].
  intros c u Hin. by apply elem_of_player_units in Hin.
Qed.

(** C10.  [move_candidates] returns a list [ms] such that: the
    self-targeting pair of every unit of the mover is in [ms];
    [is_valid_move] accepts the self-targeting pair of every cell of the
    board that holds a unit of the mover; every move of [ms] satisfies
    [is_valid_move]; [ms] is not empty when the mover owns a unit; hence
    [ms] is empty only when no cell holds a unit of the mover. *)
Theorem move_candidates_nonempty_and_valid (g : Game) :
  wf_game g = true ->
  exists ms, move_candidates g = Ok ms
    /\ (forall c u, get g c = Some u -> player u = next_player g ->
          mkCoordPair c c ∈ ms)
    /\ (forall c u, is_valid_coord g c = true -> get g c = Some u ->
          player u = next_player g ->
          is_valid_move g (mkCoordPair c c) = Ok true)
    /\ (forall m, m ∈ ms -> is_valid_move g m = Ok true)
    /\ ((exists c u, get g c = Some u /\ player u = next_player g) -> ms <> [])
    /\ (ms = [] ->
        forall c u, get g c = Some u -> player u <> next_player g).
Proof.
  intros _. unfold move_candidates.
  destruct (candidates_of_units_valid g (player_units g (next_player g)))
    as (ms & Hms & Hself & Hall).
  { intros c u Hin. by apply elem_of_player_units in Hin. }
  assert (Hself' : forall c u, get g c = Some u -> player u = next_player g ->
                               mkCoordPair c c ∈ ms).
  { intros c u Hc Hp. apply (Hself c u). by apply elem_of_player_units. }
  exists ms. split; [done|]. split; [done|].
  split; [intros c u; apply is_valid_move_self|]. split; [done|]. split.
  - intros (c & u & Hc & Hp) ->.
    eapply elem_of_nil, Hself'; eauto.
  - intros -> c u Hc Hp.
    eapply elem_of_nil, Hself'; eauto.
Qed.

Lemma move_candidates_nonempty_and_valid_witness :
  exists ms, move_candidates (post_init main_options) = Ok ms /\ ms <> [].
Proof.
  destruct (move_candidates_nonempty_and_valid (post_init main_options))
    as (ms & Hms & _ & _ & _ & Hne & _); [reflexivity|].
  exists ms. split; [exact Hms|].
  apply Hne. exists (mkCoord 4 4), (mkUnit Attacker AI 9).
  split; reflexivity.
Defined.

(** * Coordinate text notation *)

Ltac each_ascii a :=
  destruct a as [[] [] [] [] [] [] [] []]; vm_compute; try reflexivity.

Lemma find_row_letters (a : ascii) :
  find row_letters (upper a) = row_of_letter a.
Proof. each_ascii a. Qed.

Lemma find_col_digits (a : ascii) :
  find col_digits (lower a) = col_of_digit a.
Proof. each_ascii a. Qed.

Lemma row_of_letter_range (a : ascii) :
  if is_row_letter a then 0 <= row_of_letter a < 26 else row_of_letter a = -1.
Proof. each_ascii a; (split; [discriminate | reflexivity]). Qed.

Lemma col_of_digit_range (a : ascii) :
  if is_col_digit a then 0 <= col_of_digit a < 16 else col_of_digit a = -1.
Proof. each_ascii a; (split; [discriminate | reflexivity]). Qed.

Lemma row_of_letter_case (a : ascii) :
  row_of_letter (upper a) = row_of_letter a
  /\ row_of_letter (lower a) = row_of_letter a.
Proof. each_ascii a; split; reflexivity. Qed.

Lemma col_of_digit_case (a : ascii) :
  col_of_digit (upper a) = col_of_digit a
  /\ col_of_digit (lower a) = col_of_digit a.
Proof. each_ascii a; split; reflexivity. Qed.

Lemma Coord_from_string_out_of_range :
  Coord_from_string "!3" = Some (mkCoord (-1) 3)
  /\ Coord_from_string "D?" = Some (mkCoord 3 (-1))
  /\ CoordPair_from_string "D2 D#"
     = Some (mkCoordPair (mkCoord 3 2) (mkCoord 3 (-1))).
Proof. repeat split; reflexivity. Qed.

Lemma negative_coord_invalid (g : Game) (c : Coord) :
  row c = -1 \/ col c = -1 -> is_valid_coord g c = false.
Proof.
  intros H. destruct (is_valid_coord g c) eqn:Hv; [|done].
  apply is_valid_coord_spec in Hv. lia.
Qed.

(** C9, as the code has it, for every text of characters with code
    points below 256.  Both parsers answer [None] exactly when the
    cleaned text has the wrong length.  With the right length they always
    answer a coordinate: each row is the index of the letter (either
    case) and is -1 for a character outside A-Z, each column is the value
    of the hexadecimal digit (either case) and is -1 for a character
    outside 0-9a-f, and a coordinate with a -1 is rejected by
    [is_valid_coord] on every board. *)
Theorem from_string_cases (s : string) :
  (length (clean s) <> 2%nat -> Coord_from_string s = None)
  /\ (length (clean s) <> 4%nat -> CoordPair_from_string s = None)
  /\ (forall c0 c1, clean s = [c0; c1] ->
        Coord_from_string s
        = Some (mkCoord (row_of_letter c0) (col_of_digit c1))
        /\ (is_row_letter c0 = false -> row_of_letter c0 = -1)
        /\ (is_col_digit c1 = false -> col_of_digit c1 = -1)
        /\ (is_row_letter c0 = false \/ is_col_digit c1 = false ->
            forall g, is_valid_coord g (mkCoord (row_of_letter c0) (col_of_digit c1))
                      = false))
  /\ (forall c0 c1 c2 c3, clean s = [c0; c1; c2; c3] ->
        CoordPair_from_string s
        = Some (mkCoordPair (mkCoord (row_of_letter c0) (col_of_digit c1))
                            (mkCoord (row_of_letter c2) (col_of_digit c3)))).
Proof.
  assert (Hrow : forall a, is_row_letter a = false -> row_of_letter a = -1).
  { intros a Ha. pose proof (row_of_letter_range a) as H. by rewrite Ha in H. }
  assert (Hcol : forall a, is_col_digit a = false -> col_of_digit a = -1).
  { intros a Ha. pose proof (col_of_digit_range a) as H. by rewrite Ha in H. }
  unfold Coord_from_string, CoordPair_from_string.
  split; [|split; [|split]].
  - intros Hlen. destruct (clean s) as [|? [|? [|? ?]]]; simpl in *; congruence.
  - intros Hlen.
    destruct (clean s) as [|? [|? [|? [|? [|? ?]]]]]; simpl in *; congruence.
  - intros c0 c1 ->. rewrite find_row_letters, find_col_digits.
    split; [done|]. split; [apply Hrow|]. split; [apply Hcol|].
    intros Hbad g. apply negative_coord_invalid. simpl.
    destruct Hbad; [left; by apply Hrow | right; by apply Hcol].
  - intros c0 c1 c2 c3 ->. by rewrite !find_row_letters, !find_col_digits.
Qed.

Lemma from_string_cases_witness :
  Coord_from_string "D22" = None
  /\ Coord_from_string " d-2 " = Some (mkCoord 3 2).
Proof.
  destruct (from_string_cases "D22") as (Hlen & _).
  destruct (from_string_cases " d-2 ") as (_ & _ & Hok & _).
  split.
  - apply Hlen. vm_compute. discriminate.
  - apply (Hok "d"%char "2"%char). reflexivity.
Defined.

(** * Attack *)

(** What [perform_attack] does to the board: the unit at [src] takes the
    table entry read at (its own type, the type at [dst]), the unit at
    [dst] takes the entry read at (its own type, the type at [src]); both
    entries are read before either health changes, and every other cell
    is kept. *)
Lemma perform_attack_cells (g : Game) (coords : CoordPair) (a t : Unit) :
  shape g -> src coords <> dst coords ->
  let g' := (perform_attack g coords a t).1 in
  get g' (src coords)
  = after_hit (get g (src coords)) (- table_at damage_table (type a) (type t))
  /\ get g' (dst coords)
     = after_hit (get g (dst coords)) (- table_at damage_table (type t) (type a))
  /\ (forall c, c <> src coords -> c <> dst coords -> get g' c = get g c).
Proof.
  intros Hs Hne. unfold perform_attack. cbn [fst].
  replace (table_at damage_table (type a) (type t) * -1)
    with (- table_at damage_table (type a) (type t)) by lia.
  replace (table_at damage_table (type t) (type a) * -1)
    with (- table_at damage_table (type t) (type a)) by lia.
  pose proof (shape_mod_health g (src coords)
                (- table_at damage_table (type a) (type t)) Hs) as Hs1.
  repeat split.
  - rewrite !get_mod_health by done.
    destruct (decide (src coords = dst coords)); [done|].
    by destruct (decide (src coords = src coords)).
  - rewrite !get_mod_health by done.
    destruct (decide (dst coords = dst coords)); [|done].
    by destruct (decide (dst coords = src coords)).
  - intros c Hc1 Hc2. rewrite !get_mod_health by done.
    destruct (decide (c = dst coords)); [done|].
    by destruct (decide (c = src coords)).
Qed.

(** A legal move onto an enemy unit runs [perform_attack]. *)
Lemma perform_move_attack (g : Game) (s d : Coord) (a t : Unit) :
  get g s = Some a -> player a = next_player g ->
  get g d = Some t -> player t <> player a ->
  d ∈ iter_adjacent s ->
  perform_move g (mkCoordPair s d) = Ok (perform_attack g (mkCoordPair s d) a t).
Proof.
  intros Ha Hp Ht Hne Hadj.
  assert (Hact : determine_action g (mkCoordPair s d) = Ok ATTACK).
  { unfold determine_action. cbn [src dst]. rewrite Ha, Ht.
    destruct (decide (s = d)) as [Heq|_]; [by apply adjacent_ne in Hadj|].
    simpl. destruct (decide (player a = player t)); congruence. }
  unfold perform_move.
  rewrite (is_valid_move_adjacent g s d a) by eauto using get_Some_valid.
  unfold valid_at_neighbour. cbn [src dst]. rewrite Ht, Hact. simpl.
  by rewrite Ha.
Qed.

(** C1, on the code.  The Attacker Virus at B0 attacks the Defender AI at
    A0.  The table gives 9 for a Virus acting on an AI and 3 for an AI
    acting on a Virus.  [perform_move] takes the 9 from the attacking
    Virus, which is removed, and the 3 from the AI, which stays with
    health 6. *)
Theorem perform_attack_swaps_damage :
  table_at damage_table Virus AI = 9
  /\ table_at damage_table AI Virus = 3
  /\ Unit_damage_amount (mkUnit Attacker Virus 9) (mkUnit Defender AI 9) = 9
  /\ is_valid_move assault_game (mkCoordPair (mkCoord 1 0) (mkCoord 0 0)) = Ok true
  /\ determine_action assault_game (mkCoordPair (mkCoord 1 0) (mkCoord 0 0))
     = Ok ATTACK
  /\ exists g',
      perform_move assault_game (mkCoordPair (mkCoord 1 0) (mkCoord 0 0))
      = Ok (g', (true, attack_from (mkCoord 1 0) (mkCoord 0 0) 9 3))
      /\ get g' (mkCoord 1 0) = None
      /\ get g' (mkCoord 0 0) = Some (mkUnit Defender AI 6)
      /\ _defender_has_ai g' = true.
Proof.
  do 5 (split; [reflexivity|]).
  eexists. split; [reflexivity|]. repeat split; reflexivity.
Qed.

Lemma duel_leaves_virus_at_3 :
  exists g' r,
    perform_move duel_game (mkCoordPair (mkCoord 2 2) (mkCoord 2 1)) = Ok (g', r)
    /\ health_at g' (mkCoord 2 1) = Some 3
    /\ health_at g' (mkCoord 2 2) = Some 3
    /\ health_at g' (mkCoord 2 2) <> Some 8.
Proof.
  do 2 eexists. split; [reflexivity|].
  split; [reflexivity|]. split; [reflexivity | discriminate].
Qed.

(** C2, as the code has it.  When the Attacker is to move and its Virus
    with health 9 at [s] attacks a Defender Tech with health 9 on a
    neighbouring cell [d], the move succeeds and leaves the Tech with
    health 3 and the Virus with health 3: the table holds 6 for a Virus
    acting on a Tech and 6 for a Tech acting on a Virus. *)
Theorem virus_attacks_tech (g : Game) (s d : Coord) :
  wf_game g = true -> next_player g = Attacker ->
  get g s = Some (mkUnit Attacker Virus 9) ->
  get g d = Some (mkUnit Defender Tech 9) ->
  d ∈ iter_adjacent s ->
  exists g' to_source to_target,
    perform_move g (mkCoordPair s d)
    = Ok (g', (true, attack_from s d to_source to_target))
    /\ get g' d = Some (mkUnit Defender Tech 3)
    /\ get g' s = Some (mkUnit Attacker Virus 3).
Proof.
  intros Hwf Hnext Hs Hd Hadj.
  rewrite (perform_move_attack g s d _ _ Hs) by done.
  destruct (perform_attack_cells g (mkCoordPair s d)
              (mkUnit Attacker Virus 9) (mkUnit Defender Tech 9))
    as (Hsrc & Hdst & _); [by apply wf_shape | by apply adjacent_ne |].
  cbn [src dst] in *. rewrite Hs in Hsrc. rewrite Hd in Hdst.
  do 3 eexists. split; [reflexivity|]. split; [exact Hdst | exact Hsrc].
Qed.

Lemma virus_attacks_tech_witness :
  exists g' to_source to_target,
    perform_move duel_game (mkCoordPair (mkCoord 2 2) (mkCoord 2 1))
    = Ok (g', (true, attack_from (mkCoord 2 2) (mkCoord 2 1) to_source to_target))
    /\ get g' (mkCoord 2 1) = Some (mkUnit Defender Tech 3)
    /\ get g' (mkCoord 2 2) = Some (mkUnit Attacker Virus 3).
Proof.
  apply (virus_attacks_tech duel_game (mkCoord 2 2) (mkCoord 2 1));
    try reflexivity.
  unfold iter_adjacent. simpl. rewrite !elem_of_cons. auto.
Defined.

(** * Self-destruction *)

Lemma elem_of_iter_range (c d : Coord) (dist : Z) :
  d ∈ iter_range c dist <->
  row c - dist <= row d <= row c + dist /\ col c - dist <= col d <= col c + dist.
Proof.
  unfold iter_range. rewrite list_elem_of_bind. split.
  - intros (r & Hd & Hr). apply list_elem_of_bind in Hd as (k & Hd & Hk).
    apply list_elem_of_singleton in Hd as ->.
    apply elem_of_range in Hr, Hk. simpl. lia.
  - intros [Hr Hk]. exists (row d). split; [|apply elem_of_range; lia].
    apply list_elem_of_bind. exists (col d). split; [|apply elem_of_range; lia].
    destruct d. by apply list_elem_of_singleton.
Qed.

Lemma NoDup_iter_range (c : Coord) (dist : Z) : NoDup (iter_range c dist).
Proof.
  unfold iter_range, range. apply NoDup_bind; [| |apply NoDup_seqZ].
  - intros r1 r2 d _ _ H1 H2.
    apply list_elem_of_bind in H1 as (k1 & H1 & _).
    apply list_elem_of_bind in H2 as (k2 & H2 & _).
    apply list_elem_of_singleton in H1, H2. congruence.
  - intros r _. apply NoDup_bind; [| |apply NoDup_seqZ].
    + intros k1 k2 d _ _ H1 H2.
      apply list_elem_of_singleton in H1, H2. congruence.
    + intros k _. apply NoDup_singleton.
Qed.

(** One step of the splash loop hits the cell it visits and no other. *)
Lemma splash_step_cells (g : Game) (t : Z) (c : Coord) :
  shape g ->
  shape (splash_step (g, t) c).1
  /\ (forall d, get (splash_step (g, t) c).1 d
                = if decide (d = c) then after_hit (get g c) (-2) else get g d)
  /\ (splash_step (g, t) c).2 = match get g c with Some _ => t + 2 | None => t end.
Proof.
  intros Hs. unfold splash_step. destruct (get g c) as [u|] eqn:Hc; cbn [fst snd].
  - split; [by apply shape_mod_health|]. split; [|done].
    intros d. rewrite get_mod_health by done. by rewrite Hc.
  - split; [done|]. split; [|done].
    intros d. destruct (decide (d = c)) as [->|]; [by rewrite Hc | done].
Qed.

(** The splash loop over distinct cells: every visited cell takes 2, the
    others are kept, and the total grows by 2 for each unit met. *)
Lemma splash_fold_cells (cs : list Coord) (g : Game) (t : Z) :
  shape g -> NoDup cs ->
  (forall d, get (fold_left splash_step cs (g, t)).1 d
             = if decide (d ∈ cs) then after_hit (get g d) (-2) else get g d)
  /\ (fold_left splash_step cs (g, t)).2
     = t + 2 * Z.of_nat (length (List.filter (fun c => bool_decide (is_Some (get g c))) cs)).
Proof.
  revert g t. induction cs as [|c cs IH]; intros g t Hs Hnd.
  - simpl. split; [|lia]. intros d.
    destruct (decide (d ∈ [])) as [Hin|]; [by apply elem_of_nil in Hin | done].
  - apply NoDup_cons in Hnd as [Hnin Hnd].
    destruct (splash_step_cells g t c Hs) as (Hs1 & Hget1 & Htot1).
    cbn [fold_left].
    destruct (splash_step (g, t) c) as [g1 t1] eqn:Hstep. cbn [fst snd] in *.
    destruct (IH g1 t1 Hs1 Hnd) as [Hget Htot]. split.
    + intros d. rewrite Hget, !Hget1.
      destruct (decide (d = c)) as [->|Hne].
      * destruct (decide (c ∈ cs)); [done|].
        destruct (decide (c ∈ c :: cs)) as [|Hn]; [done|].
        exfalso. apply Hn. by left.
      * destruct (decide (d ∈ cs)) as [Hin|Hn1];
          destruct (decide (d ∈ c :: cs)) as [Hin'|Hn2]; try done.
        -- exfalso. apply Hn2. by right.
        -- apply elem_of_cons in Hin' as [?|?]; done.
    + rewrite Htot, Htot1.
      rewrite (filter_ext_in (fun c0 => bool_decide (is_Some (get g1 c0)))
                             (fun c0 => bool_decide (is_Some (get g c0)))).
      2:{ intros d Hd. apply list_elem_of_In in Hd. rewrite Hget1.
          destruct (decide (d = c)) as [->|]; done. }
      cbn [List.filter].
      destruct (get g c) as [u|]; simpl.
      * simpl length. lia.
      * lia.
Qed.

Lemma filter_none_nil (g : Game) (cs : list Coord) :
  (forall c, c ∈ cs -> get g c = None) ->
  List.filter (fun c => bool_decide (is_Some (get g c))) cs = [].
Proof.
  induction cs as [|c cs IH]; intros Hall; [done|]. simpl.
  rewrite (Hall c) by (by left).
  rewrite bool_decide_eq_false_2 by (intros [? ?]; done).
  apply IH. intros d Hd. apply Hall. by right.
Qed.

(** A blow of 9 removes any unit of at most 9 health; a blow of 2 leaves
    a unit of a well-formed board with 2 less, or removes it. *)
Lemma after_hit_9 (u : Unit) : health u <= 9 -> after_hit (Some u) (-9) = None.
Proof.
  intros Hh. unfold after_hit, Unit_is_alive, Unit_mod_health. simpl.
  destruct (Z.ltb_spec (health u + -9) 0).
  - done.
  - destruct (Z.ltb_spec 9 (health u + -9)); [lia|].
    destruct (Z.ltb_spec 0 (health u + -9)); [lia | done].
Qed.

Lemma after_hit_2 (v : Unit) :
  0 < health v <= 9 ->
  after_hit (Some v) (-2)
  = if health v <=? 2 then None
    else Some (mkUnit (player v) (type v) (health v - 2)).
Proof.
  intros Hh. unfold after_hit, Unit_is_alive, Unit_mod_health. simpl.
  destruct (Z.leb_spec (health v) 2);
    destruct (Z.ltb_spec (health v + -2) 0); simpl; try done; try lia.
  - destruct (Z.ltb_spec 9 (health v + -2)); [lia|].
    destruct (Z.ltb_spec 0 (health v + -2)); [lia | done].
  - destruct (Z.ltb_spec 9 (health v + -2)); [lia|].
    destruct (Z.ltb_spec 0 (health v + -2)); [done | lia].
Qed.

(** C4.  A self-targeting move on a unit [u] of the mover at [c]
    succeeds; [u] is driven to health 0 and its cell is emptied; every
    unit on one of the 8 surrounding cells loses 2, and is removed when
    this leaves it no health; cells without a unit stay empty and every
    cell outside the box is kept; the reported total damage is 0 when no
    surrounding cell holds a unit. *)
Theorem suicide_effects (g : Game) (c : Coord) (u : Unit) :
  wf_game g = true ->
  get g c = Some u -> player u = next_player g ->
  exists g' total,
    perform_move g (mkCoordPair c c) = Ok (g', (true, self_destruct_at c total))
    /\ health (Unit_mod_health u (-9)) = 0
    /\ get g' c = None
    /\ (forall d v, d <> c -> in_box c d -> get g d = Some v ->
          get g' d = if health v <=? 2 then None
                     else Some (mkUnit (player v) (type v) (health v - 2)))
    /\ (forall d, get g d = None -> get g' d = None)
    /\ (forall d, ~ in_box c d -> get g' d = get g d)
    /\ ((forall d, d <> c -> in_box c d -> get g d = None) -> total = 0).
Proof.
  intros Hwf Hu Hp.
  pose proof (wf_shape g Hwf) as Hs.
  pose proof (wf_health g c u Hwf Hu) as Hh.
  unfold perform_move.
  rewrite (is_valid_move_self g c u) by eauto using get_Some_valid. simpl.
  unfold determine_action. cbn [src dst].
  destruct (decide (c = c)); [|done]. simpl.
  unfold perform_suicide. cbn [src].
  set (g1 := mod_health g c (-9)).
  assert (Hs1 : shape g1) by (by apply shape_mod_health).
  assert (Hg1 : forall d, get g1 d = if decide (d = c) then None else get g d).
  { intros d. unfold g1. rewrite get_mod_health by done.
    destruct (decide (d = c)); [|done]. rewrite Hu. apply after_hit_9. lia. }
  destruct (splash_fold_cells (iter_range c 1) g1 0 Hs1 (NoDup_iter_range c 1))
    as [Hget Htot].
  destruct (fold_left splash_step (iter_range c 1) (g1, 0)) as [g2 total].
  cbn [fst snd] in *.
  assert (Hbox : forall d, d ∈ iter_range c 1 <-> in_box c d).
  { intros d. rewrite elem_of_iter_range. unfold in_box. lia. }
  exists g2, total. split; [done|]. split.
  { unfold Unit_mod_health. simpl.
    destruct (Z.ltb_spec (health u + -9) 0); [done|].
    destruct (Z.ltb_spec 9 (health u + -9)); lia. }
  split; [|split; [|split; [|split]]].
  - rewrite Hget, Hg1. destruct (decide (c = c)); [|done].
    by destruct (decide (c ∈ iter_range c 1)).
  - intros d v Hne Hin Hd. rewrite Hget, Hg1.
    destruct (decide (d = c)); [done|].
    destruct (decide (d ∈ iter_range c 1)) as [_|Hn]; [|by apply Hbox in Hin].
    rewrite Hd. apply after_hit_2. eapply wf_health; eauto.
  - intros d Hd. rewrite Hget, Hg1.
    destruct (decide (d = c)); [by destruct (decide (d ∈ iter_range c 1))|].
    rewrite Hd. by destruct (decide (d ∈ iter_range c 1)).
  - intros d Hout. rewrite Hget, Hg1.
    destruct (decide (d ∈ iter_range c 1)) as [Hin|_]; [by apply Hbox in Hin|].
    destruct (decide (d = c)) as [->|]; [|done].
    exfalso. apply Hout. unfold in_box. lia.
  - intros Hnone. rewrite Htot, filter_none_nil; [simpl; lia|].
    intros d Hd. rewrite Hg1. destruct (decide (d = c)); [done|].
    apply Hnone; [done | by apply Hbox].
Qed.

Lemma suicide_effects_witness :
  exists g' total,
    perform_move crowded_game (mkCoordPair (mkCoord 2 2) (mkCoord 2 2))
    = Ok (g', (true, self_destruct_at (mkCoord 2 2) total))
    /\ get g' (mkCoord 2 2) = None
    /\ get g' (mkCoord 1 2) = None
    /\ get g' (mkCoord 3 3) = Some (mkUnit Defender Tech 7)
    /\ get g' (mkCoord 0 0) = Some (mkUnit Defender AI 9).
Proof.
  destruct (suicide_effects crowded_game (mkCoord 2 2) (mkUnit Defender Program 5))
    as (g' & total & Hrun & _ & Hself & Hnear & _ & Hfar & _);
    [reflexivity | reflexivity | reflexivity |].
  exists g', total. split; [exact Hrun|]. split; [exact Hself|].
  split; [|split].
  - apply (Hnear (mkCoord 1 2) (mkUnit Attacker Program 2));
      [discriminate | unfold in_box; simpl; lia | reflexivity].
  - apply (Hnear (mkCoord 3 3) (mkUnit Defender Tech 9));
      [discriminate | unfold in_box; simpl; lia | reflexivity].
  - rewrite (Hfar (mkCoord 0 0)); [reflexivity|].
    unfold in_box. simpl. lia.
Defined.

(** * Search: the returned move *)

Section SearchMove.

Variable elapsed : nat -> Q.

Lemma max_loop_best_move child self beta moves max_eval best alpha n v b n' :
  max_loop elapsed child self beta moves max_eval best alpha n = Ok (v, b, n') ->
  b = best \/ exists m, b = Some m /\ m ∈ moves.
Proof.
  revert max_eval best alpha n.
  induction moves as [|move rest IH]; intros max_eval best alpha n Hrun.
  - injection Hrun as _ <- _. by left.
  - cbn [max_loop] in Hrun.
    destruct (time_exceeded elapsed self n) as [[] n1].
    { injection Hrun as _ <- _. by left. }
    destruct (child move alpha n1) as [[eval n2]|e]; [|discriminate].
    simpl in Hrun.
    assert (Hstep : forall b0,
               b0 = (if eval >? max_eval then Some move else best) \/
               (exists m, b0 = Some m /\ m ∈ rest) ->
               b0 = best \/ exists m, b0 = Some m /\ m ∈ move :: rest).
    { intros b0 [->|(m & -> & Hm)].
      - destruct (eval >? max_eval); [right; exists move; split; [done | by left] | by left].
      - right. exists m. split; [done | by right]. }
    destruct (alpha_beta (options self)).
    + destruct (beta <=? Z.max alpha eval).
      * injection Hrun as _ <- _. apply Hstep. by left.
      * apply Hstep. eapply IH, Hrun.
    + apply Hstep. eapply IH, Hrun.
Qed.

Lemma min_loop_best_move child self alpha moves min_eval best beta n v b n' :
  min_loop elapsed child self alpha moves min_eval best beta n = Ok (v, b, n') ->
  b = best \/ exists m, b = Some m /\ m ∈ moves.
Proof.
  revert min_eval best beta n.
  induction moves as [|move rest IH]; intros min_eval best beta n Hrun.
  - injection Hrun as _ <- _. by left.
  - cbn [min_loop] in Hrun.
    destruct (time_exceeded elapsed self n) as [[] n1].
    { injection Hrun as _ <- _. by left. }
    destruct (child move beta n1) as [[eval n2]|e]; [|discriminate].
    simpl in Hrun.
    assert (Hstep : forall b0,
               b0 = (if eval <? min_eval then Some move else best) \/
               (exists m, b0 = Some m /\ m ∈ rest) ->
               b0 = best \/ exists m, b0 = Some m /\ m ∈ move :: rest).
    { intros b0 [->|(m & -> & Hm)].
      - destruct (eval <? min_eval); [right; exists move; split; [done | by left] | by left].
      - right. exists m. split; [done | by right]. }
    destruct (alpha_beta (options self)).
    + destruct (Z.min beta eval <=? alpha).
      * injection Hrun as _ <- _. apply Hstep. by left.
      * apply Hstep. eapply IH, Hrun.
    + apply Hstep. eapply IH, Hrun.
Qed.

(** A move returned by [minimax] at any depth is one of the candidates of
    the state it was called on. *)
Lemma minimax_move_is_candidate depth self maximizing alpha beta n mv ac ps
      v m k n' :
  minimax elapsed depth self maximizing alpha beta n mv ac ps
  = Ok (v, Some m, k, n') ->
  exists ms, move_candidates self = Ok ms /\ m ∈ ms.
Proof.
  destruct depth as [|d]; cbn [minimax]; intros Hrun.
  { destruct (calculate_heuristic3 self mv ac ps); discriminate. }
  destruct (is_finished self).
  { destruct (calculate_heuristic3 self mv ac ps); discriminate. }
  destruct (move_candidates self) as [ms|e]; [|by destruct maximizing].
  exists ms. split; [done|]. simpl in Hrun.
  destruct maximizing.
  - match type of Hrun with
    | context [max_loop ?el ?ch ?s ?b ?l ?me ?bm ?a ?n0] =>
        destruct (max_loop el ch s b l me bm a n0) as [[[v0 b0] n0']|e] eqn:Hloop
    end; [|discriminate].
    simpl in Hrun. injection Hrun as _ -> _ _.
    apply max_loop_best_move in Hloop as [Hnone|(m' & [= <-] & Hin)]; done.
  - match type of Hrun with
    | context [min_loop ?el ?ch ?s ?a ?l ?me ?bm ?b ?n0] =>
        destruct (min_loop el ch s a l me bm b n0) as [[[v0 b0] n0']|e] eqn:Hloop
    end; [|discriminate].
    simpl in Hrun. injection Hrun as _ -> _ _.
    apply min_loop_best_move in Hloop as [Hnone|(m' & [= <-] & Hin)]; done.
Qed.

(** C7.  Whatever the clock reads and whatever the time budget and the
    pruning option are, a move returned by [suggest_move] satisfies
    [is_valid_move] in the state the search was started from. *)
Theorem suggest_move_is_valid (self : Game) (n : nat) (m : CoordPair) (n' : nat) :
  wf_game self = true ->
  suggest_move elapsed self n = Ok (Some m, n') ->
  is_valid_move self m = Ok true.
Proof.
  intros _ Hrun. unfold suggest_move, clone in Hrun.
  match type of Hrun with
  | context [minimax ?el ?d ?s ?mx ?a ?b ?n0 ?mv ?ac ?ps] =>
      destruct (minimax el d s mx a b n0 mv ac ps) as [[[[v b0] k] n0']|e] eqn:Hmm
  end; [|discriminate].
  simpl in Hrun. injection Hrun as -> _.
  apply minimax_move_is_candidate in Hmm as (ms & Hms & Hin).
  destruct (move_candidates_sound self) as (ms' & Hms' & Hvalid).
  rewrite Hms in Hms'. injection Hms' as <-. by apply Hvalid.
Qed.

End SearchMove.

Lemma suggest_move_is_valid_witness :
  suggest_move frozen_clock standoff_game 0
  = Ok (Some (mkCoordPair (mkCoord 0 0) (mkCoord 0 0)), 0%nat)
  /\ is_valid_move standoff_game (mkCoordPair (mkCoord 0 0) (mkCoord 0 0)) = Ok true.
Proof.
  split; [reflexivity|].
  apply (suggest_move_is_valid frozen_clock standoff_game 0 _ 0%nat);
    reflexivity.
Defined.

(** * Search: pruning *)

(** ** The pruning option does not influence the rules *)

Lemma set_set_alpha_beta (b : bool) (g : Game) (c : Coord) (o : option Unit) :
  set (set_alpha_beta b g) c o = set_alpha_beta b (set g c o).
Proof.
  unfold set.
  change (is_valid_coord (set_alpha_beta b g) c) with (is_valid_coord g c).
  by destruct (is_valid_coord g c).
Qed.

Lemma remove_dead_set_alpha_beta (b : bool) (g : Game) (c : Coord) :
  remove_dead (set_alpha_beta b g) c = set_alpha_beta b (remove_dead g c).
Proof.
  unfold remove_dead. change (get (set_alpha_beta b g) c) with (get g c).
  destruct (get g c) as [u|]; [|done].
  destruct (negb (Unit_is_alive u)); [|done].
  rewrite set_set_alpha_beta.
  destruct (decide (type u = AI)); [destruct (decide (player u = Attacker))|];
    reflexivity.
Qed.

Lemma mod_health_set_alpha_beta (b : bool) (g : Game) (c : Coord) (delta : Z) :
  mod_health (set_alpha_beta b g) c delta = set_alpha_beta b (mod_health g c delta).
Proof.
  unfold mod_health. change (get (set_alpha_beta b g) c) with (get g c).
  destruct (get g c) as [u|]; [|done].
  by rewrite set_set_alpha_beta, remove_dead_set_alpha_beta.
Qed.

Lemma splash_fold_set_alpha_beta (b : bool) (cs : list Coord) (g : Game) (t : Z) :
  fold_left splash_step cs (set_alpha_beta b g, t)
  = (set_alpha_beta b (fold_left splash_step cs (g, t)).1,
     (fold_left splash_step cs (g, t)).2).
Proof.
  revert g t. induction cs as [|c cs IH]; intros g t; [done|].
  cbn [fold_left]. unfold splash_step at 2 4 6.
  change (get (set_alpha_beta b g) c) with (get g c).
  destruct (get g c) as [u|]; [|apply IH].
  rewrite mod_health_set_alpha_beta. apply IH.
Qed.

Lemma is_valid_move_set_alpha_beta (b : bool) (g : Game) (coords : CoordPair) :
  is_valid_move (set_alpha_beta b g) coords = is_valid_move g coords.
Proof. reflexivity. Qed.

Lemma determine_action_set_alpha_beta (b : bool) (g : Game) (coords : CoordPair) :
  determine_action (set_alpha_beta b g) coords = determine_action g coords.
Proof. reflexivity. Qed.

Lemma perform_move_set_alpha_beta (b : bool) (g : Game) (coords : CoordPair) :
  perform_move (set_alpha_beta b g) coords
  = match perform_move g coords with
    | Ok x => Ok (set_alpha_beta b x.1, x.2)
    | Raise e => Raise e
    end.
Proof.
  unfold perform_move.
  rewrite is_valid_move_set_alpha_beta, determine_action_set_alpha_beta.
  change (get (set_alpha_beta b g)) with (get g).
  destruct (is_valid_move g coords) as [[]|]; simpl; [|done|done].
  destruct (determine_action g coords) as [[]|]; simpl; [| | | |done].
  - unfold perform_movement. by rewrite !set_set_alpha_beta.
  - destruct (get g (src coords)), (get g (dst coords)); simpl; try done.
    unfold perform_attack. by rewrite !mod_health_set_alpha_beta.
  - destruct (get g (src coords)), (get g (dst coords)); simpl; try done.
    unfold perform_repair. by rewrite !mod_health_set_alpha_beta.
  - unfold perform_suicide.
    rewrite mod_health_set_alpha_beta, splash_fold_set_alpha_beta.
    by destruct (fold_left splash_step _ _).
Qed.

Lemma adjacent_candidates_set_alpha_beta b g s ds :
  adjacent_candidates (set_alpha_beta b g) s ds = adjacent_candidates g s ds.
Proof.
  induction ds as [|d ds IH]; [done|]. cbn [adjacent_candidates].
  by rewrite IH, is_valid_move_set_alpha_beta.
Qed.

Lemma candidates_of_units_set_alpha_beta b g units :
  candidates_of_units (set_alpha_beta b g) units = candidates_of_units g units.
Proof.
  induction units as [|[s u] units IH]; [done|]. cbn [candidates_of_units].
  by rewrite IH, adjacent_candidates_set_alpha_beta.
Qed.

Lemma move_candidates_set_alpha_beta (b : bool) (g : Game) :
  move_candidates (set_alpha_beta b g) = move_candidates g.
Proof.
  unfold move_candidates. rewrite candidates_of_units_set_alpha_beta.
  reflexivity.
Qed.

Lemma enemy_ai_scan_set_alpha_beta b p su cs last :
  enemy_ai_scan (set_alpha_beta b p) su cs last = enemy_ai_scan p su cs last.
Proof.
  revert last. induction cs as [|c cs IH]; intros last; [done|].
  cbn [enemy_ai_scan]. change (get (set_alpha_beta b p) c) with (get p c).
  destruct (get p c) as [u|]; [|apply IH].
  destruct (decide (type u = AI)); [|apply IH].
  destruct su as [s|]; simpl; [|done].
  destruct (negb (bool_decide (player u = player s))); [done | apply IH].
Qed.

Lemma calculate_heuristic3_set_alpha_beta b g mv ac ps :
  calculate_heuristic3 (set_alpha_beta b g) mv ac (set_alpha_beta b <$> ps)
  = calculate_heuristic3 g mv ac ps.
Proof.
  unfold calculate_heuristic3. destruct ps as [p|]; [|done].
  destruct mv as [m|]; [|done]. simpl.
  change (get (set_alpha_beta b p)) with (get p).
  change (dim (options (set_alpha_beta b p))) with (dim (options p)).
  by rewrite enemy_ai_scan_set_alpha_beta.
Qed.

(** ** The moves keep the options *)

Lemma options_remove_dead (g : Game) (c : Coord) :
  options (remove_dead g c) = options g.
Proof.
  unfold remove_dead. destruct (get g c) as [u|]; [|done].
  destruct (negb (Unit_is_alive u)); [|done].
  destruct (decide (type u = AI)); [destruct (decide (player u = Attacker))|];
    apply options_set.
Qed.

Lemma options_mod_health (g : Game) (c : Coord) (delta : Z) :
  options (mod_health g c delta) = options g.
Proof.
  unfold mod_health. destruct (get g c); [|done].
  by rewrite options_remove_dead, options_set.
Qed.

Lemma options_splash_fold (cs : list Coord) (g : Game) (t : Z) :
  options (fold_left splash_step cs (g, t)).1 = options g.
Proof.
  revert g t. induction cs as [|c cs IH]; intros g t; [done|].
  cbn [fold_left]. unfold splash_step at 2.
  destruct (get g c); rewrite IH; [apply options_mod_health | done].
Qed.

Lemma options_perform_move (g : Game) (coords : CoordPair) x :
  perform_move g coords = Ok x -> options x.1 = options g.
Proof.
  unfold perform_move.
  destruct (is_valid_move g coords) as [[]|]; simpl; [| |done].
  - destruct (determine_action g coords) as [[]|]; simpl; [| | | |done].
    + intros [= <-]. unfold perform_movement. cbn [fst].
      by rewrite !options_set.
    + destruct (get g (src coords)), (get g (dst coords)); simpl; try done.
      intros [= <-]. unfold perform_attack. cbn [fst].
      by rewrite !options_mod_health.
    + destruct (get g (src coords)), (get g (dst coords)); simpl; try done.
      intros [= <-]. unfold perform_repair. cbn [fst].
      by rewrite !options_mod_health.
    + intros [= <-]. unfold perform_suicide.
      pose proof (options_splash_fold (iter_range (src coords) 1)
                    (mod_health g (src coords) (-9)) 0) as Hopt.
      destruct (fold_left splash_step _ _). cbn [fst] in *.
      by rewrite Hopt, options_mod_health.
  - by intros [= <-].
Qed.

(** ** Scores stay between the two sentinels *)

Lemma gtb_max (a b : Z) : (if a >? b then a else b) = Z.max a b.
Proof. rewrite Z.gtb_ltb. destruct (Z.ltb_spec b a); lia. Qed.

Lemma ltb_min (a b : Z) : (if a <? b then a else b) = Z.min a b.
Proof. destruct (Z.ltb_spec a b); lia. Qed.

Lemma attack_score_bounds (s d : Unit) : -300 <= attack_score s d <= 300.
Proof.
  unfold attack_score. destruct (player s), (type s), (type d); lia.
Qed.

Lemma repair_score_bounds (d : Unit) : -300 <= repair_score d <= 300.
Proof.
  unfold repair_score. destruct (type d), (health d <=? 6); lia.
Qed.

Lemma calculate_heuristic3_bounds self mv ac ps h :
  calculate_heuristic3 self mv ac ps = Ok h -> -300 <= h <= 300.
Proof.
  unfold calculate_heuristic3.
  destruct ps as [p|]; [|discriminate]. destruct mv as [m|]; [|discriminate].
  simpl. destruct ac as [[]|].
  - destruct (enemy_ai_scan _ _ _ _) as [[[u|]|]|]; simpl; try discriminate.
    destruct (get p (src m)) as [s|]; simpl; [|discriminate].
    intros [= <-]. destruct (type u), (decide (player s = Defender)); lia.
  - destruct (get p (src m)) as [s|]; simpl; [|discriminate].
    destruct (get p (dst m)) as [d|]; simpl; [|discriminate].
    intros [= <-]. apply attack_score_bounds.
  - destruct (get p (src m)) as [s|]; simpl; [|discriminate].
    destruct (decide (player s = Attacker)); [intros [= <-]; lia|].
    destruct (get p (dst m)) as [d|]; simpl; [|discriminate].
    intros [= <-]. apply repair_score_bounds.
  - intros [= <-]. destruct (decide (next_player self = Attacker)); lia.
  - intros [= <-]. destruct (decide (next_player self = Attacker)); lia.
Qed.

Section Pruning.

Variable elapsed : nat -> Q.

Implicit Types (child : CoordPair -> Z -> nat -> result (Z * nat)).

(** *** The loops only improve on their starting value *)

Lemma max_loop_ge child self beta moves max_eval best alpha n v b n' :
  max_loop elapsed child self beta moves max_eval best alpha n = Ok (v, b, n') ->
  max_eval <= v.
Proof.
  revert max_eval best alpha n.
  induction moves as [|move rest IH]; intros max_eval best alpha n Hrun.
  - injection Hrun as <- _ _. lia.
  - cbn [max_loop] in Hrun.
    destruct (time_exceeded elapsed self n) as [[] n1].
    { injection Hrun as <- _ _. lia. }
    destruct (child move alpha n1) as [[eval n2]|e]; [|discriminate].
    simpl in Hrun. rewrite gtb_max in Hrun.
    destruct (alpha_beta (options self)).
    + destruct (beta <=? Z.max alpha eval).
      * injection Hrun as <- _ _. lia.
      * apply IH in Hrun. lia.
    + apply IH in Hrun. lia.
Qed.

Lemma min_loop_le child self alpha moves min_eval best beta n v b n' :
  min_loop elapsed child self alpha moves min_eval best beta n = Ok (v, b, n') ->
  v <= min_eval.
Proof.
  revert min_eval best beta n.
  induction moves as [|move rest IH]; intros min_eval best beta n Hrun.
  - injection Hrun as <- _ _. lia.
  - cbn [min_loop] in Hrun.
    destruct (time_exceeded elapsed self n) as [[] n1].
    { injection Hrun as <- _ _. lia. }
    destruct (child move beta n1) as [[eval n2]|e]; [|discriminate].
    simpl in Hrun. rewrite ltb_min in Hrun.
    destruct (alpha_beta (options self)).
    + destruct (Z.min beta eval <=? alpha).
      * injection Hrun as <- _ _. lia.
      * apply IH in Hrun. lia.
    + apply IH in Hrun. lia.
Qed.

Lemma max_loop_bounds child self beta moves max_eval best alpha n v b n' :
  (forall move a k e k', child move a k = Ok (e, k') ->
     MIN_HEURISTIC_SCORE <= e <= MAX_HEURISTIC_SCORE) ->
  MIN_HEURISTIC_SCORE <= max_eval <= MAX_HEURISTIC_SCORE ->
  max_loop elapsed child self beta moves max_eval best alpha n = Ok (v, b, n') ->
  MIN_HEURISTIC_SCORE <= v <= MAX_HEURISTIC_SCORE.
Proof.
  intros Hchild. revert max_eval best alpha n.
  induction moves as [|move rest IH]; intros max_eval best alpha n Hme Hrun.
  - by injection Hrun as <- _ _.
  - cbn [max_loop] in Hrun.
    destruct (time_exceeded elapsed self n) as [[] n1].
    { by injection Hrun as <- _ _. }
    destruct (child move alpha n1) as [[eval n2]|e] eqn:Hch; [|discriminate].
    apply Hchild in Hch.
    simpl in Hrun. rewrite gtb_max in Hrun.
    destruct (alpha_beta (options self)).
    + destruct (beta <=? Z.max alpha eval).
      * injection Hrun as <- _ _. lia.
      * eapply IH, Hrun. lia.
    + eapply IH, Hrun. lia.
Qed.

Lemma min_loop_bounds child self alpha moves min_eval best beta n v b n' :
  (forall move a k e k', child move a k = Ok (e, k') ->
     MIN_HEURISTIC_SCORE <= e <= MAX_HEURISTIC_SCORE) ->
  MIN_HEURISTIC_SCORE <= min_eval <= MAX_HEURISTIC_SCORE ->
  min_loop elapsed child self alpha moves min_eval best beta n = Ok (v, b, n') ->
  MIN_HEURISTIC_SCORE <= v <= MAX_HEURISTIC_SCORE.
Proof.
  intros Hchild. revert min_eval best beta n.
  induction moves as [|move rest IH]; intros min_eval best beta n Hme Hrun.
  - by injection Hrun as <- _ _.
  - cbn [min_loop] in Hrun.
    destruct (time_exceeded elapsed self n) as [[] n1].
    { by injection Hrun as <- _ _. }
    destruct (child move beta n1) as [[eval n2]|e] eqn:Hch; [|discriminate].
    apply Hchild in Hch.
    simpl in Hrun. rewrite ltb_min in Hrun.
    destruct (alpha_beta (options self)).
    + destruct (Z.min beta eval <=? alpha).
      * injection Hrun as <- _ _. lia.
      * eapply IH, Hrun. lia.
    + eapply IH, Hrun. lia.
Qed.

(** What [expand] returns is what the recursive call returned. *)
Lemma expand_inv mm self move alpha beta n e n' :
  expand mm self move alpha beta n = Ok (e, n') ->
  exists action2 x m k,
    determine_action self move = Ok action2
    /\ perform_move self move = Ok x
    /\ mm (next_turn x.1) alpha beta n (Some move) (Some action2) (Some self)
       = Ok (e, m, k, n').
Proof.
  unfold expand, clone. intros Hrun.
  destruct (determine_action self move) as [action2|]; [|discriminate].
  destruct (perform_move self move) as [[g' r]|]; [|discriminate].
  simpl in Hrun.
  destruct (mm (next_turn g') alpha beta n (Some move) (Some action2) (Some self))
    as [[[[e0 m] k] n0]|] eqn:Hmm; [|discriminate].
  simpl in Hrun. injection Hrun as -> ->.
  exists action2, (g', r), m, k. eauto.
Qed.

Lemma minimax_bounds depth self maximizing alpha beta n mv ac ps v m k n' :
  minimax elapsed depth self maximizing alpha beta n mv ac ps = Ok (v, m, k, n') ->
  MIN_HEURISTIC_SCORE <= v <= MAX_HEURISTIC_SCORE.
Proof.
  assert (Hleaf : forall self mv ac ps n v m k n',
             (h ← calculate_heuristic3 self mv ac ps;
              Ok (h, None, 0, n) : result (Z * option CoordPair * Z * nat))
             = Ok (v, m, k, n') ->
             MIN_HEURISTIC_SCORE <= v <= MAX_HEURISTIC_SCORE).
  { clear. intros self mv ac ps n v m k n' Hrun.
    destruct (calculate_heuristic3 self mv ac ps) as [h|] eqn:Hh; [|discriminate].
    apply calculate_heuristic3_bounds in Hh. injection Hrun as <- _ _ _.
    unfold MIN_HEURISTIC_SCORE, MAX_HEURISTIC_SCORE. lia. }
  revert self maximizing alpha beta n mv ac ps v m k n'.
  induction depth as [|d IH]; intros self maximizing alpha beta n mv ac ps v m k n';
    cbn [minimax]; [by apply Hleaf|].
  destruct (is_finished self); [by apply Hleaf|].
  destruct (move_candidates self) as [ms|]; [|by destruct maximizing].
  simpl. destruct maximizing; intros Hrun.
  - match type of Hrun with
    | context [max_loop ?el ?ch ?s ?b ?l ?me ?bm ?a ?n0] =>
        destruct (max_loop el ch s b l me bm a n0) as [[[v0 b0] n0']|e] eqn:Hloop
    end; [|discriminate].
    simpl in Hrun. injection Hrun as <- _ _ _.
    eapply max_loop_bounds, Hloop.
    + intros move a k0 e k' Hex.
      apply expand_inv in Hex as (? & ? & ? & ? & _ & _ & Hmm). by eapply IH.
    + unfold MIN_HEURISTIC_SCORE, MAX_HEURISTIC_SCORE. lia.
  - match type of Hrun with
    | context [min_loop ?el ?ch ?s ?a ?l ?me ?bm ?b ?n0] =>
        destruct (min_loop el ch s a l me bm b n0) as [[[v0 b0] n0']|e] eqn:Hloop
    end; [|discriminate].
    simpl in Hrun. injection Hrun as <- _ _ _.
    eapply min_loop_bounds, Hloop.
    + intros move a k0 e k' Hex.
      apply expand_inv in Hex as (? & ? & ? & ? & _ & _ & Hmm). by eapply IH.
    + unfold MIN_HEURISTIC_SCORE, MAX_HEURISTIC_SCORE. lia.
Qed.

(** *** Without a time limit the clock is never read *)

Lemma time_exceeded_no_limit self n :
  max_time (options self) = None -> time_exceeded elapsed self n = (false, n).
Proof. unfold time_exceeded. by intros ->. Qed.

Lemma max_loop_no_clock child self beta moves max_eval best alpha n v b n' :
  max_time (options self) = None ->
  (forall move a k e k', child move a k = Ok (e, k') -> k' = k) ->
  max_loop elapsed child self beta moves max_eval best alpha n = Ok (v, b, n') ->
  n' = n.
Proof.
  intros Hnone Hchild. revert max_eval best alpha.
  induction moves as [|move rest IH]; intros max_eval best alpha Hrun.
  - by injection Hrun as _ _ <-.
  - cbn [max_loop] in Hrun. rewrite time_exceeded_no_limit in Hrun by done.
    destruct (child move alpha n) as [[eval n2]|e] eqn:Hch; [|discriminate].
    apply Hchild in Hch as ->. simpl in Hrun.
    destruct (alpha_beta (options self)).
    + destruct (beta <=? Z.max alpha eval).
      * by injection Hrun as _ _ <-.
      * eapply IH, Hrun.
    + eapply IH, Hrun.
Qed.

Lemma min_loop_no_clock child self alpha moves min_eval best beta n v b n' :
  max_time (options self) = None ->
  (forall move a k e k', child move a k = Ok (e, k') -> k' = k) ->
  min_loop elapsed child self alpha moves min_eval best beta n = Ok (v, b, n') ->
  n' = n.
Proof.
  intros Hnone Hchild. revert min_eval best beta.
  induction moves as [|move rest IH]; intros min_eval best beta Hrun.
  - by injection Hrun as _ _ <-.
  - cbn [min_loop] in Hrun. rewrite time_exceeded_no_limit in Hrun by done.
    destruct (child move beta n) as [[eval n2]|e] eqn:Hch; [|discriminate].
    apply Hchild in Hch as ->. simpl in Hrun.
    destruct (alpha_beta (options self)).
    + destruct (Z.min beta eval <=? alpha).
      * by injection Hrun as _ _ <-.
      * eapply IH, Hrun.
    + eapply IH, Hrun.
Qed.

Lemma minimax_no_clock depth self maximizing alpha beta n mv ac ps v m k n' :
  max_time (options self) = None ->
  minimax elapsed depth self maximizing alpha beta n mv ac ps = Ok (v, m, k, n') ->
  n' = n.
Proof.
  assert (Hleaf : forall self mv ac ps n v m k n',
             (h ← calculate_heuristic3 self mv ac ps;
              Ok (h, None, 0, n) : result (Z * option CoordPair * Z * nat))
             = Ok (v, m, k, n') -> n' = n).
  { clear. intros self mv ac ps n v m k n' Hrun.
    destruct (calculate_heuristic3 self mv ac ps); [|discriminate].
    by injection Hrun as _ _ _ <-. }
  revert self maximizing alpha beta n mv ac ps v m k n'.
  induction depth as [|d IH];
    intros self maximizing alpha beta n mv ac ps v m k n' Hnone;
    cbn [minimax]; [by apply Hleaf|].
  destruct (is_finished self); [by apply Hleaf|].
  destruct (move_candidates self) as [ms|]; [|by destruct maximizing].
  assert (Hchild : forall mx a b move k e k',
             expand (fun gc a0 b0 k0 => minimax elapsed d gc mx a0 b0 k0)
                    self move a b k = Ok (e, k') -> k' = k).
  { intros mx a b move k0 e k' Hex.
    apply expand_inv in Hex as (? & x & ? & ? & _ & Hpm & Hmm).
    eapply IH, Hmm. cbn [next_turn options].
    by rewrite (options_perform_move _ _ _ Hpm). }
  simpl. destruct maximizing; intros Hrun.
  - match type of Hrun with
    | context [max_loop ?el ?ch ?s ?b ?l ?me ?bm ?a ?n0] =>
        destruct (max_loop el ch s b l me bm a n0) as [[[v0 b0] n0']|e] eqn:Hloop
    end; [|discriminate].
    simpl in Hrun. injection Hrun as _ _ _ <-.
    eapply max_loop_no_clock, Hloop; [done|].
    intros move a k0 e k'. apply Hchild.
  - match type of Hrun with
    | context [min_loop ?el ?ch ?s ?a ?l ?me ?bm ?b ?n0] =>
        destruct (min_loop el ch s a l me bm b n0) as [[[v0 b0] n0']|e] eqn:Hloop
    end; [|discriminate].
    simpl in Hrun. injection Hrun as _ _ _ <-.
    eapply min_loop_no_clock, Hloop; [done|].
    intros move a k0 e k'. apply Hchild.
Qed.

(** *** The pruned loops against the exhaustive ones

    [childU] and [selfU] belong to the search without pruning, [childP]
    and [selfP] to the search with pruning and window [(alpha0, beta)] at
    the entry of the loop.  The running values are related by: the
    exhaustive maximum is below [beta]; it is at most [alpha0] only if
    the pruned one is; above [alpha0] both agree; and the running lower
    bound is the larger of [alpha0] and the pruned maximum. *)
Lemma max_loop_pruned childU childP selfU selfP betaU beta alpha0 moves :
  alpha_beta (options selfU) = false -> alpha_beta (options selfP) = true ->
  max_time (options selfU) = None -> max_time (options selfP) = None ->
  alpha0 < beta ->
  (forall move aU a n e n2, alpha0 <= a < beta ->
     childU move aU n = Ok (e, n2) ->
     n2 = n /\ exists r, childP move a n = Ok (r, n) /\ window_rel a beta e r) ->
  forall meU meP bestU bestP aU a n vU bU n1,
    meU < beta -> (meU <= alpha0 -> meP <= alpha0) -> (alpha0 < meU -> meP = meU) ->
    a = Z.max alpha0 meP ->
    max_loop elapsed childU selfU betaU moves meU bestU aU n = Ok (vU, bU, n1) ->
    exists vP bP,
      max_loop elapsed childP selfP beta moves meP bestP a n = Ok (vP, bP, n)
      /\ window_rel alpha0 beta vU vP.
Proof.
  intros HabU HabP HtU HtP Hwin Hchild.
  induction moves as [|move rest IH];
    intros meU meP bestU bestP aU a n vU bU n1 Hlt Hlow Hhigh Ha Hrun.
  - injection Hrun as <- _ _. exists meP, bestP. split; [done|].
    unfold window_rel. lia.
  - cbn [max_loop] in Hrun |- *.
    rewrite time_exceeded_no_limit in Hrun by done.
    rewrite time_exceeded_no_limit by done.
    destruct (childU move aU n) as [[e n2]|] eqn:HchU; [|discriminate].
    destruct (Hchild move aU a n e n2) as (-> & r & HchP & Hrel); [lia | done |].
    rewrite HchP. simpl in Hrun |- *.
    rewrite HabU, gtb_max in Hrun. rewrite HabP, gtb_max.
    unfold window_rel in Hrel.
    destruct (Z.leb_spec beta (Z.max a r)).
    + apply max_loop_ge in Hrun.
      eexists _, _. split; [done|]. unfold window_rel. lia.
    + eapply (IH _ _ _ _ _ _ _ _ _ _) in Hrun; [exact Hrun | lia..].
Qed.

Lemma min_loop_pruned childU childP selfU selfP alphaU alpha beta0 moves :
  alpha_beta (options selfU) = false -> alpha_beta (options selfP) = true ->
  max_time (options selfU) = None -> max_time (options selfP) = None ->
  alpha < beta0 ->
  (forall move bU b n e n2, alpha < b <= beta0 ->
     childU move bU n = Ok (e, n2) ->
     n2 = n /\ exists r, childP move b n = Ok (r, n) /\ window_rel alpha b e r) ->
  forall meU meP bestU bestP bU b n vU mU n1,
    alpha < meU -> (beta0 <= meU -> beta0 <= meP) -> (meU < beta0 -> meP = meU) ->
    b = Z.min beta0 meP ->
    min_loop elapsed childU selfU alphaU moves meU bestU bU n = Ok (vU, mU, n1) ->
    exists vP mP,
      min_loop elapsed childP selfP alpha moves meP bestP b n = Ok (vP, mP, n)
      /\ window_rel alpha beta0 vU vP.
Proof.
  intros HabU HabP HtU HtP Hwin Hchild.
  induction moves as [|move rest IH];
    intros meU meP bestU bestP bU b n vU mU n1 Hgt Hhigh Hlow Hb Hrun.
  - injection Hrun as <- _ _. exists meP, bestP. split; [done|].
    unfold window_rel. lia.
  - cbn [min_loop] in Hrun |- *.
    rewrite time_exceeded_no_limit in Hrun by done.
    rewrite time_exceeded_no_limit by done.
    destruct (childU move bU n) as [[e n2]|] eqn:HchU; [|discriminate].
    destruct (Hchild move bU b n e n2) as (-> & r & HchP & Hrel); [lia | done |].
    rewrite HchP. simpl in Hrun |- *.
    rewrite HabU, ltb_min in Hrun. rewrite HabP, ltb_min.
    unfold window_rel in Hrel.
    destruct (Z.leb_spec (Z.min b r) alpha).
    + apply min_loop_le in Hrun.
      eexists _, _. split; [done|]. unfold window_rel. lia.
    + eapply (IH _ _ _ _ _ _ _ _ _ _) in Hrun; [exact Hrun | lia..].
Qed.

(** *** The pruned search against the exhaustive one *)

Lemma minimax_pruned depth :
  forall g maximizing alphaU betaU alpha beta n mv ac ps v m k n1,
    max_time (options g) = None ->
    MIN_HEURISTIC_SCORE <= alpha -> alpha < beta -> beta <= MAX_HEURISTIC_SCORE ->
    minimax elapsed depth (set_alpha_beta false g) maximizing alphaU betaU n
            mv ac (set_alpha_beta false <$> ps) = Ok (v, m, k, n1) ->
    exists r m' k',
      minimax elapsed depth (set_alpha_beta true g) maximizing alpha beta n
              mv ac (set_alpha_beta true <$> ps) = Ok (r, m', k', n)
      /\ window_rel alpha beta v r.
Proof.
  assert (Hleaf : forall g mv ac ps n v m k n1 (alpha beta : Z),
             (h ← calculate_heuristic3 (set_alpha_beta false g) mv ac
                    (set_alpha_beta false <$> ps);
              Ok (h, None, 0, n) : result (Z * option CoordPair * Z * nat))
             = Ok (v, m, k, n1) ->
             exists r m' k',
               (h ← calculate_heuristic3 (set_alpha_beta true g) mv ac
                      (set_alpha_beta true <$> ps);
                Ok (h, None, 0, n) : result (Z * option CoordPair * Z * nat))
               = Ok (r, m', k', n)
               /\ window_rel alpha beta v r).
  { clear. intros g mv ac ps n v m k n1 alpha beta.
    rewrite !calculate_heuristic3_set_alpha_beta.
    destruct (calculate_heuristic3 g mv ac ps) as [h|]; [|discriminate].
    intros [= <- _ _ _]. exists h, None, 0. split; [done|].
    unfold window_rel. lia. }
  induction depth as [|d IH];
    intros g maximizing alphaU betaU alpha beta n mv ac ps v m k n1
           Hnone Hmin Hwin Hmax;
    cbn [minimax]; [by apply Hleaf|].
  change (is_finished (set_alpha_beta false g)) with (is_finished g).
  change (is_finished (set_alpha_beta true g)) with (is_finished g).
  destruct (is_finished g); [by apply Hleaf|].
  rewrite !move_candidates_set_alpha_beta.
  destruct (move_candidates g) as [ms|]; [|by destruct maximizing].
  (* one child of the exhaustive search against the same child, pruned *)
  assert (Hchild : forall mx move aU bU a b k e k',
             MIN_HEURISTIC_SCORE <= a -> a < b -> b <= MAX_HEURISTIC_SCORE ->
             expand (fun gc a0 b0 k0 => minimax elapsed d gc mx a0 b0 k0)
                    (set_alpha_beta false g) move aU bU k = Ok (e, k') ->
             k' = k /\
             exists r,
               expand (fun gc a0 b0 k0 => minimax elapsed d gc mx a0 b0 k0)
                      (set_alpha_beta true g) move a b k = Ok (r, k)
               /\ window_rel a b e r).
  { intros mx move aU bU a b k0 e k' Ha Hab Hb Hex.
    unfold expand, clone in Hex |- *.
    rewrite determine_action_set_alpha_beta, perform_move_set_alpha_beta in Hex.
    rewrite determine_action_set_alpha_beta, perform_move_set_alpha_beta.
    destruct (determine_action g move) as [action2|]; [|discriminate].
    destruct (perform_move g move) as [[g' res]|] eqn:Hpm; [|discriminate].
    apply options_perform_move in Hpm. simpl in Hex, Hpm |- *.
    change (next_turn (set_alpha_beta false g'))
      with (set_alpha_beta false (next_turn g')) in Hex.
    change (next_turn (set_alpha_beta true g'))
      with (set_alpha_beta true (next_turn g')).
    change (Some (set_alpha_beta false g))
      with (set_alpha_beta false <$> Some g) in Hex.
    change (Some (set_alpha_beta true g))
      with (set_alpha_beta true <$> Some g).
    destruct (minimax elapsed d (set_alpha_beta false (next_turn g')) mx aU bU k0
                (Some move) (Some action2) (set_alpha_beta false <$> Some g))
      as [[[[e0 m0] j0] n0]|] eqn:HU; [|discriminate].
    simpl in Hex. injection Hex as -> ->.
    assert (Hnone' : max_time (options (next_turn g')) = None)
      by (cbn [next_turn options]; congruence).
    pose proof (minimax_no_clock _ (set_alpha_beta false (next_turn g'))
                  _ _ _ _ _ _ _ _ _ _ _ Hnone' HU) as ->.
    destruct (IH _ _ _ _ a b _ _ _ _ _ _ _ _ Hnone' Ha Hab Hb HU)
      as (r & m' & j' & HP & Hrel).
    split; [done|]. exists r. by rewrite HP. }
  simpl. destruct maximizing; intros Hrun.
  - match type of Hrun with
    | context [max_loop ?el ?ch ?s ?b ?l ?me ?bm ?a ?n0] =>
        destruct (max_loop el ch s b l me bm a n0) as [[[v0 b0] n0']|e] eqn:Hloop
    end; [|discriminate].
    simpl in Hrun. injection Hrun as <- _ _ _.
    eapply (max_loop_pruned _ _ _ (set_alpha_beta true g) _ beta alpha)
      with (meP := MIN_HEURISTIC_SCORE) (bestP := None) (a := alpha)
      in Hloop as (vP & bP & HP & Hrel); try done.
    + rewrite HP. simpl. eauto.
    + intros move aU a k0 e k' Ha. apply Hchild; lia.
    + unfold MIN_HEURISTIC_SCORE in *. lia.
    + lia.
  - match type of Hrun with
    | context [min_loop ?el ?ch ?s ?a ?l ?me ?bm ?b ?n0] =>
        destruct (min_loop el ch s a l me bm b n0) as [[[v0 b0] n0']|e] eqn:Hloop
    end; [|discriminate].
    simpl in Hrun. injection Hrun as <- _ _ _.
    eapply (min_loop_pruned _ _ _ (set_alpha_beta true g) _ alpha beta)
      with (meP := MAX_HEURISTIC_SCORE) (bestP := None) (b := beta)
      in Hloop as (vP & bP & HP & Hrel); try done.
    + rewrite HP. simpl. eauto.
    + intros move bU b k0 e k' Hb. apply Hchild; lia.
    + unfold MAX_HEURISTIC_SCORE in *. lia.
    + lia.
Qed.

(** When the search without pruning returns a score, the search with
    pruning, started from the same state with the full window, returns
    the same score.  Pruning may only differ by returning a score where
    the exhaustive search raises. *)
Lemma pruning_preserves_score depth g maximizing n v m k n1 :
  max_time (options g) = None ->
  minimax elapsed depth (set_alpha_beta false g) maximizing
          MIN_HEURISTIC_SCORE MAX_HEURISTIC_SCORE n None None None
  = Ok (v, m, k, n1) ->
  exists m' k',
    minimax elapsed depth (set_alpha_beta true g) maximizing
            MIN_HEURISTIC_SCORE MAX_HEURISTIC_SCORE n None None None
    = Ok (v, m', k', n1).
Proof.
  intros Hnone HU.
  pose proof (minimax_bounds _ _ _ _ _ _ _ _ _ _ _ _ _ HU) as HvU.
  pose proof (minimax_no_clock _ (set_alpha_beta false g)
                _ _ _ _ _ _ _ _ _ _ _ Hnone HU) as ->.
  destruct (minimax_pruned depth g maximizing
              MIN_HEURISTIC_SCORE MAX_HEURISTIC_SCORE
              MIN_HEURISTIC_SCORE MAX_HEURISTIC_SCORE n None None None
              v m k n Hnone)
    as (r & m' & k' & HP & Hrel); [lia | done | lia | exact HU |].
  pose proof (minimax_bounds _ _ _ _ _ _ _ _ _ _ _ _ _ HP) as HvP.
  exists m', k'. simpl in HP. rewrite HP. unfold window_rel in Hrel.
  do 4 f_equal. lia.
Qed.

End Pruning.

(** The same leaf is met from the initial deployment: the first search of
    a default game raises, with or without pruning. *)
Lemma search_raises_on_initial_deployment :
  suggest_move frozen_clock (post_init main_options) 0 = Raise NameError
  /\ suggest_move frozen_clock (set_alpha_beta true (post_init main_options)) 0
     = Raise NameError.
Proof. split; reflexivity. Qed.

(** C6, on the code.  In [siege_game] with depth 2, the full window and
    no time limit, the search with pruning returns the score -93 (and the
    move A1 -> A0), while the search without pruning raises [NameError]:
    it reaches the leaf of the MOVE B0 -> C0 of the Attacker Virus, whose
    evaluation calls [math.sqrt].  With pruning that leaf is cut off. *)
Theorem pruning_changes_outcome :
  siege_game true = set_alpha_beta true (siege_game false)
  /\ max_time (options (siege_game false)) = None
  /\ wf_game (siege_game false) = true
  /\ minimax frozen_clock 2 (siege_game true) false
             MIN_HEURISTIC_SCORE MAX_HEURISTIC_SCORE 0 None None None
     = Ok (-93, Some (mkCoordPair (mkCoord 0 1) (mkCoord 0 0)), 0, 0%nat)
  /\ minimax frozen_clock 2 (siege_game false) false
             MIN_HEURISTIC_SCORE MAX_HEURISTIC_SCORE 0 None None None
     = Raise NameError
  /\ suggest_move frozen_clock (siege_game true) 0
     = Ok (Some (mkCoordPair (mkCoord 0 1) (mkCoord 0 0)), 0%nat)
  /\ suggest_move frozen_clock (siege_game false) 0 = Raise NameError.
Proof. repeat split; reflexivity. Qed.

(** * Further properties: units *)

(** [Unit.mod_health] keeps the owner and the type, always leaves a
    health between 0 and 9, adds the delta exactly when the sum lies in
    that range, and stops at 0 or 9 otherwise. *)
Lemma Unit_mod_health_clamps (u : Unit) (delta : Z) :
  player (Unit_mod_health u delta) = player u
  /\ type (Unit_mod_health u delta) = type u
  /\ 0 <= health (Unit_mod_health u delta) <= 9
  /\ (0 <= health u + delta <= 9 ->
      health (Unit_mod_health u delta) = health u + delta)
  /\ (health u + delta < 0 -> health (Unit_mod_health u delta) = 0)
  /\ (9 < health u + delta -> health (Unit_mod_health u delta) = 9).
Proof.
  unfold Unit_mod_health. simpl.
  destruct (Z.ltb_spec (health u + delta) 0);
    [|destruct (Z.ltb_spec 9 (health u + delta))]; repeat split; lia.
Qed.

Lemma damage_table_range (a b : UnitType) : 1 <= table_at damage_table a b <= 9.
Proof. destruct a, b; vm_compute; split; discriminate. Qed.

Lemma repair_table_range (a b : UnitType) : 0 <= table_at repair_table a b <= 3.
Proof. destruct a, b; vm_compute; split; discriminate. Qed.

(** X1.  For a target with health between 0 and 9, [damage_amount] is at
    most the health of the target and [repair_amount] at most what the
    target lacks to 9; applying either amount with [mod_health] moves the
    health by exactly that amount, and gives the same unit as applying
    the raw table entry, as [perform_attack] and [perform_repair] do. *)
Theorem amounts_agree_with_clamping (u target : Unit) :
  0 <= health target <= 9 ->
  0 <= Unit_damage_amount u target <= health target
  /\ health (Unit_mod_health target (- Unit_damage_amount u target))
     = health target - Unit_damage_amount u target
  /\ Unit_mod_health target (- table_at damage_table (type u) (type target))
     = Unit_mod_health target (- Unit_damage_amount u target)
  /\ 0 <= Unit_repair_amount u target <= 9 - health target
  /\ health (Unit_mod_health target (Unit_repair_amount u target))
     = health target + Unit_repair_amount u target
  /\ Unit_mod_health target (table_at repair_table (type u) (type target))
     = Unit_mod_health target (Unit_repair_amount u target).
Proof.
  intros Hh.
  pose proof (damage_table_range (type u) (type target)) as Hd.
  pose proof (repair_table_range (type u) (type target)) as Hr.
  unfold Unit_damage_amount, Unit_repair_amount, Unit_mod_health. simpl.
  set (d := table_at damage_table (type u) (type target)) in *.
  set (r := table_at repair_table (type u) (type target)) in *.
  destruct (Z.ltb_spec (health target - d) 0);
    destruct (Z.ltb_spec 9 (health target + r));
    repeat match goal with
           | |- context [?a <? ?b] => destruct (Z.ltb_spec a b); try lia
           end;
    repeat split; try lia; f_equal; lia.
Qed.

Lemma amounts_agree_with_clamping_witness :
  Unit_damage_amount (mkUnit Attacker Virus 9) (mkUnit Defender AI 4) = 4
  /\ Unit_repair_amount (mkUnit Defender Tech 9) (mkUnit Defender AI 8) = 1.
Proof.
  destruct (amounts_agree_with_clamping (mkUnit Attacker Virus 9)
              (mkUnit Defender AI 4)) as (_ & _ & _ & _); [simpl; lia|].
  destruct (amounts_agree_with_clamping (mkUnit Defender Tech 9)
              (mkUnit Defender AI 8)) as (_ & _ & _ & _); [simpl; lia|].
  split; reflexivity.
Defined.

(** * Further properties: coordinates *)

Lemma length_bind_const {A B} (f : A -> list B) (l : list A) (m : nat) :
  (forall x, x ∈ l -> length (f x) = m) ->
  length (l ≫= f) = (length l * m)%nat.
Proof.
  induction l as [|x l IH]; intros Hlen; [done|].
  change ((x :: l) ≫= f) with (f x ++ (l ≫= f)).
  rewrite length_app, Hlen by (by left).
  rewrite IH by (intros y Hy; apply Hlen; by right). simpl. lia.
Qed.

Lemma NoDup_iter_rectangle (p : CoordPair) : NoDup (iter_rectangle p).
Proof.
  unfold iter_rectangle, range. apply NoDup_bind; [| |apply NoDup_seqZ].
  - intros r1 r2 d _ _ H1 H2.
    apply list_elem_of_bind in H1 as (k1 & H1 & _).
    apply list_elem_of_bind in H2 as (k2 & H2 & _).
    apply list_elem_of_singleton in H1, H2. congruence.
  - intros r _. apply NoDup_bind; [| |apply NoDup_seqZ].
    + intros k1 k2 d _ _ H1 H2.
      apply list_elem_of_singleton in H1, H2. congruence.
    + intros k _. apply NoDup_singleton.
Qed.

(** X2.  [CoordPair.from_dim(dim).iter_rectangle()] visits exactly the
    coordinates accepted by [is_valid_coord], each once: [dim * dim]
    cells (none for a [dim] of 0 or less). *)
Theorem iter_rectangle_from_dim (g : Game) :
  let cells := iter_rectangle (from_dim (dim (options g))) in
  (forall c, c ∈ cells <-> is_valid_coord g c = true)
  /\ NoDup cells
  /\ length cells = (Z.to_nat (dim (options g)) * Z.to_nat (dim (options g)))%nat.
Proof.
  cbn zeta. split; [|split].
  - intros c. rewrite elem_of_iter_rectangle, is_valid_coord_spec. simpl. lia.
  - apply NoDup_iter_rectangle.
  - unfold iter_rectangle, range. simpl.
    rewrite (length_bind_const _ _ (Z.to_nat (dim (options g)))).
    + rewrite length_seqZ. f_equal. lia.
    + intros r _. rewrite (length_bind_const _ _ 1%nat) by done.
      rewrite length_seqZ. lia.
Qed.

(** X3.  [Coord.iter_range(dist)] visits exactly the coordinates within
    [dist] of the centre in both row and column, each once:
    [(2 dist + 1)^2] cells for [dist >= 0], among them the centre, and
    none for a negative [dist]. *)
Theorem iter_range_box (c : Coord) (dist : Z) :
  (forall d, d ∈ iter_range c dist <->
             Z.abs (row d - row c) <= dist /\ Z.abs (col d - col c) <= dist)
  /\ NoDup (iter_range c dist)
  /\ length (iter_range c dist)
     = (Z.to_nat (2 * dist + 1) * Z.to_nat (2 * dist + 1))%nat
  /\ (0 <= dist -> c ∈ iter_range c dist)
  /\ (dist < 0 -> iter_range c dist = []).
Proof.
  split; [|split; [|split; [|split]]].
  - intros d. rewrite elem_of_iter_range. lia.
  - apply NoDup_iter_range.
  - unfold iter_range, range.
    rewrite (length_bind_const _ _ (Z.to_nat (2 * dist + 1))).
    + rewrite length_seqZ. f_equal. lia.
    + intros r _. rewrite (length_bind_const _ _ 1%nat) by done.
      rewrite length_seqZ. lia.
  - intros Hd. apply elem_of_iter_range. lia.
  - intros Hd. unfold iter_range, range. rewrite !seqZ_nil by lia. reflexivity.
Qed.

(** X4.  [Coord.iter_adjacent] yields the four coordinates at distance 1
    along one axis, in the order up, left, down, right.  Adjacency is
    symmetric, never holds between a coordinate and itself, and every
    neighbour lies in the box of radius 1. *)
Theorem iter_adjacent_neighbours (c d : Coord) :
  (d ∈ iter_adjacent c <->
   Z.abs (row d - row c) + Z.abs (col d - col c) = 1)
  /\ ((d ∈ iter_adjacent c) <-> (c ∈ iter_adjacent d))
  /\ (c ∉ iter_adjacent c)
  /\ NoDup (iter_adjacent c)
  /\ (d ∈ iter_adjacent c -> d ∈ iter_range c 1)
  /\ length (iter_adjacent c) = 4%nat.
Proof.
  assert (Hiff : forall a b : Coord,
             b ∈ iter_adjacent a <->
             Z.abs (row b - row a) + Z.abs (col b - col a) = 1).
  { intros a b. unfold iter_adjacent. rewrite !elem_of_cons, elem_of_nil.
    destruct a as [ra ka], b as [rb kb]. simpl. split.
    - intros [H|[H|[H|[H|[]]]]]; injection H as -> ->; lia.
    - intros H.
      assert (Hcases : (rb = ra - 1 /\ kb = ka) \/ (rb = ra /\ kb = ka - 1)
                       \/ (rb = ra + 1 /\ kb = ka) \/ (rb = ra /\ kb = ka + 1))
        by lia.
      destruct Hcases as [[-> ->]|[[-> ->]|[[-> ->]|[-> ->]]]]; auto 6. }
  split; [apply Hiff|]. split; [rewrite !Hiff; lia|].
  split; [rewrite Hiff; lia|]. split; [|split; [|done]].
  - unfold iter_adjacent. rewrite !NoDup_cons, !elem_of_cons, !elem_of_nil.
    destruct c as [r k]. simpl.
    repeat split; try apply NoDup_nil_2;
      intros H; repeat destruct H as [H|H]; try done;
      injection H; lia.
  - rewrite Hiff, elem_of_iter_range. lia.
Qed.

(** * Further properties: coordinate text *)

Lemma In_seqZ (m n k : Z) : m <= k < m + n -> In k (seqZ m n).
Proof. intros H. apply list_elem_of_In, elem_of_seqZ. lia. Qed.

(** The rendering of a coordinate of the 26 x 16 range: two characters
    kept by [clean] that name its row and its column. *)
Lemma Coord_to_string_in_range (c : Coord) :
  0 <= row c < 26 -> 0 <= col c < 16 ->
  exists a b,
    Coord_to_string c = Some (String a (String b EmptyString))
    /\ plain a = true /\ plain b = true
    /\ row_of_letter a = row c /\ col_of_digit b = col c.
Proof.
  intros Hr Hk.
  assert (Hall :
    forallb (fun r => forallb (fun k =>
      match Coord_to_string (mkCoord r k) with
      | Some (String a (String b EmptyString)) =>
          plain a && plain b && (row_of_letter a =? r) && (col_of_digit b =? k)
      | _ => false
      end) (seqZ 0 16)) (seqZ 0 26) = true) by (vm_compute; reflexivity).
  rewrite forallb_forall in Hall.
  specialize (Hall (row c) (In_seqZ 0 26 (row c) ltac:(lia))).
  rewrite forallb_forall in Hall.
  specialize (Hall (col c) (In_seqZ 0 16 (col c) ltac:(lia))).
  destruct c as [r k]. simpl in *.
  destruct (Coord_to_string (mkCoord r k)) as [[|a [|b [|? ?]]]|]; try discriminate.
  apply andb_true_iff in Hall as [Hall Hcol].
  apply andb_true_iff in Hall as [Hall Hrow].
  apply andb_true_iff in Hall as [Ha Hb].
  apply Z.eqb_eq in Hcol, Hrow.
  exists a, b. by repeat split.
Qed.

Lemma plain_facts (a : ascii) :
  plain a = true ->
  is_space a = false
  /\ forall sep, In sep separators -> ascii_eqb a sep = false.
Proof.
  unfold plain. rewrite andb_true_iff, forallb_forall.
  intros [Hs Hsep]. split; [by apply negb_true_iff|].
  intros sep Hin. by apply negb_true_iff, Hsep.
Qed.

Lemma remove_char_plain (sep : ascii) (l : list ascii) :
  In sep separators -> Forall (fun a => plain a = true) l ->
  remove_char sep l = l.
Proof.
  intros Hsep. induction 1 as [|a l Ha _ IH]; [done|].
  unfold remove_char in *. simpl.
  destruct (plain_facts a Ha) as [_ Hne]. rewrite (Hne sep Hsep). simpl.
  by rewrite IH.
Qed.

Lemma clean_plain (l : list ascii) :
  Forall (fun a => plain a = true) l ->
  fold_left (fun acc sep => remove_char sep acc) separators l = l.
Proof.
  intros Hl.
  assert (Hgen : forall seps, (forall sep, In sep seps -> In sep separators) ->
             fold_left (fun acc sep => remove_char sep acc) seps l = l).
  { induction seps as [|sep seps IH]; intros Hsub; [done|].
    simpl. rewrite remove_char_plain; [|apply Hsub; by left|done].
    apply IH. intros sep' Hin. apply Hsub. by right. }
  by apply Hgen.
Qed.

(** [clean] on two plain characters, and on two pairs of plain
    characters around a blank. *)
Lemma clean_two (a b : ascii) :
  plain a = true -> plain b = true ->
  clean (String a (String b EmptyString)) = [a; b].
Proof.
  intros Ha Hb. unfold clean, strip.
  destruct (plain_facts a Ha) as [Hsa _], (plain_facts b Hb) as [Hsb _].
  simpl list_ascii_of_string. cbn [lstrip]. rewrite Hsa.
  cbn [rev app lstrip]. rewrite Hsb. cbn [rev app].
  apply clean_plain. by repeat constructor.
Qed.

Lemma clean_two_blank_two (a b c d : ascii) :
  plain a = true -> plain b = true -> plain c = true -> plain d = true ->
  clean (String a (String b (String " " (String c (String d EmptyString)))))
  = [a; b; c; d].
Proof.
  intros Ha Hb Hc Hd. unfold clean, strip.
  destruct (plain_facts a Ha) as [Hsa Hna], (plain_facts b Hb) as [_ Hnb],
    (plain_facts c Hc) as [_ Hnc], (plain_facts d Hd) as [Hsd Hnd].
  simpl list_ascii_of_string. cbn [lstrip]. rewrite Hsa.
  cbn [rev app lstrip]. rewrite Hsd. cbn [rev app].
  change separators with (" "%char :: tl separators). cbn [fold_left].
  assert (Hblank : forall x, plain x = true -> ascii_eqb x " " = false).
  { intros x Hx. destruct (plain_facts x Hx) as [_ Hn]. apply Hn. by left. }
  unfold remove_char at 2. cbn [List.filter].
  change (ascii_eqb " " " ") with true. cbn [negb].
  rewrite !Hblank by done. cbn [negb].
  assert (Hgen : forall seps l, (forall sep, In sep seps -> In sep separators) ->
             Forall (fun a => plain a = true) l ->
             fold_left (fun acc sep => remove_char sep acc) seps l = l).
  { induction seps as [|sep seps IH]; intros l Hsub Hl; [done|].
    simpl. rewrite remove_char_plain; [|apply Hsub; by left|done].
    apply IH; [|done]. intros sep' Hin. apply Hsub. by right. }
  apply Hgen; [|by repeat constructor].
  intros sep Hin. by right.
Qed.

(** X5.  Text round trip: a coordinate with row in 0..25 and column in
    0..15 is rendered by [to_string] into a text that [from_string]
    parses back to the same coordinate. *)
Theorem Coord_text_round_trip (c : Coord) :
  0 <= row c < 26 -> 0 <= col c < 16 ->
  exists s, Coord_to_string c = Some s /\ Coord_from_string s = Some c.
Proof.
  intros Hr Hk.
  destruct (Coord_to_string_in_range c Hr Hk) as (a & b & Hs & Ha & Hb & Hra & Hcb).
  eexists. split; [exact Hs|].
  unfold Coord_from_string. rewrite clean_two by done.
  rewrite find_row_letters, find_col_digits, Hra, Hcb. by destruct c.
Qed.

Lemma Coord_text_round_trip_witness :
  Coord_to_string (mkCoord 3 10) = Some "Da"%string
  /\ exists s, Coord_to_string (mkCoord 3 10) = Some s
               /\ Coord_from_string s = Some (mkCoord 3 10).
Proof.
  split; [reflexivity|].
  apply (Coord_text_round_trip (mkCoord 3 10)); simpl; lia.
Defined.

(** X6.  Text round trip for moves: a pair of coordinates of the 26 x 16
    range is rendered by [CoordPair.to_string] into a text that
    [CoordPair.from_string] parses back to the same pair. *)
Theorem CoordPair_text_round_trip (p : CoordPair) :
  0 <= row (src p) < 26 -> 0 <= col (src p) < 16 ->
  0 <= row (dst p) < 26 -> 0 <= col (dst p) < 16 ->
  exists s, CoordPair_to_string p = Some s /\ CoordPair_from_string s = Some p.
Proof.
  intros Hr1 Hk1 Hr2 Hk2.
  destruct (Coord_to_string_in_range (src p) Hr1 Hk1)
    as (a & b & Hs & Ha & Hb & Hra & Hcb).
  destruct (Coord_to_string_in_range (dst p) Hr2 Hk2)
    as (c & d & Hd & Hc & Hd' & Hrc & Hcd).
  unfold CoordPair_to_string. rewrite Hs, Hd. simpl.
  eexists. split; [reflexivity|].
  unfold CoordPair_from_string. rewrite clean_two_blank_two by done.
  rewrite !find_row_letters, !find_col_digits, Hra, Hcb, Hrc, Hcd.
  by destruct p as [[] []].
Qed.

Lemma CoordPair_text_round_trip_witness :
  CoordPair_to_string (mkCoordPair (mkCoord 3 2) (mkCoord 3 3)) = Some "D2 D3"%string
  /\ exists s, CoordPair_to_string (mkCoordPair (mkCoord 3 2) (mkCoord 3 3)) = Some s
               /\ CoordPair_from_string s
                  = Some (mkCoordPair (mkCoord 3 2) (mkCoord 3 3)).
Proof.
  split; [reflexivity|].
  apply (CoordPair_text_round_trip (mkCoordPair (mkCoord 3 2) (mkCoord 3 3)));
    simpl; lia.
Defined.

Lemma row_string_cases (c : Coord) :
  if row c <? -26 then row_string c = None
  else exists a, row_string c = Some (String a EmptyString)
                 /\ plain a = true /\ row_of_letter a = wrapped 26 (row c).
Proof.
  destruct (Z.ltb_spec (row c) (-26)) as [Hlow|Hlow].
  - unfold row_string, py_index.
    destruct (Z.ltb_spec (row c) 26); [|lia].
    destruct (Z.leb_spec 0 (row c)); [lia|].
    destruct (Z.leb_spec (- Z.of_nat (length (list_ascii_of_string row_letters)))
                (row c)) as [Hle|]; [|done].
    simpl in Hle. lia.
  - destruct (Z.ltb_spec (row c) 26) as [Hhigh|Hhigh].
    + assert (Hall :
        forallb (fun r =>
          match row_string (mkCoord r 0) with
          | Some (String a EmptyString) =>
              plain a && (row_of_letter a =? wrapped 26 r)
          | _ => false
          end) (seqZ (-26) 52) = true) by (vm_compute; reflexivity).
      rewrite forallb_forall in Hall.
      specialize (Hall (row c) (In_seqZ (-26) 52 (row c) ltac:(lia))).
      change (row_string (mkCoord (row c) 0)) with (row_string c) in Hall.
      destruct (row_string c) as [[|a [|? ?]]|]; try discriminate.
      apply andb_true_iff in Hall as [Ha Hrow]. apply Z.eqb_eq in Hrow. eauto.
    + exists "?"%char. unfold row_string, wrapped.
      destruct (Z.ltb_spec (row c) 26); [lia|].
      destruct (Z.ltb_spec (row c) 0); [lia|]. done.
Qed.

Lemma col_string_cases (c : Coord) :
  if col c <? -16 then col_string c = None
  else exists a, col_string c = Some (String a EmptyString)
                 /\ plain a = true /\ col_of_digit a = wrapped 16 (col c).
Proof.
  destruct (Z.ltb_spec (col c) (-16)) as [Hlow|Hlow].
  - unfold col_string, py_index.
    destruct (Z.ltb_spec (col c) 16); [|lia].
    destruct (Z.leb_spec 0 (col c)); [lia|].
    destruct (Z.leb_spec (- Z.of_nat (length (list_ascii_of_string col_digits)))
                (col c)) as [Hle|]; [|done].
    simpl in Hle. lia.
  - destruct (Z.ltb_spec (col c) 16) as [Hhigh|Hhigh].
    + assert (Hall :
        forallb (fun k =>
          match col_string (mkCoord 0 k) with
          | Some (String a EmptyString) =>
              plain a && (col_of_digit a =? wrapped 16 k)
          | _ => false
          end) (seqZ (-16) 32) = true) by (vm_compute; reflexivity).
      rewrite forallb_forall in Hall.
      specialize (Hall (col c) (In_seqZ (-16) 32 (col c) ltac:(lia))).
      change (col_string (mkCoord 0 (col c))) with (col_string c) in Hall.
      destruct (col_string c) as [[|a [|? ?]]|]; try discriminate.
      apply andb_true_iff in Hall as [Ha Hcol]. apply Z.eqb_eq in Hcol. eauto.
    + exists "?"%char. unfold col_string, wrapped.
      destruct (Z.ltb_spec (col c) 16); [lia|].
      destruct (Z.ltb_spec (col c) 0); [lia|]. done.
Qed.

(** X7.  Rendering outside the 26 x 16 range.  [to_string] raises
    [IndexError] for a row below -26 or a column below -16.  Otherwise it
    gives a text that parses, but a row from 26 on or a column from 16 on
    comes back as -1 (it is rendered as a question mark) and a negative
    index comes back counted from the end of the alphabet; the text
    parses back to the coordinate itself only inside the range. *)
Theorem Coord_text_outside_range (c : Coord) :
  (row c < -26 \/ col c < -16 -> Coord_to_string c = None)
  /\ (-26 <= row c -> -16 <= col c ->
      exists s, Coord_to_string c = Some s
        /\ Coord_from_string s
           = Some (mkCoord (wrapped 26 (row c)) (wrapped 16 (col c))))
  /\ (forall s, Coord_to_string c = Some s -> Coord_from_string s = Some c ->
                0 <= row c < 26 /\ 0 <= col c < 16).
Proof.
  pose proof (row_string_cases c) as Hrow.
  pose proof (col_string_cases c) as Hcol.
  unfold Coord_to_string.
  destruct (Z.ltb_spec (row c) (-26)) as [Hr|Hr].
  { rewrite Hrow. split; [done|]. split; [lia | discriminate]. }
  destruct Hrow as (a & -> & Ha & Hra). simpl.
  destruct (Z.ltb_spec (col c) (-16)) as [Hk|Hk].
  { rewrite Hcol. split; [done|]. split; [lia | discriminate]. }
  destruct Hcol as (b & -> & Hb & Hcb). simpl.
  assert (Hparse : Coord_from_string (String a (String b EmptyString))
                   = Some (mkCoord (wrapped 26 (row c)) (wrapped 16 (col c)))).
  { unfold Coord_from_string. rewrite clean_two by done.
    by rewrite find_row_letters, find_col_digits, Hra, Hcb. }
  split; [lia|]. split; [eauto|].
  intros s [= <-]. rewrite Hparse. intros [= Heq].
  apply (f_equal row) in Heq as Hr'. apply (f_equal col) in Heq as Hk'.
  simpl in Hr', Hk'. unfold wrapped in Hr', Hk'.
  destruct (Z.ltb_spec (row c) 0), (Z.ltb_spec (row c) 26),
    (Z.ltb_spec (col c) 0), (Z.ltb_spec (col c) 16); lia.
Qed.

Lemma Coord_text_outside_range_witness :
  exists s, Coord_to_string (mkCoord 30 (-1)) = Some s
            /\ Coord_from_string s = Some (mkCoord (-1) 15).
Proof.
  destruct (Coord_text_outside_range (mkCoord 30 (-1))) as (_ & Hin & _).
  apply Hin; simpl; lia.
Defined.

(** *** Letter case *)

Lemma is_space_case (a : ascii) :
  is_space (upper a) = is_space a /\ is_space (lower a) = is_space a.
Proof. each_ascii a; split; reflexivity. Qed.

Lemma separator_case (a : ascii) :
  forallb (fun sep => Bool.eqb (ascii_eqb (upper a) sep) (ascii_eqb a sep)
                      && Bool.eqb (ascii_eqb (lower a) sep) (ascii_eqb a sep))
          separators = true.
Proof. each_ascii a. Qed.

Section LetterCase.

Variable f : ascii -> ascii.
Hypothesis f_space : forall a, is_space (f a) = is_space a.
Hypothesis f_separator :
  forall a sep, In sep separators -> ascii_eqb (f a) sep = ascii_eqb a sep.

Lemma lstrip_map (l : list ascii) : lstrip (map f l) = map f (lstrip l).
Proof.
  induction l as [|a l IH]; [done|]. simpl. rewrite f_space.
  by destruct (is_space a).
Qed.

Lemma strip_map (l : list ascii) : strip (map f l) = map f (strip l).
Proof.
  unfold strip. by rewrite lstrip_map, <- map_rev, lstrip_map, <- map_rev.
Qed.

Lemma remove_char_map (sep : ascii) (l : list ascii) :
  In sep separators -> remove_char sep (map f l) = map f (remove_char sep l).
Proof.
  intros Hsep. unfold remove_char.
  induction l as [|a l IH]; [done|]. simpl. rewrite f_separator by done.
  destruct (negb (ascii_eqb a sep)); simpl; by rewrite IH.
Qed.

Lemma clean_map (s : string) : clean (string_map f s) = map f (clean s).
Proof.
  unfold clean, string_map. rewrite list_ascii_of_string_of_list_ascii, strip_map.
  generalize (strip (list_ascii_of_string s)). intros l.
  assert (Hgen : forall seps l, (forall sep, In sep seps -> In sep separators) ->
             fold_left (fun acc sep => remove_char sep acc) seps (map f l)
             = map f (fold_left (fun acc sep => remove_char sep acc) seps l)).
  { clear l. induction seps as [|sep seps IH]; intros l Hsub; [done|].
    simpl. rewrite remove_char_map by (apply Hsub; by left).
    apply IH. intros sep' Hin. apply Hsub. by right. }
  by apply Hgen.
Qed.

End LetterCase.

Lemma clean_upper (s : string) : clean (string_map upper s) = map upper (clean s).
Proof.
  apply clean_map.
  - intros a. apply is_space_case.
  - intros a sep Hsep. pose proof (separator_case a) as H.
    rewrite forallb_forall in H. apply H, andb_true_iff in Hsep as [Hu _].
    by apply Bool.eqb_prop in Hu.
Qed.

Lemma clean_lower (s : string) : clean (string_map lower s) = map lower (clean s).
Proof.
  apply clean_map.
  - intros a. apply is_space_case.
  - intros a sep Hsep. pose proof (separator_case a) as H.
    rewrite forallb_forall in H. apply H, andb_true_iff in Hsep as [_ Hl].
    by apply Bool.eqb_prop in Hl.
Qed.

(** X8.  Parsing ignores the case of the whole text: putting a text of
    7-bit characters in upper case or in lower case changes neither the
    coordinate nor the pair of coordinates parsed from it. *)
Theorem from_string_ignores_case (s : string) :
  ascii7 s = true ->
  Coord_from_string (string_map upper s) = Coord_from_string s
  /\ Coord_from_string (string_map lower s) = Coord_from_string s
  /\ CoordPair_from_string (string_map upper s) = CoordPair_from_string s
  /\ CoordPair_from_string (string_map lower s) = CoordPair_from_string s.
Proof.
  assert (Hrow : forall a, find row_letters (upper (upper a)) = find row_letters (upper a)
                           /\ find row_letters (upper (lower a)) = find row_letters (upper a)).
  { intros a. rewrite !find_row_letters. apply row_of_letter_case. }
  assert (Hcol : forall a, find col_digits (lower (upper a)) = find col_digits (lower a)
                           /\ find col_digits (lower (lower a)) = find col_digits (lower a)).
  { intros a. rewrite !find_col_digits. apply col_of_digit_case. }
  intros _. unfold Coord_from_string, CoordPair_from_string.
  rewrite clean_upper, clean_lower.
  destruct (clean s) as [|c0 [|c1 [|c2 [|c3 [|c4 rest]]]]]; simpl; try done.
  - destruct (Hrow c0) as [-> ->], (Hcol c1) as [-> ->]. done.
  - destruct (Hrow c0) as [-> ->], (Hcol c1) as [-> ->],
      (Hrow c2) as [-> ->], (Hcol c3) as [-> ->]. done.
Qed.

Lemma from_string_ignores_case_witness :
  Coord_from_string (string_map upper "d2") = Some (mkCoord 3 2)
  /\ CoordPair_from_string (string_map lower "D2 DA")
     = Some (mkCoordPair (mkCoord 3 2) (mkCoord 3 10)).
Proof.
  destruct (from_string_ignores_case "d2") as (-> & _); [reflexivity|].
  destruct (from_string_ignores_case "D2 DA") as (_ & _ & _ & ->); [reflexivity|].
  split; reflexivity.
Defined.

(** * Further properties: the board *)

(** X9.  On a well-formed game, a cell of the board written by [set]
    is read back by [get], and no other cell changes; outside the board
    [set] does nothing and [get] reads no unit. *)
Theorem set_then_get (g : Game) (c : Coord) (o : option Unit) :
  wf_game g = true ->
  (is_valid_coord g c = true -> get (set g c o) c = o)
  /\ (forall d, d <> c -> get (set g c o) d = get g d)
  /\ (is_valid_coord g c = false -> set g c o = g /\ get g c = None).
Proof.
  intros Hwf. apply wf_shape in Hwf. split; [|split].
  - intros Hv. by apply get_set_eq.
  - intros d Hne. by apply get_set_ne.
  - intros Hv. split; [unfold set; by rewrite Hv | by apply get_invalid].
Qed.

Lemma set_then_get_witness :
  get (set (post_init main_options) (mkCoord 2 2)
           (Some (mkUnit Attacker Virus 4))) (mkCoord 2 2)
  = Some (mkUnit Attacker Virus 4).
Proof.
  destruct (set_then_get (post_init main_options) (mkCoord 2 2)
              (Some (mkUnit Attacker Virus 4))) as (Hsame & _); [reflexivity|].
  apply Hsame. reflexivity.
Defined.

Lemma py_index_in_range {A} (l : list A) (i : Z) :
  0 <= i < Z.of_nat (length l) -> py_index l i = l !! Z.to_nat i.
Proof. intros Hi. unfold py_index. destruct (Z.leb_spec 0 i); [done | lia]. Qed.

Lemma py_index_negative {A} (l : list A) (i : Z) :
  - Z.of_nat (length l) <= i < 0 ->
  py_index l i = py_index l (i + Z.of_nat (length l)).
Proof.
  intros Hi. unfold py_index.
  destruct (Z.leb_spec 0 i); [lia|].
  destruct (Z.leb_spec (- Z.of_nat (length l)) i); [|lia].
  destruct (Z.leb_spec 0 (i + Z.of_nat (length l))); [|lia].
  f_equal. lia.
Qed.

Lemma py_index_outside {A} (l : list A) (i : Z) :
  i < - Z.of_nat (length l) \/ Z.of_nat (length l) <= i -> py_index l i = None.
Proof.
  intros Hi. unfold py_index.
  destruct (Z.leb_spec 0 i).
  - apply lookup_ge_None. lia.
  - destruct (Z.leb_spec (- Z.of_nat (length l)) i); [lia | done].
Qed.

Lemma shape_row (g : Game) (i : Z) :
  shape g -> 0 <= i < dim (options g) ->
  exists r, board g !! Z.to_nat i = Some r
            /\ Z.of_nat (length r) = dim (options g).
Proof.
  intros [Hlen Hrows] Hi.
  destruct (lookup_lt_is_Some_2 (board g) (Z.to_nat i)) as [r Hr]; [lia|].
  exists r. split; [done|].
  rewrite Forall_forall in Hrows.
  rewrite (Hrows r) by (eapply list_elem_of_lookup_2; eauto). lia.
Qed.

(** X10.  [is_empty] on a well-formed game: on a coordinate of the board
    it tells whether [get] finds no unit there; a negative row or column
    down to [-dim] is not rejected but read from the far end of the
    board; anything further out raises [IndexError]. *)
Theorem is_empty_cases (g : Game) (c : Coord) :
  wf_game g = true ->
  let d := dim (options g) in
  (is_valid_coord g c = true ->
   is_empty g c = Some (bool_decide (get g c = None)))
  /\ (- d <= row c < d -> - d <= col c < d ->
      is_empty g c = is_empty g (mkCoord (row c mod d) (col c mod d)))
  /\ (row c < - d \/ d <= row c \/ col c < - d \/ d <= col c ->
      is_empty g c = None).
Proof.
  intros Hwf d. pose proof (wf_shape g Hwf) as Hs.
  assert (Hlen : Z.of_nat (length (board g)) = d).
  { destruct Hs as [Hlen _]. unfold wf_game in Hwf.
    rewrite !andb_true_iff in Hwf. destruct Hwf as [[Hd _] _].
    apply Z.leb_le in Hd. unfold d. lia. }
  assert (Hplain : forall c', is_valid_coord g c' = true ->
             is_empty g c' = Some (bool_decide (get g c' = None))).
  { intros c' Hv. unfold is_empty, get. rewrite Hv.
    apply is_valid_coord_spec in Hv. fold d in Hv.
    destruct (shape_row g (row c') Hs) as (r & Hr & Hrlen); [lia|].
    rewrite py_index_in_range, Hr by lia. simpl.
    rewrite py_index_in_range by lia.
    destruct (lookup_lt_is_Some_2 r (Z.to_nat (col c'))) as [cell Hcell]; [lia|].
    rewrite Hcell. done. }
  split; [apply Hplain|]. split.
  - intros Hr Hk.
    assert (Hdpos : 0 < d) by lia.
    assert (Hrow : py_index (board g) (row c) = py_index (board g) (row c mod d)).
    { destruct (Z.ltb_spec (row c) 0).
      - rewrite py_index_negative by lia. f_equal.
        rewrite Hlen. apply Z.mod_unique with (q := -1); lia.
      - by rewrite Z.mod_small by lia. }
    unfold is_empty. simpl. rewrite Hrow.
    destruct (shape_row g (row c mod d) Hs) as (r & Hrr & Hrlen).
    { apply Z.mod_pos_bound. lia. }
    rewrite py_index_in_range, Hrr by (rewrite Hlen; apply Z.mod_pos_bound; lia).
    simpl. fold d in Hrlen.
    destruct (Z.ltb_spec (col c) 0).
    + rewrite py_index_negative by lia. do 2 f_equal.
      rewrite Hrlen. apply Z.mod_unique with (q := -1); lia.
    + by rewrite Z.mod_small by lia.
  - intros Hout. unfold is_empty.
    destruct (decide (row c < - d \/ d <= row c)) as [Hr|Hr].
    + by rewrite py_index_outside by lia.
    + destruct (py_index (board g) (row c)) as [r|] eqn:Hrow; [|done]. simpl.
      assert (Hrlen : Z.of_nat (length r) = d).
      { assert (Hin : r ∈ board g).
        { unfold py_index in Hrow.
          destruct (0 <=? row c); [by eapply list_elem_of_lookup_2|].
          destruct (- Z.of_nat (length (board g)) <=? row c);
            [by eapply list_elem_of_lookup_2 | done]. }
        destruct Hs as [Hl Hrows]. rewrite Forall_forall in Hrows.
        rewrite (Hrows r Hin). unfold d. unfold wf_game in Hwf.
        rewrite !andb_true_iff in Hwf. destruct Hwf as [[Hd _] _].
        apply Z.leb_le in Hd. lia. }
      by rewrite py_index_outside by lia.
Qed.

Lemma is_empty_cases_witness :
  is_empty (post_init main_options) (mkCoord 2 2) = Some true
  /\ is_empty (post_init main_options) (mkCoord (-1) (-1)) = Some false
  /\ is_empty (post_init main_options) (mkCoord 5 0) = None.
Proof.
  destruct (is_empty_cases (post_init main_options) (mkCoord 2 2))
    as (H1 & _ & _); [reflexivity|].
  destruct (is_empty_cases (post_init main_options) (mkCoord (-1) (-1)))
    as (_ & H2 & _); [reflexivity|].
  destruct (is_empty_cases (post_init main_options) (mkCoord 5 0))
    as (_ & _ & H3); [reflexivity|].
  split; [|split].
  - rewrite H1; vm_compute; reflexivity.
  - rewrite H2; [vm_compute; reflexivity | ..];
      vm_compute; (split; [discriminate | reflexivity]).
  - apply H3. right. left. vm_compute. discriminate.
Defined.

(** * Further properties: moves and invariants *)

Lemma is_valid_move_true_inv (g : Game) (coords : CoordPair) :
  is_valid_move g coords = Ok true ->
  is_valid_coord g (src coords) = true
  /\ is_valid_coord g (dst coords) = true
  /\ (exists u, get g (src coords) = Some u /\ player u = next_player g)
  /\ (src coords = dst coords \/ dst coords ∈ iter_adjacent (src coords)).
Proof.
  unfold is_valid_move.
  destruct (is_valid_coord g (src coords)); [|discriminate].
  destruct (is_valid_coord g (dst coords)); [|discriminate]. cbn [negb orb].
  destruct (get g (src coords)) as [u|]; [|discriminate].
  destruct (bool_decide (player u = next_player g)) eqn:Hp; [|discriminate].
  apply bool_decide_eq_true_1 in Hp. cbn [negb].
  destruct (bool_decide (src coords = dst coords)) eqn:Heq; cbn [negb].
  - apply bool_decide_eq_true_1 in Heq. intros _. eauto 10.
  - intros Hloop. repeat split; eauto. right.
    destruct (decide (dst coords ∈ iter_adjacent (src coords))) as [|Hn]; [done|].
    rewrite neighbour_loop_notin in Hloop by done. discriminate.
Qed.

Lemma determine_action_MOVE_inv (g : Game) (coords : CoordPair) :
  determine_action g coords = Ok MOVE ->
  src coords <> dst coords /\ get g (dst coords) = None.
Proof.
  unfold determine_action.
  destruct (decide (src coords = dst coords)); [discriminate|].
  destruct (get g (dst coords)) as [d|]; [|done].
  destruct (get g (src coords)) as [s|]; simpl; [|discriminate].
  destruct (decide (player s = player d)); discriminate.
Qed.

(** A property kept by [mod_health], and by the relocation of a legal
    MOVE, is kept by [perform_move]. *)
Lemma perform_move_inv (P : Game -> Prop) (g : Game) (coords : CoordPair) x :
  P g ->
  (forall h c delta, P h -> P (mod_health h c delta)) ->
  (is_valid_move g coords = Ok true -> src coords <> dst coords ->
   get g (dst coords) = None -> P (perform_movement g coords).1) ->
  perform_move g coords = Ok x -> P x.1.
Proof.
  intros Hg Hmod Hmove. unfold perform_move.
  destruct (is_valid_move g coords) as [[]|] eqn:Hvalid; simpl; [| |done].
  - destruct (determine_action g coords) as [[]|] eqn:Hact; simpl; [| | | |done].
    + intros [= <-]. apply determine_action_MOVE_inv in Hact as [Hne Hd]. auto.
    + destruct (get g (src coords)), (get g (dst coords)); simpl; try done.
      intros [= <-]. unfold perform_attack. cbn [fst]. auto.
    + destruct (get g (src coords)), (get g (dst coords)); simpl; try done.
      intros [= <-]. unfold perform_repair. cbn [fst]. auto.
    + intros [= <-]. unfold perform_suicide.
      assert (Hfold : forall cs h t, P h -> P (fold_left splash_step cs (h, t)).1).
      { induction cs as [|c cs IH]; intros h t Hh; [done|].
        cbn [fold_left]. unfold splash_step at 2.
        destruct (get h c); apply IH; auto. }
      specialize (Hfold (iter_range (src coords) 1)
                    (mod_health g (src coords) (-9)) 0 (Hmod _ _ _ Hg)).
      by destruct (fold_left splash_step _ _).
  - by intros [= <-].
Qed.

Lemma same_frame_set (g : Game) (c : Coord) (o : option Unit) :
  same_frame g (set g c o).
Proof. unfold same_frame, set. by destruct (is_valid_coord g c). Qed.

Lemma same_frame_mod_health (g : Game) (c : Coord) (delta : Z) :
  same_frame g (mod_health g c delta).
Proof.
  unfold same_frame, mod_health, remove_dead.
  destruct (get g c) as [u|]; [|done].
  destruct (get (set g c _) c) as [u'|];
    [|unfold set; by destruct (is_valid_coord g c)].
  destruct (negb (Unit_is_alive u'));
    [|unfold set; by destruct (is_valid_coord g c)].
  destruct (decide (type u' = AI)); [destruct (decide (player u' = Attacker))|];
    simpl; unfold set; destruct (is_valid_coord g c); simpl;
    by destruct (is_valid_coord _ c).
Qed.

(** X11.  [perform_move] never raises, for any state and any pair of
    coordinates: it succeeds exactly on the moves accepted by
    [is_valid_move]; a rejected move is reported as invalid and leaves
    the state as it was; and no move changes the options, the player to
    move or the count of turns. *)
Theorem perform_move_total (g : Game) (coords : CoordPair) :
  exists g' success d,
    perform_move g coords = Ok (g', (success, d))
    /\ is_valid_move g coords = Ok success
    /\ (success = false -> g' = g /\ d = invalid_move)
    /\ same_frame g g'.
Proof.
  assert (Hrun : exists g' success d,
             perform_move g coords = Ok (g', (success, d))
             /\ is_valid_move g coords = Ok success
             /\ (success = false -> g' = g /\ d = invalid_move)).
  { unfold perform_move.
    destruct (is_valid_move_total g coords) as [[] Hvalid]; rewrite Hvalid; simpl.
    - apply is_valid_move_true_inv in Hvalid as (_ & _ & (u & Hu & _) & _).
      unfold determine_action. rewrite Hu.
      destruct (decide (src coords = dst coords)); simpl.
      { unfold perform_suicide. destruct (fold_left splash_step _ _).
        eexists _, _, _. split; [done|]. split; done. }
      destruct (get g (dst coords)) as [t|]; simpl.
      + destruct (decide (player u = player t)); simpl;
          eexists _, _, _; (split; [done|]); split; done.
      + eexists _, _, _. split; [done|]. split; done.
    - eexists _, _, _. split; [done|]. split; done. }
  destruct Hrun as (g' & success & d & Hrun & Hvalid & Hfail).
  exists g', success, d. repeat split; try done; try (by apply Hfail);
    apply (perform_move_inv (same_frame g) g coords _ ltac:(done)) in Hrun as Hf;
    try apply Hf.
  all: try (intros h c delta Hh; destruct Hh as (? & ? & ?),
              (same_frame_mod_health h c delta) as (? & ? & ?);
            unfold same_frame; repeat split; congruence).
  all: intros _ _ _; unfold perform_movement; cbn [fst];
    destruct (same_frame_set g (dst coords) (get g (src coords))) as (? & ? & ?),
      (same_frame_set (set g (dst coords) (get g (src coords))) (src coords) None)
      as (? & ? & ?);
    unfold same_frame; repeat split; congruence.
Qed.

(** [wf_game] read through [get]. *)
Lemma wf_game_iff (g : Game) :
  wf_game g = true <-> 0 <= dim (options g) /\ shape g /\ healthy g.
Proof.
  split.
  - intros Hwf. split; [|split].
    + unfold wf_game in Hwf. rewrite !andb_true_iff in Hwf.
      destruct Hwf as [[Hd _] _]. by apply Z.leb_le.
    + by apply wf_shape.
    + intros c u. by apply wf_health.
  - intros (Hd & [Hlen Hrows] & Hh). unfold wf_game.
    rewrite !andb_true_iff. split; [split|].
    + by apply Z.leb_le.
    + by apply Nat.eqb_eq.
    + apply forallb_forall. intros r Hr. apply list_elem_of_In in Hr.
      rewrite Forall_forall in Hrows. pose proof (Hrows r Hr) as Hrlen.
      apply andb_true_iff. split; [by apply Nat.eqb_eq|].
      apply forallb_forall. intros cell Hcell. apply list_elem_of_In in Hcell.
      destruct cell as [u|]; [|done].
      apply list_elem_of_lookup in Hr as [i Hi].
      apply list_elem_of_lookup in Hcell as [j Hj].
      pose proof (lookup_lt_Some _ _ _ Hi) as Hilt.
      pose proof (lookup_lt_Some _ _ _ Hj) as Hjlt.
      assert (Hget : get g (mkCoord (Z.of_nat i) (Z.of_nat j)) = Some u).
      { unfold get.
        rewrite (proj2 (is_valid_coord_spec g _)) by (simpl; lia).
        simpl. rewrite !Nat2Z.id, Hi, Hj. done. }
      apply Hh in Hget. simpl. apply andb_true_iff.
      split; [apply Z.ltb_lt | apply Z.leb_le]; lia.
Qed.

Lemma healthy_set (g : Game) (c : Coord) (o : option Unit) :
  shape g -> healthy g -> wf_cell o = true -> healthy (set g c o).
Proof.
  intros Hs Hh Ho d u.
  destruct (is_valid_coord g c) eqn:Hv.
  - rewrite get_set by done. destruct (decide (d = c)); [|apply Hh].
    intros ->. simpl in Ho. apply andb_true_iff in Ho as [H1 H2].
    apply Z.ltb_lt in H1. apply Z.leb_le in H2. lia.
  - unfold set. rewrite Hv. apply Hh.
Qed.

Lemma after_hit_healthy (o : option Unit) (delta : Z) (u : Unit) :
  after_hit o delta = Some u -> 0 < health u <= 9.
Proof.
  destruct o as [v|]; [|discriminate]. unfold after_hit.
  destruct (Unit_is_alive (Unit_mod_health v delta)) eqn:Ha; [|discriminate].
  intros [= <-]. apply Z.ltb_lt in Ha.
  unfold Unit_mod_health in *. simpl in *.
  destruct (health v + delta <? 0); [lia|].
  destruct (Z.ltb_spec 9 (health v + delta)); lia.
Qed.

Lemma healthy_mod_health (g : Game) (c : Coord) (delta : Z) :
  shape g -> healthy g -> healthy (mod_health g c delta).
Proof.
  intros Hs Hh d u. rewrite get_mod_health by done.
  destruct (decide (d = c)); [apply after_hit_healthy | apply Hh].
Qed.

Lemma wf_perform_move (g : Game) (coords : CoordPair) g' r :
  wf_game g = true ->
  perform_move g coords = Ok (g', r) ->
  wf_game g' = true /\ wf_game (next_turn g') = true.
Proof.
  intros Hwf Hrun. apply wf_game_iff in Hwf as (Hd & Hs & Hh).
  assert (Hinv : options g' = options g /\ shape g' /\ healthy g').
  { apply (perform_move_inv
             (fun h => options h = options g /\ shape h /\ healthy h)
             g coords (g', r)); [done| | |done].
    - intros h c delta (Ho & Hsh & Hhh).
      split; [by rewrite options_mod_health|].
      split; [by apply shape_mod_health | by apply healthy_mod_health].
    - intros _ _ _. unfold perform_movement. cbn [fst].
      assert (Hcell : wf_cell (get g (src coords)) = true).
      { destruct (get g (src coords)) as [u|] eqn:Hu; [|done].
        apply Hh in Hu. simpl. apply andb_true_iff.
        split; [apply Z.ltb_lt | apply Z.leb_le]; lia. }
      split; [by rewrite !options_set|]. split.
      + by apply shape_set, shape_set.
      + apply healthy_set; [by apply shape_set | by apply healthy_set | done]. }
  destruct Hinv as (Ho & Hs' & Hh').
  assert (Hwf' : wf_game g' = true) by (apply wf_game_iff; by rewrite Ho).
  split; [done|]. exact Hwf'.
Qed.

(** X12.  Every move keeps the state well-formed: after [perform_move],
    and after the [next_turn] that follows it, the board still has
    [dim] rows of [dim] cells and every unit on it has a health from 1
    to 9. *)
Theorem perform_move_keeps_wf (g : Game) (coords : CoordPair) g' r :
  wf_game g = true ->
  perform_move g coords = Ok (g', r) ->
  wf_game g' = true /\ wf_game (next_turn g') = true.
Proof. apply wf_perform_move. Qed.

Lemma perform_move_keeps_wf_witness :
  wf_game (next_turn (perform_movement (post_init main_options)
                        (mkCoordPair (mkCoord 2 4) (mkCoord 1 4))).1) = true.
Proof.
  apply (perform_move_keeps_wf (post_init main_options)
           (mkCoordPair (mkCoord 2 4) (mkCoord 1 4))
           (perform_movement (post_init main_options)
              (mkCoordPair (mkCoord 2 4) (mkCoord 1 4))).1
           (true, move_from (mkCoord 2 4) (mkCoord 1 4)));
    vm_compute; reflexivity.
Defined.

Lemma lookup_empty_board (d : Z) (i j : nat) :
  (i < Z.to_nat d)%nat -> (j < Z.to_nat d)%nat ->
  exists r, empty_board d !! i = Some r /\ r !! j = Some None.
Proof.
  intros Hi Hj. unfold empty_board. exists (replicate (Z.to_nat d) None).
  split; by apply lookup_replicate_2.
Qed.

Lemma wf_blank_game (o : Options) (p : Player) (turns : Z) :
  0 <= dim o -> wf_game (blank_game o p turns) = true.
Proof.
  intros Hd. apply wf_game_iff. split; [done|]. split.
  - unfold shape, blank_game, empty_board. simpl.
    split; [by rewrite length_replicate|].
    apply Forall_forall. intros r Hr.
    apply elem_of_replicate in Hr as [-> _]. by rewrite length_replicate.
  - intros c u. unfold get.
    destruct (is_valid_coord (blank_game o p turns) c) eqn:Hv; [|done].
    apply is_valid_coord_spec in Hv. simpl in Hv.
    destruct (lookup_empty_board (dim o) (Z.to_nat (row c)) (Z.to_nat (col c)))
      as (r & Hr & Hcell); [lia | lia |].
    cbn [board blank_game]. rewrite Hr, Hcell. done.
Qed.

Lemma wf_place (g : Game) (r k : Z) (p : Player) (t : UnitType) :
  wf_game g = true -> wf_game (place g r k p t 9) = true.
Proof.
  intros Hwf. apply wf_game_iff in Hwf as (Hd & Hs & Hh).
  apply wf_game_iff. unfold place. rewrite options_set.
  split; [done|]. split; [by apply shape_set | by apply healthy_set].
Qed.

Lemma wf_post_init (o : Options) :
  0 <= dim o -> wf_game (post_init o) = true.
Proof.
  intros Hd. unfold post_init. cbn zeta.
  repeat apply wf_place. by apply wf_blank_game.
Qed.



(** ** The AI flags *)

Lemma has_ai_flag_set (g : Game) (c : Coord) (o : option Unit) (p : Player) :
  has_ai_flag (set g c o) p = has_ai_flag g p.
Proof. unfold set. by destruct (is_valid_coord g c), p. Qed.

Lemma has_ai_flag_mod_health (g : Game) (c : Coord) (delta : Z) (p : Player) :
  shape g ->
  has_ai_flag (mod_health g c delta) p =
  match get g c with
  | Some u =>
      if Unit_is_alive (Unit_mod_health u delta) then has_ai_flag g p
      else if decide (type u = AI /\ player u = p) then false
           else has_ai_flag g p
  | None => has_ai_flag g p
  end.
Proof.
  intros Hs. unfold mod_health.
  destruct (get g c) as [u|] eqn:Hu; [|done].
  pose proof (get_Some_valid _ _ _ Hu) as Hv.
  unfold remove_dead. rewrite get_set_eq by done.
  destruct (Unit_is_alive (Unit_mod_health u delta)); simpl;
    [apply has_ai_flag_set|].
  pose proof (has_ai_flag_set (set g c (Some (Unit_mod_health u delta))) c None p)
    as Hf1.
  pose proof (has_ai_flag_set g c (Some (Unit_mod_health u delta)) p) as Hf2.
  destruct (decide (type u = AI)) as [Ht|Ht].
  - destruct (decide (player u = Attacker)) as [Hp|Hp].
    + destruct p; simpl in *.
      * by destruct (decide (type u = AI /\ player u = Attacker)) as [|[]].
      * destruct (decide (type u = AI /\ player u = Defender)) as [[_ ?]|_];
          congruence.
    + destruct p; simpl in *.
      * destruct (decide (type u = AI /\ player u = Attacker)) as [[_ ?]|_];
          congruence.
      * destruct (decide (type u = AI /\ player u = Defender)) as [|Hn];
          [done|]. destruct Hn. split; [done|]. by destruct (player u).
  - destruct (decide (type u = AI /\ player u = p)) as [[? _]|_]; [done|].
    congruence.
Qed.

Lemma ai_at_mod_health (g : Game) (c : Coord) (delta : Z) (p : Player) (d : Coord) :
  shape g ->
  ai_at (mod_health g c delta) p d <->
  (if decide (d = c)
   then exists u, get g c = Some u /\ Unit_is_alive (Unit_mod_health u delta) = true
                  /\ type u = AI /\ player u = p
   else ai_at g p d).
Proof.
  intros Hs. unfold ai_at. rewrite get_mod_health by done.
  destruct (decide (d = c)) as [->|]; [|done].
  destruct (get g c) as [u|]; simpl.
  - destruct (Unit_is_alive (Unit_mod_health u delta)) eqn:Ha.
    + split.
      * intros (u' & [= <-] & Ht & Hp). exists u. eauto.
      * intros (u' & [= <-] & _ & Ht & Hp). eexists. split; [done|]. eauto.
    + split; [intros (? & ? & _); done | intros (? & [= <-] & ? & _); congruence].
  - split; intros (? & ? & _); done.
Qed.

Lemma flags_ok_mod_health (g : Game) (c : Coord) (delta : Z) :
  shape g -> flags_ok g -> flags_ok (mod_health g c delta).
Proof.
  intros Hs Hok p. destruct (Hok p) as [Hset Hclear].
  rewrite has_ai_flag_mod_health by done.
  destruct (get g c) as [u|] eqn:Hu.
  2:{ unfold mod_health. rewrite Hu. by split. }
  assert (Hother : forall d, d <> c ->
             (ai_at (mod_health g c delta) p d <-> ai_at g p d)).
  { intros d Hne. rewrite ai_at_mod_health by done.
    by destruct (decide (d = c)). }
  assert (Hhere : ai_at (mod_health g c delta) p c <->
                  Unit_is_alive (Unit_mod_health u delta) = true
                  /\ type u = AI /\ player u = p).
  { rewrite ai_at_mod_health by done. destruct (decide (c = c)); [|done].
    rewrite Hu. split; [intros (? & [= <-] & ?); done | eauto]. }
  assert (Hwas : type u = AI /\ player u = p -> ai_at g p c).
  { intros [? ?]. exists u. eauto. }
  destruct (Unit_is_alive (Unit_mod_health u delta)) eqn:Ha.
  - assert (Hsame : forall d, ai_at (mod_health g c delta) p d <-> ai_at g p d).
    { intros d. destruct (decide (d = c)) as [->|Hne]; [|by apply Hother].
      rewrite Hhere. split; [intros (_ & ?); by apply Hwas|].
      intros (u' & Hu' & ? & ?). rewrite Hu in Hu'. injection Hu' as <-. done. }
    split.
    + intros Hf. destruct (Hset Hf) as (c0 & Hc0 & Huniq).
      exists c0. split; [by apply Hsame|].
      intros c' Hc'. by apply Huniq, Hsame.
    + intros Hf d Hd. by apply (Hclear Hf d), Hsame.
  - destruct (decide (type u = AI /\ player u = p)) as [Hai|Hnai].
    + split; [done|]. intros _ d Hd.
      destruct (decide (d = c)) as [->|Hne].
      * apply Hhere in Hd as [? _]. done.
      * apply Hother in Hd; [|done].
        destruct (has_ai_flag g p) eqn:Hf.
        -- destruct (Hset eq_refl) as (c0 & _ & Huniq).
           apply Hne. rewrite (Huniq d Hd). symmetry. by apply Huniq, Hwas.
        -- by apply (Hclear eq_refl d).
    + assert (Hsame : forall d, ai_at (mod_health g c delta) p d <-> ai_at g p d).
      { intros d. destruct (decide (d = c)) as [->|Hne]; [|by apply Hother].
        rewrite Hhere. split; [intros (? & _); done|].
        intros (u' & Hu' & ? & ?). rewrite Hu in Hu'. injection Hu' as <-.
        by destruct Hnai. }
      split.
      * intros Hf. destruct (Hset Hf) as (c0 & Hc0 & Huniq).
        exists c0. split; [by apply Hsame|].
        intros c' Hc'. by apply Huniq, Hsame.
      * intros Hf d Hd. by apply (Hclear Hf d), Hsame.
Qed.

Lemma flags_ok_movement (g : Game) (coords : CoordPair) :
  shape g -> flags_ok g ->
  is_valid_move g coords = Ok true -> src coords <> dst coords ->
  get g (dst coords) = None ->
  flags_ok (perform_movement g coords).1.
Proof.
  intros Hs Hok Hvalid Hne Hempty p.
  apply is_valid_move_true_inv in Hvalid as (Hvs & Hvd & _ & _).
  unfold perform_movement. cbn [fst].
  set (s := src coords) in *. set (d := dst coords) in *.
  assert (Hget : forall c, get (set (set g d (get g s)) s None) c
                           = if decide (c = s) then None
                             else if decide (c = d) then get g s else get g c).
  { intros c. rewrite get_set by (by rewrite ?is_valid_coord_set; try apply shape_set).
    destruct (decide (c = s)); [done|]. by rewrite get_set. }
  assert (Hai : forall c, ai_at (set (set g d (get g s)) s None) p c <->
                          (c = d /\ ai_at g p s) \/ (c <> s /\ c <> d /\ ai_at g p c)).
  { intros c. unfold ai_at. rewrite Hget.
    destruct (decide (c = s)) as [->|Hcs].
    - split; [intros (? & ? & _); done | intros [[? _]|[? _]]; congruence].
    - destruct (decide (c = d)) as [->|Hcd].
      + split; [by left | intros [[_ ?]|(_ & ? & _)]; done].
      + split; [by right | intros [[? _]|(_ & _ & ?)]; done]. }
  assert (Hnod : ~ ai_at g p d).
  { intros (u & Hu & _). congruence. }
  rewrite !has_ai_flag_set. destruct (Hok p) as [Hset Hclear]. split.
  - intros Hf. destruct (Hset Hf) as (c0 & Hc0 & Huniq).
    destruct (decide (c0 = s)) as [->|Hc0s].
    + exists d. split; [apply Hai; by left|].
      intros c' Hc'. apply Hai in Hc' as [[? _]|(Hn & _ & Hc')]; [done|].
      by apply Huniq in Hc'.
    + exists c0. split.
      * apply Hai. right. repeat split; [done | | done].
        intros ->. done.
      * intros c' Hc'. apply Hai in Hc' as [[_ Hc']|(_ & _ & Hc')].
        -- by apply Huniq in Hc'.
        -- by apply Huniq.
  - intros Hf c Hc. apply Hai in Hc as [[_ Hc]|(_ & _ & Hc)];
      by apply (Hclear Hf) in Hc.
Qed.

Lemma flags_ok_perform_move (g : Game) (coords : CoordPair) g' r :
  wf_game g = true -> flags_ok g ->
  perform_move g coords = Ok (g', r) ->
  flags_ok g' /\ flags_ok (next_turn g').
Proof.
  intros Hwf Hok Hrun. apply wf_shape in Hwf.
  assert (Hinv : shape g' /\ flags_ok g').
  { apply (perform_move_inv (fun h => shape h /\ flags_ok h) g coords (g', r));
      [done| | |done].
    - intros h c delta [Hsh Hfh].
      split; [by apply shape_mod_health | by apply flags_ok_mod_health].
    - intros Hvalid Hne Hempty. split.
      + unfold perform_movement. cbn [fst]. by apply shape_set, shape_set.
      + by apply flags_ok_movement. }
  destruct Hinv as [_ Hok']. split; [done|]. exact Hok'.
Qed.

Lemma get_blank_game (o : Options) (p : Player) (turns : Z) (c : Coord) :
  get (blank_game o p turns) c = None.
Proof.
  unfold get.
  destruct (is_valid_coord (blank_game o p turns) c) eqn:Hv; [|done].
  apply is_valid_coord_spec in Hv. simpl in Hv.
  destruct (lookup_empty_board (dim o) (Z.to_nat (row c)) (Z.to_nat (col c)))
    as (r & Hr & Hcell); [lia | lia |].
  cbn [board blank_game]. by rewrite Hr, Hcell.
Qed.

Lemma get_place (g : Game) (r k : Z) (p : Player) (t : UnitType) (h : Z) (c : Coord) :
  wf_game g = true ->
  get (place g r k p t h) c =
  if is_valid_coord g (mkCoord r k) && bool_decide (c = mkCoord r k)
  then Some (mkUnit p t h) else get g c.
Proof.
  intros Hwf. apply wf_shape in Hwf. unfold place.
  destruct (is_valid_coord g (mkCoord r k)) eqn:Hv; simpl.
  - rewrite get_set by done. destruct (decide (c = mkCoord r k)).
    + by rewrite bool_decide_eq_true_2.
    + by rewrite bool_decide_eq_false_2.
  - unfold set. by rewrite Hv.
Qed.

Lemma is_valid_coord_place (g : Game) r k p t h (c : Coord) :
  is_valid_coord (place g r k p t h) c = is_valid_coord g c.
Proof. apply is_valid_coord_set. Qed.

(** On a board of dimension 3 or more the initial deployment has one AI
    for each player: the Defender's at A0, the Attacker's in the
    opposite corner. *)
Lemma ai_at_post_init (o : Options) (p : Player) (c : Coord) :
  3 <= dim o ->
  ai_at (post_init o) p c <->
  (p = Defender /\ c = mkCoord 0 0)
  \/ (p = Attacker /\ c = mkCoord (dim o - 1) (dim o - 1)).
Proof.
  intros Hd. unfold ai_at, post_init. cbn zeta.
  assert (Hget : forall u,
    get (place (place (place (place (place (place (place (place (place (place
      (place (place (blank_game o Attacker 0) 0 0 Defender AI 9)
         1 0 Defender Tech 9) 0 1 Defender Tech 9) 2 0 Defender Firewall 9)
         0 2 Defender Firewall 9) 1 1 Defender Program 9)
         (dim o - 1) (dim o - 1) Attacker AI 9)
         (dim o - 1 - 1) (dim o - 1) Attacker Virus 9)
         (dim o - 1) (dim o - 1 - 1) Attacker Virus 9)
         (dim o - 1 - 2) (dim o - 1) Attacker Program 9)
         (dim o - 1) (dim o - 1 - 2) Attacker Program 9)
         (dim o - 1 - 1) (dim o - 1 - 1) Attacker Firewall 9) c = Some u
    /\ type u = AI /\ player u = p <->
    (c = mkCoord 0 0 /\ u = mkUnit Defender AI 9 /\ p = Defender)
    \/ (c = mkCoord (dim o - 1) (dim o - 1) /\ u = mkUnit Attacker AI 9
        /\ p = Attacker)).
  { intros u.
    repeat rewrite get_place by (repeat apply wf_place; apply wf_blank_game; lia).
    rewrite !is_valid_coord_place, get_blank_game.
    assert (Hvalid : forall r k, 0 <= r < dim o -> 0 <= k < dim o ->
               is_valid_coord (blank_game o Attacker 0) (mkCoord r k) = true).
    { intros r k Hr Hk. apply is_valid_coord_spec. simpl. lia. }
    split.
    - repeat match goal with
             | |- context [?v && bool_decide (c = ?x)] =>
                 destruct (v && bool_decide (c = x)) eqn:?
             end;
        intros (Hu & Ht & Hp); try discriminate;
        injection Hu as <-; try discriminate;
        match goal with
        | H : _ && bool_decide _ = true |- _ =>
            apply andb_true_iff in H as [_ H];
            apply bool_decide_eq_true_1 in H
        end; simpl in Hp; subst; auto.
    - intros [(-> & -> & ->)|(-> & -> & ->)].
      + repeat match goal with
               | |- context [?v && bool_decide (?y = mkCoord ?r ?k)] =>
                   first [ rewrite (bool_decide_eq_false_2 (y = mkCoord r k))
                             by (intros [=]; lia); rewrite andb_false_r
                         | rewrite (bool_decide_eq_true_2 (y = mkCoord r k))
                             by reflexivity; rewrite Hvalid by lia; simpl ]
               end.
        done.
      + repeat match goal with
               | |- context [?v && bool_decide (?y = mkCoord ?r ?k)] =>
                   first [ rewrite (bool_decide_eq_false_2 (y = mkCoord r k))
                             by (intros [=]; lia); rewrite andb_false_r
                         | rewrite (bool_decide_eq_true_2 (y = mkCoord r k))
                             by reflexivity; rewrite Hvalid by lia; simpl ]
               end.
        done. }
  split.
  - intros (u & Hu). apply Hget in Hu as [(-> & _ & ->)|(-> & _ & ->)]; auto.
  - intros [[-> ->]|[-> ->]]; eexists; apply Hget; [left | right]; done.
Qed.

Lemma flags_ok_post_init (o : Options) : 3 <= dim o -> flags_ok (post_init o).
Proof.
  intros Hd p.
  assert (Hflag : has_ai_flag (post_init o) p = true).
  { assert (Hplace : forall g r k q t h,
               has_ai_flag (place g r k q t h) p = has_ai_flag g p)
      by (intros; apply has_ai_flag_set).
    unfold post_init. cbn zeta. rewrite !Hplace. by destruct p. }
  rewrite Hflag. split; [|discriminate]. intros _.
  destruct p.
  - exists (mkCoord (dim o - 1) (dim o - 1)). split.
    + apply ai_at_post_init; auto.
    + intros c' Hc'. apply ai_at_post_init in Hc' as [[? _]|[_ ?]]; done.
  - exists (mkCoord 0 0). split.
    + apply ai_at_post_init; auto.
    + intros c' Hc'. apply ai_at_post_init in Hc' as [[_ ?]|[? _]]; done.
Qed.

Lemma same_frame_perform_move (g : Game) (coords : CoordPair) x :
  perform_move g coords = Ok x -> same_frame g x.1.
Proof.
  apply (perform_move_inv (same_frame g)); [done| |].
  - intros h c delta (? & ? & ?).
    destruct (same_frame_mod_health h c delta) as (? & ? & ?).
    unfold same_frame. repeat split; congruence.
  - intros _ _ _. unfold perform_movement. cbn [fst].
    destruct (same_frame_set g (dst coords) (get g (src coords))) as (? & ? & ?),
      (same_frame_set (set g (dst coords) (get g (src coords))) (src coords) None)
      as (? & ? & ?).
    unfold same_frame. repeat split; congruence.
Qed.

(** X14.  Every state reached in a game on a board of dimension 3 or
    more, from the initial deployment through successful moves each
    followed by [next_turn], is well-formed and has truthful AI flags (a
    set flag: exactly one cell holds that AI; a cleared flag: none does);
    its options are those of the start, and the Attacker is to move
    exactly when the count of turns is even. *)
Theorem reachable_invariant (o : Options) (g : Game) :
  3 <= dim o -> reachable o g ->
  wf_game g = true
  /\ flags_ok g
  /\ options g = o
  /\ 0 <= turns_played g
  /\ next_player g = (if Z.even (turns_played g) then Attacker else Defender).
Proof.
  intros Hd. induction 1 as [|g coords g' d Hreach IH Hrun].
  - split; [apply wf_post_init; lia|]. split; [by apply flags_ok_post_init|].
    assert (Hplace : forall g r k p t h,
               options (place g r k p t h) = options g
               /\ next_player (place g r k p t h) = next_player g
               /\ turns_played (place g r k p t h) = turns_played g).
    { intros g r k p t h. apply same_frame_set. }
    unfold post_init. cbn zeta.
    repeat match goal with
           | |- context [place ?g ?r ?k ?p ?t ?h] =>
               destruct (Hplace g r k p t h) as (-> & -> & ->)
           end.
    simpl. repeat split; lia.
  - destruct IH as (Hwf & Hok & Ho & Hturns & Hnext).
    destruct (wf_perform_move _ _ _ _ Hwf Hrun) as [_ Hwf'].
    destruct (flags_ok_perform_move _ _ _ _ Hwf Hok Hrun) as [_ Hok'].
    destruct (same_frame_perform_move _ _ _ Hrun) as (Ho' & Hp' & Ht').
    cbn [fst] in *. split; [done|]. split; [done|].
    cbn [next_turn options turns_played next_player].
    rewrite Ho', Hp', Ht', Hnext.
    split; [done|]. split; [lia|].
    replace (turns_played g + 1) with (Z.succ (turns_played g)) by lia.
    rewrite Z.even_succ, <- Z.negb_even.
    by destruct (Z.even (turns_played g)).
Qed.

Lemma reachable_invariant_witness :
  flags_ok (next_turn (perform_movement (post_init main_options)
                         (mkCoordPair (mkCoord 2 4) (mkCoord 1 4))).1).
Proof.
  eapply (reachable_invariant main_options); [simpl; lia|].
  apply (reachable_turn main_options (post_init main_options)
           (mkCoordPair (mkCoord 2 4) (mkCoord 1 4)) _
           (move_from (mkCoord 2 4) (mkCoord 1 4)) (reachable_init _)).
  vm_compute. reflexivity.
Defined.

(** X15.  With truthful flags and the turn limit not reached,
    [has_winner] reads the board: no winner exactly when both AIs are on
    it, the Attacker exactly when its AI is on it and the Defender's is
    not, the Defender exactly when the Attacker's AI is on no cell (also
    when both are gone). *)
Theorem has_winner_reads_board (g : Game) :
  flags_ok g -> within_turn_limit g ->
  (has_winner g = None <->
   (exists c, ai_at g Attacker c) /\ (exists c, ai_at g Defender c))
  /\ (has_winner g = Some Attacker <->
      (exists c, ai_at g Attacker c) /\ ~ (exists c, ai_at g Defender c))
  /\ (has_winner g = Some Defender <-> ~ (exists c, ai_at g Attacker c)).
Proof.
  intros Hok Hlimit.
  assert (Hflag : forall p, has_ai_flag g p = true <-> exists c, ai_at g p c).
  { intros p. destruct (Hok p) as [Hset Hclear]. split.
    - intros Hf. destruct (Hset Hf) as (c & Hc & _). eauto.
    - intros [c Hc]. destruct (has_ai_flag g p) eqn:Hf; [done|].
      by apply (Hclear eq_refl) in Hc. }
  pose proof (Hflag Attacker) as Ha. pose proof (Hflag Defender) as Hdf.
  simpl in Ha, Hdf. unfold has_winner, within_turn_limit in *.
  assert (Hno : match max_turns (options g) with
                | Some m => turns_played g >=? m
                | None => false
                end = false).
  { destruct (max_turns (options g)); [|done].
    rewrite Z.geb_leb. apply Z.leb_gt. lia. }
  rewrite Hno.
  destruct (_attacker_has_ai g), (_defender_has_ai g);
    intuition (try discriminate; try reflexivity).
Qed.

Lemma has_winner_reads_board_witness :
  has_winner (post_init main_options) = None <->
  (exists c, ai_at (post_init main_options) Attacker c)
  /\ (exists c, ai_at (post_init main_options) Defender c).
Proof.
  apply (has_winner_reads_board (post_init main_options)).
  - apply flags_ok_post_init. simpl. lia.
  - unfold within_turn_limit. simpl. lia.
Defined.

(** * Further properties: the four actions *)

(** X16.  A legal move onto a cell without a unit relocates the unit: the
    destination then holds it unchanged, the source is empty, every other
    cell and both AI flags are kept, and the move is reported as a
    relocation. *)
Theorem perform_move_relocates (g : Game) (s d : Coord) :
  wf_game g = true ->
  is_valid_move g (mkCoordPair s d) = Ok true ->
  s <> d -> get g d = None ->
  exists g' u,
    get g s = Some u
    /\ perform_move g (mkCoordPair s d) = Ok (g', (true, move_from s d))
    /\ get g' d = Some u
    /\ get g' s = None
    /\ (forall c, c <> s -> c <> d -> get g' c = get g c)
    /\ (forall p, has_ai_flag g' p = has_ai_flag g p).
Proof.
  intros Hwf Hvalid Hne Hempty. apply wf_shape in Hwf.
  destruct (is_valid_move_true_inv _ _ Hvalid) as (Hvs & Hvd & (u & Hu & _) & _).
  cbn [src dst] in *.
  exists (perform_movement g (mkCoordPair s d)).1, u. split; [done|]. split.
  - unfold perform_move. rewrite Hvalid. simpl.
    unfold determine_action. cbn [src dst]. rewrite Hempty.
    by destruct (decide (s = d)).
  - unfold perform_movement. cbn [fst src dst].
    assert (Hs1 : shape (set g d (get g s))) by (by apply shape_set).
    rewrite !get_set by (by rewrite ?is_valid_coord_set).
    destruct (decide (d = s)) as [|_]; [congruence|].
    destruct (decide (d = d)); [|done]. destruct (decide (s = s)); [|done].
    repeat split; try done.
    + intros c Hcs Hcd. rewrite !get_set by (by rewrite ?is_valid_coord_set).
      destruct (decide (c = s)); [done|]. by destruct (decide (c = d)).
    + intros p. by rewrite !has_ai_flag_set.
Qed.

Lemma perform_move_relocates_witness :
  exists g' u,
    get (post_init main_options) (mkCoord 2 4) = Some u
    /\ perform_move (post_init main_options)
                    (mkCoordPair (mkCoord 2 4) (mkCoord 1 4))
       = Ok (g', (true, move_from (mkCoord 2 4) (mkCoord 1 4)))
    /\ get g' (mkCoord 1 4) = Some u.
Proof.
  destruct (perform_move_relocates (post_init main_options)
              (mkCoord 2 4) (mkCoord 1 4))
    as (g' & u & Hu & Hrun & Hd & _);
    [vm_compute; reflexivity | vm_compute; reflexivity | discriminate
    | vm_compute; reflexivity |].
  exists g', u. auto.
Defined.

(** X17.  Repair.  A move of a unit of the mover onto a neighbouring
    friendly unit is legal exactly when the repair table entry for the
    two types is not 0 and the target is not at health 9.  When legal it
    raises the health of the target by that entry, stopping at 9, and
    changes no other cell. *)
Theorem repair_legality_and_effect (g : Game) (s d : Coord) (a t : Unit) :
  wf_game g = true ->
  get g s = Some a -> player a = next_player g ->
  get g d = Some t -> player t = player a ->
  d ∈ iter_adjacent s ->
  let amount := table_at repair_table (type a) (type t) in
  determine_action g (mkCoordPair s d) = Ok REPAIR
  /\ is_valid_move g (mkCoordPair s d)
     = Ok (negb (amount =? 0) && negb (health t =? 9))
  /\ (amount <> 0 -> health t <> 9 ->
      exists g',
        perform_move g (mkCoordPair s d) = Ok (g', (true, repair_from s d amount))
        /\ get g' d = Some (mkUnit (player t) (type t)
                                   (Z.min 9 (health t + amount)))
        /\ health t < Z.min 9 (health t + amount)
        /\ (forall c, c <> d -> get g' c = get g c)).
Proof.
  intros Hwf Ha Hp Ht Hsame Hadj amount.
  pose proof (wf_health g d t Hwf Ht) as Hh. apply wf_shape in Hwf.
  pose proof (repair_table_range (type a) (type t)) as Hrange. fold amount in Hrange.
  assert (Hact : determine_action g (mkCoordPair s d) = Ok REPAIR).
  { unfold determine_action. cbn [src dst]. rewrite Ha, Ht.
    destruct (decide (s = d)) as [Heq|_]; [by apply adjacent_ne in Hadj|].
    simpl. destruct (decide (player a = player t)); congruence. }
  assert (Hvalid : is_valid_move g (mkCoordPair s d)
                   = Ok (negb (amount =? 0) && negb (health t =? 9))).
  { rewrite (is_valid_move_adjacent g s d a) by eauto using get_Some_valid.
    unfold valid_at_neighbour. cbn [src dst]. rewrite Ht, Hact. simpl.
    fold amount. destruct (amount =? 0); [done|]. by destruct (health t =? 9). }
  split; [done|]. split; [done|].
  intros Hne0 Hne9.
  exists (mod_health g d amount). split.
  - unfold perform_move. rewrite Hvalid, Hact.
    rewrite (proj2 (Z.eqb_neq amount 0)), (proj2 (Z.eqb_neq (health t) 9)) by done.
    simpl. by rewrite Ha, Ht.
  - split; [|split; [lia|]].
    + rewrite get_mod_health by done. destruct (decide (d = d)); [|done].
      rewrite Ht. unfold after_hit, Unit_is_alive, Unit_mod_health. simpl.
      destruct (Z.ltb_spec (health t + amount) 0); [lia|].
      destruct (Z.ltb_spec 9 (health t + amount)).
      * simpl. do 2 f_equal. lia.
      * destruct (Z.ltb_spec 0 (health t + amount)); [|lia]. do 2 f_equal. lia.
    + intros c Hc. rewrite get_mod_health by done. by destruct (decide (c = d)).
Qed.

Lemma repair_legality_and_effect_witness :
  is_valid_move (post_init main_options)
                (mkCoordPair (mkCoord 4 4) (mkCoord 4 3)) = Ok false.
Proof.
  destruct (repair_legality_and_effect (post_init main_options)
              (mkCoord 4 4) (mkCoord 4 3)
              (mkUnit Attacker AI 9) (mkUnit Attacker Virus 9))
    as (_ & Hvalid & _);
    [vm_compute; reflexivity | vm_compute; reflexivity | vm_compute; reflexivity
    | vm_compute; reflexivity | vm_compute; reflexivity | |exact Hvalid].
  unfold iter_adjacent. simpl. rewrite !elem_of_cons. auto.
Defined.

(** X18.  Attack, as [perform_attack] carries it out.  A move of a unit
    of the mover onto a neighbouring enemy unit is always legal.  The
    unit at the source takes the damage table entry read at (its type,
    the type at the destination), the unit at the destination the entry
    read at (its type, the type at the source); each keeps its owner and
    type and is removed when its health reaches 0, and no other cell
    changes. *)
Theorem attack_effect (g : Game) (s d : Coord) (a t : Unit) :
  wf_game g = true ->
  get g s = Some a -> player a = next_player g ->
  get g d = Some t -> player t <> player a ->
  d ∈ iter_adjacent s ->
  let to_source := table_at damage_table (type a) (type t) in
  let to_target := table_at damage_table (type t) (type a) in
  is_valid_move g (mkCoordPair s d) = Ok true
  /\ exists g',
      perform_move g (mkCoordPair s d)
      = Ok (g', (true, attack_from s d to_source to_target))
      /\ get g' s = (if health a <=? to_source then None
                     else Some (mkUnit (player a) (type a) (health a - to_source)))
      /\ get g' d = (if health t <=? to_target then None
                     else Some (mkUnit (player t) (type t) (health t - to_target)))
      /\ (forall c, c <> s -> c <> d -> get g' c = get g c).
Proof.
  intros Hwf Ha Hp Ht Hne Hadj to_source to_target.
  pose proof (wf_health g s a Hwf Ha) as Hha.
  pose proof (wf_health g d t Hwf Ht) as Hht.
  pose proof (damage_table_range (type a) (type t)) as Hr1.
  pose proof (damage_table_range (type t) (type a)) as Hr2.
  fold to_source in Hr1. fold to_target in Hr2.
  apply wf_shape in Hwf.
  assert (Hhit : forall (u : Unit) (x : Z), 0 < health u <= 9 -> 1 <= x <= 9 ->
             after_hit (Some u) (- x)
             = if health u <=? x then None
               else Some (mkUnit (player u) (type u) (health u - x))).
  { intros u x Hu Hx. unfold after_hit, Unit_is_alive, Unit_mod_health. simpl.
    destruct (Z.leb_spec (health u) x);
      destruct (Z.ltb_spec (health u + - x) 0); simpl; try lia; try done.
    - destruct (Z.ltb_spec 9 (health u + - x)); [lia|].
      destruct (Z.ltb_spec 0 (health u + - x)); [lia | done].
    - destruct (Z.ltb_spec 9 (health u + - x)); [lia|].
      destruct (Z.ltb_spec 0 (health u + - x)); [done | lia]. }
  split.
  - rewrite (is_valid_move_adjacent g s d a) by eauto using get_Some_valid.
    unfold valid_at_neighbour, determine_action. cbn [src dst]. rewrite Ha, Ht.
    destruct (decide (s = d)) as [Heq|_]; [by apply adjacent_ne in Hadj|].
    simpl. destruct (decide (player a = player t)); [congruence | done].
  - rewrite (perform_move_attack g s d a t) by done.
    destruct (perform_attack_cells g (mkCoordPair s d) a t Hwf)
      as (Hsrc & Hdst & Hrest); [by apply adjacent_ne|].
    cbn [src dst] in *. rewrite Ha, Hhit in Hsrc by done.
    rewrite Ht, Hhit in Hdst by done.
    eexists. split; [|split; [exact Hsrc | split; [exact Hdst | exact Hrest]]].
    unfold perform_attack. cbn [src dst]. do 3 f_equal.
    f_equal; fold to_source to_target; lia.
Qed.

Lemma attack_effect_witness :
  is_valid_move duel_game (mkCoordPair (mkCoord 2 2) (mkCoord 2 1)) = Ok true.
Proof.
  destruct (attack_effect duel_game (mkCoord 2 2) (mkCoord 2 1)
              (mkUnit Attacker Virus 9) (mkUnit Defender Tech 9))
    as (Hvalid & _);
    [vm_compute; reflexivity | vm_compute; reflexivity | vm_compute; reflexivity
    | vm_compute; reflexivity | discriminate | |exact Hvalid].
  unfold iter_adjacent. simpl. rewrite !elem_of_cons. auto.
Defined.

Lemma length_iter_range (c : Coord) (dist : Z) :
  length (iter_range c dist)
  = (Z.to_nat (2 * dist + 1) * Z.to_nat (2 * dist + 1))%nat.
Proof.
  unfold iter_range, range.
  rewrite (length_bind_const _ _ (Z.to_nat (2 * dist + 1))).
  - rewrite length_seqZ. f_equal. lia.
  - intros r _. rewrite (length_bind_const _ _ 1%nat) by done.
    rewrite length_seqZ. lia.
Qed.

Lemma filter_length_lt {A} (f : A -> bool) (l : list A) (x : A) :
  In x l -> f x = false -> (length (List.filter f l) < length l)%nat.
Proof.
  induction l as [|y l IH]; intros Hin Hf; [done|]. simpl.
  destruct Hin as [->|Hin].
  - rewrite Hf. pose proof (List.filter_length_le f l). lia.
  - specialize (IH Hin Hf). destruct (f y); simpl; lia.
Qed.

(** X19.  The total reported by a self-destruction is 2 for every unit
    standing on one of the 8 surrounding cells, whatever health it had
    (a unit with 1 health left still counts for 2): between 0 and 16. *)
Theorem suicide_total_damage (g : Game) (c : Coord) (u : Unit) :
  wf_game g = true ->
  get g c = Some u -> player u = next_player g ->
  exists g' total,
    perform_move g (mkCoordPair c c) = Ok (g', (true, self_destruct_at c total))
    /\ total = 2 * Z.of_nat (length (List.filter
                 (fun d => bool_decide (is_Some (get g d))
                           && negb (bool_decide (d = c)))
                 (iter_range c 1)))
    /\ 0 <= total <= 16.
Proof.
  intros Hwf Hu Hp.
  pose proof (wf_shape g Hwf) as Hs.
  pose proof (wf_health g c u Hwf Hu) as Hh.
  unfold perform_move.
  rewrite (is_valid_move_self g c u) by eauto using get_Some_valid. simpl.
  unfold determine_action. cbn [src dst].
  destruct (decide (c = c)); [|done]. simpl.
  unfold perform_suicide. cbn [src].
  set (g1 := mod_health g c (-9)).
  assert (Hs1 : shape g1) by (by apply shape_mod_health).
  assert (Hg1 : forall d, get g1 d = if decide (d = c) then None else get g d).
  { intros d. unfold g1. rewrite get_mod_health by done.
    destruct (decide (d = c)); [|done]. rewrite Hu. apply after_hit_9. lia. }
  destruct (splash_fold_cells (iter_range c 1) g1 0 Hs1 (NoDup_iter_range c 1))
    as [_ Htot].
  destruct (fold_left splash_step (iter_range c 1) (g1, 0)) as [g2 total].
  cbn [fst snd] in *.
  rewrite (filter_ext (fun d => bool_decide (is_Some (get g1 d)))
             (fun d => bool_decide (is_Some (get g d))
                       && negb (bool_decide (d = c)))) in Htot.
  2:{ intros d. rewrite Hg1. destruct (decide (d = c)) as [->|Hne].
      - rewrite (bool_decide_eq_true_2 (c = c)) by done.
        rewrite andb_false_r. apply bool_decide_eq_false_2. by intros [? ?].
      - rewrite (bool_decide_eq_false_2 (d = c)) by done. by rewrite andb_true_r. }
  exists g2, total. split; [done|]. split; [lia|].
  assert (Hlen : (length (List.filter
                    (fun d => bool_decide (is_Some (get g d))
                              && negb (bool_decide (d = c)))
                    (iter_range c 1)) < 9)%nat).
  { replace 9%nat with (length (iter_range c 1))
      by (rewrite length_iter_range; reflexivity).
    apply (filter_length_lt _ _ c).
    - apply list_elem_of_In, elem_of_iter_range. lia.
    - rewrite (bool_decide_eq_true_2 (c = c)) by done. by rewrite andb_false_r. }
  lia.
Qed.

Lemma suicide_total_damage_witness :
  exists g',
    perform_move crowded_game (mkCoordPair (mkCoord 2 2) (mkCoord 2 2))
    = Ok (g', (true, self_destruct_at (mkCoord 2 2) 4)).
Proof.
  destruct (suicide_total_damage crowded_game (mkCoord 2 2)
              (mkUnit Defender Program 5))
    as (g' & total & Hrun & Htotal & _);
    [vm_compute; reflexivity | vm_compute; reflexivity | vm_compute; reflexivity |].
  exists g'. rewrite Hrun, Htotal. reflexivity.
Defined.

(** * Further properties: units of a player and candidate moves *)

Lemma NoDup_fst_player_units (g : Game) (p : Player) (cs : list Coord) :
  NoDup cs ->
  NoDup ((cs ≫= fun coord =>
            match get g coord with
            | Some unit => if decide (player unit = p) then [(coord, unit)] else []
            | None => []
            end).*1).
Proof.
  induction 1 as [|c cs Hnin Hnd IH]; [constructor|].
  change ((c :: cs) ≫= ?f) with (f c ++ (cs ≫= f)).
  rewrite fmap_app. apply NoDup_app. split; [|split; [|done]].
  - destruct (get g c) as [u|]; [|constructor].
    destruct (decide (player u = p)); [apply NoDup_singleton | constructor].
  - intros x Hx Hx'. apply list_elem_of_fmap in Hx' as ([c' u'] & -> & Hin).
    apply list_elem_of_bind in Hin as (c'' & Hin & Hc'').
    assert (c'' = c').
    { destruct (get g c'') as [u''|]; [|by apply elem_of_nil in Hin].
      destruct (decide (player u'' = p)); [|by apply elem_of_nil in Hin].
      apply list_elem_of_singleton in Hin. congruence. }
    subst c''. simpl in Hx.
    assert (c' = c).
    { destruct (get g c) as [u|]; [|by apply elem_of_nil in Hx].
      destruct (decide (player u = p)); [|by apply elem_of_nil in Hx].
      by apply list_elem_of_singleton in Hx. }
    congruence.
Qed.

(** X20.  [player_units] lists exactly the cells of the board that hold a
    unit of the player, each with its unit and no cell twice. *)
Theorem player_units_exact (g : Game) (p : Player) :
  (forall c u, (c, u) ∈ player_units g p <-> get g c = Some u /\ player u = p)
  /\ NoDup (player_units g p).*1.
Proof.
  split; [intros c u; apply elem_of_player_units|].
  apply NoDup_fst_player_units, NoDup_iter_rectangle.
Qed.

Lemma elem_of_adjacent_candidates (g : Game) (s : Coord) (ds : list Coord) :
  exists ms, adjacent_candidates g s ds = Ok ms
    /\ forall m, m ∈ ms <->
         src m = s /\ dst m ∈ ds /\ is_valid_move g m = Ok true.
Proof.
  induction ds as [|d ds (ms & Hms & Hiff)]; cbn [adjacent_candidates].
  - exists []. split; [done|]. intros m. split.
    + intros Hm. by apply elem_of_nil in Hm.
    + intros (_ & Hm & _). by apply elem_of_nil in Hm.
  - destruct (is_valid_move_total g (mkCoordPair s d)) as [b Hb].
    rewrite Hb, Hms. simpl. eexists. split; [done|].
    intros m. destruct b.
    + rewrite elem_of_cons, Hiff, elem_of_cons. split.
      * intros [->|(? & ? & ?)]; [by auto|]. auto.
      * intros (Hs & [Hd|Hd] & Hv); [left | by right].
        destruct m as [ms' md]. simpl in *. by subst.
    + rewrite Hiff, elem_of_cons. split.
      * intros (? & ? & ?). auto.
      * intros (Hs & [Hd|Hd] & Hv); [|done].
        destruct m as [ms' md]. simpl in *. subst. congruence.
Qed.

Lemma NoDup_adjacent_candidates (g : Game) (s : Coord) (ds : list Coord) ms :
  NoDup ds -> adjacent_candidates g s ds = Ok ms -> NoDup ms.
Proof.
  intros Hnd. revert ms. induction Hnd as [|d ds Hnin Hnd IH]; intros ms.
  - intros [= <-]. constructor.
  - cbn [adjacent_candidates].
    destruct (is_valid_move g (mkCoordPair s d)) as [b|]; [|done].
    destruct (elem_of_adjacent_candidates g s ds) as (tail & Htail & Hiff).
    rewrite Htail. simpl. intros [= <-].
    specialize (IH tail Htail). destruct b; [|done].
    apply NoDup_cons. split; [|done].
    intros Hin. apply Hiff in Hin as (_ & Hin & _). done.
Qed.

Lemma elem_of_candidates_of_units (g : Game) (units : list (Coord * Unit)) :
  (forall c u, (c, u) ∈ units -> get g c = Some u /\ player u = next_player g) ->
  exists ms, candidates_of_units g units = Ok ms
    /\ forall m, m ∈ ms <->
         src m ∈ units.*1 /\ is_valid_move g m = Ok true.
Proof.
  induction units as [|[s su] units IH]; intros Hunits; cbn [candidates_of_units].
  - exists []. split; [done|]. intros m. split.
    + intros Hm. by apply elem_of_nil in Hm.
    + intros [Hm _]. by apply elem_of_nil in Hm.
  - destruct IH as (ms & Hms & Hiff).
    { intros c u Hin. apply Hunits. by right. }
    destruct (elem_of_adjacent_candidates g s (iter_adjacent s)) as (adj & Hadj & Hadjiff).
    rewrite Hadj, Hms. simpl. eexists. split; [done|].
    destruct (Hunits s su) as [Hget Hp]; [by left|].
    intros m. rewrite elem_of_app, elem_of_cons, Hadjiff, Hiff.
    rewrite ?fmap_cons, elem_of_cons. simpl. split.
    + intros [(Hs & _ & Hv)|[->|[Hin Hv]]]; [by auto| |by auto].
      split; [by left|]. eapply is_valid_move_self; eauto using get_Some_valid.
    + intros [[Hs|Hin] Hv]; [|by auto].
      destruct (is_valid_move_true_inv _ _ Hv) as (_ & _ & _ & [Heq|Hadjm]).
      * right. left. destruct m as [ms' md]. simpl in *. by subst.
      * left. rewrite Hs in Hadjm. auto.
Qed.

Lemma NoDup_candidates_of_units (g : Game) (units : list (Coord * Unit)) ms :
  (forall c u, (c, u) ∈ units -> get g c = Some u /\ player u = next_player g) ->
  NoDup units.*1 -> candidates_of_units g units = Ok ms -> NoDup ms.
Proof.
  revert ms. induction units as [|[s su] units IH]; intros ms Hunits Hnd.
  - intros [= <-]. constructor.
  - cbn [candidates_of_units].
    destruct (adjacent_candidates g s (iter_adjacent s)) as [adj|] eqn:Hadj; [|done].
    destruct (elem_of_candidates_of_units g units) as (tail & Htail & Hiff).
    { intros c u Hin. apply Hunits. by right. }
    rewrite Htail. simpl. intros [= <-].
    rewrite fmap_cons in Hnd. apply NoDup_cons in Hnd as [Hnin Hnd]. simpl in Hnin.
    destruct (elem_of_adjacent_candidates g s (iter_adjacent s)) as (adj' & Hadj' & Hadjiff).
    rewrite Hadj in Hadj'. injection Hadj' as <-.
    apply NoDup_app. split; [|split].
    + eapply NoDup_adjacent_candidates; [|done].
      unfold iter_adjacent. rewrite !NoDup_cons, !elem_of_cons, !elem_of_nil.
      destruct s as [r k]. simpl.
      repeat split; try apply NoDup_nil_2;
        intros H; repeat destruct H as [H|H]; try done; injection H; lia.
    + intros m Hm Hm'. apply Hadjiff in Hm as (Hs & Hd & _).
      apply elem_of_cons in Hm' as [->|Hm'].
      * simpl in Hd. by apply adjacent_ne in Hd.
      * apply Hiff in Hm' as [Hin _]. by rewrite Hs in Hin.
    + apply NoDup_cons. split.
      * intros Hin. apply Hiff in Hin as [Hin _]. done.
      * apply IH; [|done|done]. intros c u Hin. apply Hunits. by right.
Qed.

(** X21.  [move_candidates] never raises and yields exactly the legal
    moves of the state, each once: a pair of coordinates is yielded if
    and only if [is_valid_move] accepts it. *)
Theorem move_candidates_exact (g : Game) :
  exists ms, move_candidates g = Ok ms
    /\ (forall m, m ∈ ms <-> is_valid_move g m = Ok true)
    /\ NoDup ms.
Proof.
  unfold move_candidates.
  assert (Hunits : forall c u, (c, u) ∈ player_units g (next_player g) ->
                     get g c = Some u /\ player u = next_player g).
  { intros c u Hin. by apply elem_of_player_units in Hin. }
  destruct (elem_of_candidates_of_units g _ Hunits) as (ms & Hms & Hiff).
  exists ms. split; [done|]. split.
  - intros m. rewrite Hiff. split; [by intros [_ ?]|].
    intros Hv. split; [|done].
    destruct (is_valid_move_true_inv _ _ Hv) as (_ & _ & (u & Hu & Hp) & _).
    apply list_elem_of_fmap. exists (src m, u). split; [done|].
    by apply elem_of_player_units.
  - eapply NoDup_candidates_of_units; [done| |done].
    apply NoDup_fst_player_units, NoDup_iter_rectangle.
Qed.

(** * Further properties: taking a turn *)

(** A legal move is carried out. *)
Lemma perform_move_valid (g : Game) (coords : CoordPair) :
  is_valid_move g coords = Ok true ->
  exists g' d, perform_move g coords = Ok (g', (true, d)).
Proof.
  intros Hvalid. unfold perform_move. rewrite Hvalid. simpl.
  apply is_valid_move_true_inv in Hvalid as (_ & _ & (u & Hu & _) & _).
  unfold determine_action. rewrite Hu.
  destruct (decide (src coords = dst coords)); simpl.
  { unfold perform_suicide. destruct (fold_left splash_step _ _). eauto. }
  destruct (get g (dst coords)) as [t|]; simpl; [|eauto].
  destruct (decide (player u = player t)); simpl; eauto.
Qed.

Lemma perform_move_rejected (g : Game) (coords : CoordPair) :
  is_valid_move g coords = Ok false ->
  perform_move g coords = Ok (g, (false, invalid_move)).
Proof. intros Hvalid. unfold perform_move. by rewrite Hvalid. Qed.

(** X22.  Whatever permutation [random.shuffle] produces, [random_move]
    never raises; the move it returns is legal in the state; and it
    returns no move exactly when the player to move owns no unit. *)
Theorem random_move_legal (shuffle : list CoordPair -> list CoordPair) (g : Game) :
  (forall l, shuffle l ≡ₚ l) ->
  exists mv k,
    random_move shuffle g = Ok (0, mv, k)
    /\ (forall m, mv = Some m -> is_valid_move g m = Ok true)
    /\ (mv = None <-> forall c u, get g c = Some u -> player u <> next_player g).
Proof.
  intros Hperm. unfold random_move, move_candidates.
  destruct (elem_of_candidates_of_units g (player_units g (next_player g)))
    as (ms & Hms & Hiff).
  { intros c u Hin. by apply elem_of_player_units in Hin. }
  rewrite Hms. simpl.
  assert (Hself : forall c u, get g c = Some u -> player u = next_player g ->
                              mkCoordPair c c ∈ ms).
  { intros c u Hc Hp. apply Hiff. simpl. split.
    - apply list_elem_of_fmap. exists (c, u). split; [done|].
      by apply elem_of_player_units.
    - eapply is_valid_move_self; eauto using get_Some_valid. }
  destruct (shuffle ms) as [|m rest] eqn:Hsh.
  - assert (ms = []) as -> by (apply Permutation_nil_r; by rewrite <- Hsh).
    exists None, 0. split; [done|]. split; [done|]. split; [|done].
    intros _ c u Hc Hp. eapply elem_of_nil, Hself; eauto.
  - exists (Some m), 1. split; [done|]. split.
    + intros m' [= <-]. apply Hiff.
      rewrite <- (Hperm ms), Hsh. by left.
    + split; [done|]. intros Hnone.
      assert (Hin : m ∈ ms) by (rewrite <- (Hperm ms), Hsh; by left).
      apply Hiff in Hin as [_ Hv].
      apply is_valid_move_true_inv in Hv as (_ & _ & (u & Hu & Hp) & _).
      by apply Hnone in Hu.
Qed.

Lemma random_move_legal_witness :
  exists mv k,
    random_move (fun l => l) (post_init main_options) = Ok (0, mv, k)
    /\ mv = Some (mkCoordPair (mkCoord 2 4) (mkCoord 1 4)).
Proof.
  destruct (random_move_legal (fun l => l) (post_init main_options))
    as (mv & k & Hrun & _); [done|].
  exists mv, k. split; [exact Hrun|].
  vm_compute in Hrun. by injection Hrun as <- _.
Defined.

(** X23.  [computer_turn]: when the search returns a move, that move is
    carried out (it is never rejected), the other player is to move and
    the count of turns has grown by one; when the search returns no
    move, the state is left as it was. *)
Theorem computer_turn_applies_move (elapsed : nat -> Q) (g : Game) (n : nat)
    (mv : option CoordPair) (n' : nat) :
  suggest_move elapsed g n = Ok (mv, n') ->
  match mv with
  | Some m =>
      exists g1 d,
        perform_move g m = Ok (g1, (true, d))
        /\ computer_turn elapsed g n = Ok (next_turn g1, Some m, n')
        /\ turns_played (next_turn g1) = turns_played g + 1
        /\ next_player (next_turn g1) = Player_next (next_player g)
        /\ options (next_turn g1) = options g
  | None => computer_turn elapsed g n = Ok (g, None, n')
  end.
Proof.
  intros Hrun. unfold computer_turn. rewrite Hrun. simpl.
  destruct mv as [m|]; [|done].
  assert (Hvalid : is_valid_move g m = Ok true).
  { unfold suggest_move, clone in Hrun.
    match type of Hrun with
    | context [minimax ?el ?d ?s ?mx ?a ?b ?n0 ?mv ?ac ?ps] =>
        destruct (minimax el d s mx a b n0 mv ac ps) as [[[[v b0] k] n0']|e] eqn:Hmm
    end; [|discriminate].
    simpl in Hrun. injection Hrun as -> _.
    apply minimax_move_is_candidate in Hmm as (ms & Hms & Hin).
    destruct (move_candidates_sound g) as (ms' & Hms' & Hall).
    rewrite Hms in Hms'. injection Hms' as <-. by apply Hall. }
  destruct (perform_move_valid g m Hvalid) as (g1 & d & Hpm).
  destruct (same_frame_perform_move _ _ _ Hpm) as (Ho & Hp & Ht).
  cbn [fst] in *. exists g1, d. rewrite Hpm. simpl.
  repeat split; try done; cbn [next_turn turns_played next_player options];
    congruence.
Qed.

Lemma computer_turn_applies_move_witness :
  exists g1, computer_turn frozen_clock standoff_game 0
             = Ok (next_turn g1, Some (mkCoordPair (mkCoord 0 0) (mkCoord 0 0)), 0%nat).
Proof.
  destruct (computer_turn_applies_move frozen_clock standoff_game 0
              (Some (mkCoordPair (mkCoord 0 0) (mkCoord 0 0))) 0%nat)
    as (g1 & d & _ & Hturn & _); [vm_compute; reflexivity|].
  exists g1. exact Hturn.
Defined.

Lemma read_move_line (g : Game) (s : string) (rest : list string) :
  read_move g (s :: rest) =
  match CoordPair_from_string s with
  | Some coords =>
      if is_valid_coord g (src coords) && is_valid_coord g (dst coords)
      then Some (coords, rest) else read_move g rest
  | None => read_move g rest
  end.
Proof. reflexivity. Qed.

Lemma human_turn_loop_skip (fuel : nat) (g : Game) (x : string) (l : list string) :
  accepts g x = false -> (length (x :: l) <= fuel)%nat ->
  exists fuel', (length l <= fuel')%nat
    /\ human_turn_loop fuel g (x :: l) = human_turn_loop fuel' g l.
Proof.
  intros Hrej Hlen. destruct fuel as [|f]; [simpl in Hlen; lia|].
  simpl in Hlen. cbn [human_turn_loop]. rewrite read_move_line.
  unfold accepts in Hrej.
  destruct (CoordPair_from_string x) as [coords|].
  - destruct (is_valid_coord g (src coords) && is_valid_coord g (dst coords)) eqn:Hv.
    + destruct (is_valid_move_total g coords) as [[] Hb]; rewrite Hb in Hrej;
        [discriminate|].
      rewrite (perform_move_rejected g coords Hb). simpl.
      exists f. split; [lia | done].
    + exists (S f). split; [lia | done].
  - exists (S f). split; [lia | done].
Qed.

(** X24.  The keyboard loop of [human_turn] acts on the first line that
    parses to a legal move: that move is carried out once, [next_turn]
    follows, and the lines after it are left unread.  The lines before
    it (unparsable, off the board or illegal) change nothing.  While no
    line denotes a legal move, the loop keeps waiting. *)
Theorem human_turn_first_legal_line (g : Game) (skipped : list string) :
  (forall x, x ∈ skipped -> accepts g x = false) ->
  human_turn g skipped = Ok None
  /\ forall s rest mv,
       CoordPair_from_string s = Some mv ->
       is_valid_move g mv = Ok true ->
       exists g1 d,
         perform_move g mv = Ok (g1, (true, d))
         /\ human_turn g (skipped ++ s :: rest) = Ok (Some (next_turn g1, rest)).
Proof.
  intros Hrej. unfold human_turn. split.
  - generalize (length skipped) at 1. intros fuel.
    revert fuel. induction skipped as [|x l IH]; intros fuel.
    + by destruct fuel.
    + destruct fuel as [|f]; [done|].
      cbn [human_turn_loop]. rewrite read_move_line.
      pose proof (Hrej x ltac:(by left)) as Hx. unfold accepts in Hx.
      assert (IH' : forall fuel, human_turn_loop fuel g l = Ok None).
      { apply IH. intros y Hy. apply Hrej. by right. }
      assert (Hread : forall f0, match read_move g l with
                        | Some (mv, rest) =>
                            '(g', (success, _)) ← perform_move g mv;
                            if success : bool then Ok (Some (next_turn g', rest))
                            else human_turn_loop f0 g rest
                        | None => Ok None
                        end = Ok None)
        by (intros f0; apply (IH' (S f0))).
      destruct (CoordPair_from_string x) as [coords|]; [|apply Hread].
      destruct (is_valid_coord g (src coords) && is_valid_coord g (dst coords));
        [|apply Hread].
      destruct (is_valid_move_total g coords) as [[] Hb]; rewrite Hb in Hx;
        [discriminate|].
      rewrite (perform_move_rejected g coords Hb). simpl. apply IH'.
  - intros s rest mv Hparse Hvalid.
    destruct (perform_move_valid g mv Hvalid) as (g1 & d & Hpm).
    exists g1, d. split; [done|].
    assert (Hgen : forall fuel, (length (skipped ++ s :: rest) <= fuel)%nat ->
               human_turn_loop fuel g (skipped ++ s :: rest)
               = Ok (Some (next_turn g1, rest))).
    { induction skipped as [|x l IH]; intros fuel Hlen.
      - destruct fuel as [|f]; [simpl in Hlen; lia|].
        cbn [app human_turn_loop]. rewrite read_move_line, Hparse.
        apply is_valid_move_true_inv in Hvalid as (-> & -> & _). simpl.
        by rewrite Hpm.
      - rewrite <- app_comm_cons in *.
        destruct (human_turn_loop_skip fuel g x (l ++ s :: rest))
          as (fuel' & Hlen' & ->); [apply Hrej; by left | done |].
        apply IH; [|done]. intros y Hy. apply Hrej. by right. }
    by apply Hgen.
Qed.

Lemma human_turn_first_legal_line_witness :
  exists g1,
    human_turn (post_init main_options) ["hello"; "A0 A1"; "C4 B4"; "rest"]%string
    = Ok (Some (next_turn g1, ["rest"%string])).
Proof.
  destruct (human_turn_first_legal_line (post_init main_options)
              ["hello"; "A0 A1"]%string) as [_ Hturn].
  - intros x Hx. rewrite !elem_of_cons, elem_of_nil in Hx.
    destruct Hx as [->|[->|[]]]; vm_compute; reflexivity.
  - destruct (Hturn "C4 B4"%string ["rest"%string]
                (mkCoordPair (mkCoord 2 4) (mkCoord 1 4)))
      as (g1 & d & _ & Hrun); [vm_compute; reflexivity | vm_compute; reflexivity |].
    exists g1. exact Hrun.
Defined.

(** * Further properties: the search *)

Section SearchScores.

Variable elapsed : nat -> Q.

Lemma max_loop_score (P : Z -> Prop) child self beta moves max_eval best alpha n
      v b n' :
  (forall move a k e k', child move a k = Ok (e, k') -> P e) ->
  P max_eval ->
  max_loop elapsed child self beta moves max_eval best alpha n = Ok (v, b, n') ->
  P v.
Proof.
  intros Hchild. revert max_eval best alpha n.
  induction moves as [|move rest IH]; intros max_eval best alpha n Hme Hrun.
  - by injection Hrun as <- _ _.
  - cbn [max_loop] in Hrun.
    destruct (time_exceeded elapsed self n) as [[] n1].
    { by injection Hrun as <- _ _. }
    destruct (child move alpha n1) as [[eval n2]|e] eqn:Hch; [|discriminate].
    apply Hchild in Hch. simpl in Hrun.
    assert (Hnew : P (if eval >? max_eval then eval else max_eval))
      by (by destruct (eval >? max_eval)).
    destruct (alpha_beta (options self)).
    + destruct (beta <=? Z.max alpha eval).
      * by injection Hrun as <- _ _.
      * eapply IH, Hrun. done.
    + eapply IH, Hrun. done.
Qed.

Lemma min_loop_score (P : Z -> Prop) child self alpha moves min_eval best beta n
      v b n' :
  (forall move a k e k', child move a k = Ok (e, k') -> P e) ->
  P min_eval ->
  min_loop elapsed child self alpha moves min_eval best beta n = Ok (v, b, n') ->
  P v.
Proof.
  intros Hchild. revert min_eval best beta n.
  induction moves as [|move rest IH]; intros min_eval best beta n Hme Hrun.
  - by injection Hrun as <- _ _.
  - cbn [min_loop] in Hrun.
    destruct (time_exceeded elapsed self n) as [[] n1].
    { by injection Hrun as <- _ _. }
    destruct (child move beta n1) as [[eval n2]|e] eqn:Hch; [|discriminate].
    apply Hchild in Hch. simpl in Hrun.
    assert (Hnew : P (if eval <? min_eval then eval else min_eval))
      by (by destruct (eval <? min_eval)).
    destruct (alpha_beta (options self)).
    + destruct (Z.min beta eval <=? alpha).
      * by injection Hrun as <- _ _.
      * eapply IH, Hrun. done.
    + eapply IH, Hrun. done.
Qed.

(** X25.  Whatever the depth, the window, the time budget and the
    pruning option, a score returned by [minimax] is the score of a leaf,
    between -300 and 300, or one of the two sentinels, which stands for a
    node none of whose moves was explored; at depth 0 and on a finished
    game it is the score of a leaf and comes with no move. *)
Theorem minimax_score_range depth self maximizing alpha beta n mv ac ps v m k n' :
  minimax elapsed depth self maximizing alpha beta n mv ac ps = Ok (v, m, k, n') ->
  search_score v
  /\ MIN_HEURISTIC_SCORE <= v <= MAX_HEURISTIC_SCORE
  /\ (depth = O \/ is_finished self = true -> -300 <= v <= 300 /\ m = None).
Proof.
  assert (Hleaf : forall self mv ac ps n v m k n',
             (h ← calculate_heuristic3 self mv ac ps;
              Ok (h, None, 0, n) : result (Z * option CoordPair * Z * nat))
             = Ok (v, m, k, n') -> -300 <= v <= 300 /\ m = None).
  { clear. intros self mv ac ps n v m k n' Hrun.
    destruct (calculate_heuristic3 self mv ac ps) as [h|] eqn:Hh; [|discriminate].
    apply calculate_heuristic3_bounds in Hh. by injection Hrun as <- <- _ _. }
  assert (Hscore : forall depth self maximizing alpha beta n mv ac ps v m k n',
             minimax elapsed depth self maximizing alpha beta n mv ac ps
             = Ok (v, m, k, n') -> search_score v).
  { clear depth self maximizing alpha beta n mv ac ps v m k n'.
    induction depth as [|d IH];
      intros self maximizing alpha beta n mv ac ps v m k n'; cbn [minimax].
    { intros Hrun. apply Hleaf in Hrun as [? _]. unfold search_score. auto. }
    destruct (is_finished self).
    { intros Hrun. apply Hleaf in Hrun as [? _]. unfold search_score. auto. }
    destruct (move_candidates self) as [ms|]; [|by destruct maximizing].
    simpl. destruct maximizing; intros Hrun.
    - match type of Hrun with
      | context [max_loop ?el ?ch ?s ?b ?l ?me ?bm ?a ?n0] =>
          destruct (max_loop el ch s b l me bm a n0) as [[[v0 b0] n0']|e] eqn:Hloop
      end; [|discriminate].
      simpl in Hrun. injection Hrun as <- _ _ _.
      eapply (max_loop_score search_score), Hloop.
      + intros move a k0 e k' Hex.
        apply expand_inv in Hex as (? & ? & ? & ? & _ & _ & Hmm). by eapply IH.
      + unfold search_score. auto.
    - match type of Hrun with
      | context [min_loop ?el ?ch ?s ?a ?l ?me ?bm ?b ?n0] =>
          destruct (min_loop el ch s a l me bm b n0) as [[[v0 b0] n0']|e] eqn:Hloop
      end; [|discriminate].
      simpl in Hrun. injection Hrun as <- _ _ _.
      eapply (min_loop_score search_score), Hloop.
      + intros move a k0 e k' Hex.
        apply expand_inv in Hex as (? & ? & ? & ? & _ & _ & Hmm). by eapply IH.
      + unfold search_score. auto. }
  intros Hrun. pose proof (Hscore _ _ _ _ _ _ _ _ _ _ _ _ _ Hrun) as Hv.
  split; [done|]. split.
  - unfold search_score, MIN_HEURISTIC_SCORE, MAX_HEURISTIC_SCORE in *. lia.
  - intros Hcase. destruct depth as [|d]; cbn [minimax] in Hrun.
    + by apply Hleaf in Hrun.
    + destruct Hcase as [|Hfin]; [done|]. rewrite Hfin in Hrun.
      by apply Hleaf in Hrun.
Qed.

(** X26.  With a time budget that the first reading of the clock already
    exceeds, the search on an unfinished game explores nothing and
    returns no move, whatever legal moves the state has. *)
Theorem suggest_move_out_of_time (g : Game) (n : nat) (t : Q) :
  max_time (options g) = Some t ->
  Qle_bool t (elapsed n) = true ->
  is_finished g = false ->
  exists n', suggest_move elapsed g n = Ok (None, n') /\ (n' <= S n)%nat.
Proof.
  intros Ht Hlate Hfin. unfold suggest_move, clone. cbn [minimax].
  rewrite Hfin. destruct (move_candidates_sound g) as (ms & -> & _). simpl.
  destruct (bool_decide (next_player g = Attacker)); destruct ms as [|m ms];
    cbn [max_loop min_loop]; unfold time_exceeded; rewrite ?Ht, ?Hlate; simpl;
    eauto.
Qed.

(** X27.  Searching a finished game raises: the root is evaluated as a
    leaf, with no move and no previous state to read. *)
Theorem suggest_move_on_finished_game (g : Game) (n : nat) :
  is_finished g = true ->
  suggest_move elapsed g n = Raise AttributeError.
Proof.
  intros Hfin. unfold suggest_move, clone. cbn [minimax]. by rewrite Hfin.
Qed.

End SearchScores.

Lemma minimax_score_range_witness : search_score (-300).
Proof.
  apply (minimax_score_range frozen_clock 2 standoff_game true
           MIN_HEURISTIC_SCORE MAX_HEURISTIC_SCORE 0 None None None (-300)
           (Some (mkCoordPair (mkCoord 0 0) (mkCoord 0 0))) 2 0%nat).
  vm_compute. reflexivity.
Defined.

Lemma suggest_move_out_of_time_witness :
  exists n', suggest_move frozen_clock hurried_game 0 = Ok (None, n').
Proof.
  destruct (suggest_move_out_of_time frozen_clock hurried_game 0 0%Q)
    as (n' & Hrun & _); [vm_compute; reflexivity ..|].
  exists n'. exact Hrun.
Defined.

Lemma suggest_move_on_finished_game_witness :
  suggest_move frozen_clock limit_game 0 = Raise AttributeError.
Proof.
  apply (suggest_move_on_finished_game frozen_clock limit_game 0).
  vm_compute. reflexivity.
Defined.

Lemma enemy_ai_scan_raises (p : Game) (s : Unit) (cs : list Coord) last c u :
  c ∈ cs -> get p c = Some u -> type u = AI -> player u <> player s ->
  enemy_ai_scan p (Some s) cs last = Raise NameError.
Proof.
  intros Hin Hu Ht Hp. revert last.
  induction cs as [|c0 cs IH]; intros last; [by apply elem_of_nil in Hin|].
  cbn [enemy_ai_scan]. apply elem_of_cons in Hin as [->|Hin].
  - rewrite Hu. destruct (decide (type u = AI)); [|done]. simpl.
    by rewrite bool_decide_eq_false_2.
  - destruct (get p c0) as [u0|]; [|by apply IH].
    destruct (decide (type u0 = AI)); [|by apply IH]. simpl.
    destruct (negb (bool_decide (player u0 = player s))); [done | by apply IH].
Qed.

(** X28.  The evaluation of a MOVE leaf raises [NameError] whenever the
    AI of the opponent of the moved unit is on the board of the previous
    state: the distance to it is asked from [math.sqrt], and the module
    never imports [math]. *)
Theorem move_leaf_raises (self p : Game) (m : CoordPair) (s : Unit) (c : Coord)
    (u : Unit) :
  get p (src m) = Some s ->
  get p c = Some u -> type u = AI -> player u <> player s ->
  calculate_heuristic3 self (Some m) (Some MOVE) (Some p) = Raise NameError.
Proof.
  intros Hs Hu Ht Hp. unfold calculate_heuristic3. simpl. rewrite Hs.
  rewrite (enemy_ai_scan_raises p s _ None c u); try done.
  apply elem_of_iter_rectangle. simpl.
  apply get_Some_valid, is_valid_coord_spec in Hu. lia.
Qed.

Lemma move_leaf_raises_witness :
  calculate_heuristic3 (post_init main_options)
    (Some (mkCoordPair (mkCoord 2 4) (mkCoord 1 4))) (Some MOVE)
    (Some (post_init main_options)) = Raise NameError.
Proof.
  apply (move_leaf_raises _ _ _ (mkUnit Attacker Program 9) (mkCoord 0 0)
           (mkUnit Defender AI 9));
    [vm_compute; reflexivity | vm_compute; reflexivity | reflexivity | discriminate].
Defined.

(** * Further properties: pruning at the root *)

Section PruningMove.

Variable elapsed : nat -> Q.

(** One child of the exhaustive search against the same child searched
    with pruning in a window [(a, b)]. *)
Lemma expand_pruned d g mx move aU bU a b k e k' :
  max_time (options g) = None ->
  MIN_HEURISTIC_SCORE <= a -> a < b -> b <= MAX_HEURISTIC_SCORE ->
  expand (fun gc a0 b0 k0 => minimax elapsed d gc mx a0 b0 k0)
         (set_alpha_beta false g) move aU bU k = Ok (e, k') ->
  k' = k
  /\ MIN_HEURISTIC_SCORE <= e <= MAX_HEURISTIC_SCORE
  /\ exists r,
       expand (fun gc a0 b0 k0 => minimax elapsed d gc mx a0 b0 k0)
              (set_alpha_beta true g) move a b k = Ok (r, k)
       /\ MIN_HEURISTIC_SCORE <= r <= MAX_HEURISTIC_SCORE
       /\ window_rel a b e r.
Proof.
  intros Hnone Ha Hab Hb Hex.
  unfold expand, clone in Hex |- *.
  rewrite determine_action_set_alpha_beta, perform_move_set_alpha_beta in Hex.
  rewrite determine_action_set_alpha_beta, perform_move_set_alpha_beta.
  destruct (determine_action g move) as [action2|]; [|discriminate].
  destruct (perform_move g move) as [[g' res]|] eqn:Hpm; [|discriminate].
  apply options_perform_move in Hpm. simpl in Hex, Hpm |- *.
  change (next_turn (set_alpha_beta false g'))
    with (set_alpha_beta false (next_turn g')) in Hex.
  change (next_turn (set_alpha_beta true g'))
    with (set_alpha_beta true (next_turn g')).
  change (Some (set_alpha_beta false g))
    with (set_alpha_beta false <$> Some g) in Hex.
  change (Some (set_alpha_beta true g))
    with (set_alpha_beta true <$> Some g).
  destruct (minimax elapsed d (set_alpha_beta false (next_turn g')) mx aU bU k
              (Some move) (Some action2) (set_alpha_beta false <$> Some g))
    as [[[[e0 m0] j0] n0]|] eqn:HU; [|discriminate].
  simpl in Hex. injection Hex as -> ->.
  assert (Hnone' : max_time (options (next_turn g')) = None)
    by (cbn [next_turn options]; congruence).
  pose proof (minimax_no_clock elapsed _ (set_alpha_beta false (next_turn g'))
                _ _ _ _ _ _ _ _ _ _ _ Hnone' HU) as ->.
  pose proof (minimax_bounds elapsed _ _ _ _ _ _ _ _ _ _ _ _ _ HU) as HbU.
  destruct (minimax_pruned elapsed d _ _ _ _ a b _ _ _ _ _ _ _ _ Hnone' Ha Hab Hb HU)
    as (r & m' & j' & HP & Hrel).
  pose proof (minimax_bounds elapsed _ _ _ _ _ _ _ _ _ _ _ _ _ HP) as HbP.
  split; [done|]. split; [done|]. exists r. by rewrite HP.
Qed.

(** Once the running maximum is the upper sentinel, the rest of an
    exhaustive loop changes nothing. *)
Lemma max_loop_saturated child self beta moves best alpha n v b n1 :
  alpha_beta (options self) = false -> max_time (options self) = None ->
  (forall move a k e k', child move a k = Ok (e, k') ->
     k' = k /\ e <= MAX_HEURISTIC_SCORE) ->
  max_loop elapsed child self beta moves MAX_HEURISTIC_SCORE best alpha n
  = Ok (v, b, n1) ->
  v = MAX_HEURISTIC_SCORE /\ b = best /\ n1 = n.
Proof.
  intros Hab Hnone Hchild.
  induction moves as [|move rest IH]; intros Hrun.
  - by injection Hrun as <- <- <-.
  - cbn [max_loop] in Hrun. rewrite time_exceeded_no_limit in Hrun by done.
    destruct (child move alpha n) as [[e n2]|] eqn:Hch; [|discriminate].
    apply Hchild in Hch as [-> He]. simpl in Hrun. rewrite Hab in Hrun.
    assert ((e >? MAX_HEURISTIC_SCORE) = false) as Hno
      by (rewrite Z.gtb_ltb; apply Z.ltb_ge; lia).
    rewrite Hno in Hrun. by apply IH.
Qed.

Lemma min_loop_saturated child self alpha moves best beta n v b n1 :
  alpha_beta (options self) = false -> max_time (options self) = None ->
  (forall move a k e k', child move a k = Ok (e, k') ->
     k' = k /\ MIN_HEURISTIC_SCORE <= e) ->
  min_loop elapsed child self alpha moves MIN_HEURISTIC_SCORE best beta n
  = Ok (v, b, n1) ->
  v = MIN_HEURISTIC_SCORE /\ b = best /\ n1 = n.
Proof.
  intros Hab Hnone Hchild.
  induction moves as [|move rest IH]; intros Hrun.
  - by injection Hrun as <- <- <-.
  - cbn [min_loop] in Hrun. rewrite time_exceeded_no_limit in Hrun by done.
    destruct (child move beta n) as [[e n2]|] eqn:Hch; [|discriminate].
    apply Hchild in Hch as [-> He]. simpl in Hrun. rewrite Hab in Hrun.
    assert ((e <? MIN_HEURISTIC_SCORE) = false) as Hno by (apply Z.ltb_ge; lia).
    rewrite Hno in Hrun. by apply IH.
Qed.

(** At the root the window is the whole range of scores, the running
    lower bound of the pruned loop is its running maximum, and both loops
    make the same comparisons until the pruned one stops. *)
Lemma max_loop_root childU childP selfU selfP betaU moves :
  alpha_beta (options selfU) = false -> alpha_beta (options selfP) = true ->
  max_time (options selfU) = None -> max_time (options selfP) = None ->
  (forall move aU a n e n2, MIN_HEURISTIC_SCORE <= a < MAX_HEURISTIC_SCORE ->
     childU move aU n = Ok (e, n2) ->
     n2 = n /\ e <= MAX_HEURISTIC_SCORE
     /\ exists r, childP move a n = Ok (r, n) /\ r <= MAX_HEURISTIC_SCORE
                  /\ window_rel a MAX_HEURISTIC_SCORE e r) ->
  forall me best aU n vU bU n1,
    MIN_HEURISTIC_SCORE <= me < MAX_HEURISTIC_SCORE ->
    max_loop elapsed childU selfU betaU moves me best aU n = Ok (vU, bU, n1) ->
    max_loop elapsed childP selfP MAX_HEURISTIC_SCORE moves me best me n
    = Ok (vU, bU, n1).
Proof.
  intros HabU HabP HtU HtP Hchild.
  induction moves as [|move rest IH]; intros me best aU n vU bU n1 Hme Hrun.
  - exact Hrun.
  - cbn [max_loop] in Hrun |- *.
    rewrite time_exceeded_no_limit in Hrun by done.
    rewrite time_exceeded_no_limit by done.
    destruct (childU move aU n) as [[e n2]|] eqn:HchU; [|discriminate].
    destruct (Hchild move aU me n e n2) as (-> & He & r & HchP & Hr & Hrel);
      [done | done |].
    rewrite HchP. simpl in Hrun |- *. rewrite HabU in Hrun. rewrite HabP.
    unfold window_rel in Hrel.
    destruct (Z.le_gt_cases e me) as [Hle|Hgt].
    + assert ((e >? me) = false) as H1 by (rewrite Z.gtb_ltb; apply Z.ltb_ge; lia).
      assert ((r >? me) = false) as H2 by (rewrite Z.gtb_ltb; apply Z.ltb_ge; lia).
      assert (Z.max me r = me) as H3 by lia.
      assert ((MAX_HEURISTIC_SCORE <=? me) = false) as H4 by (apply Z.leb_gt; lia).
      rewrite H1 in Hrun. rewrite H2, H3, H4. by eapply IH.
    + assert ((e >? me) = true) as H1 by (rewrite Z.gtb_ltb; apply Z.ltb_lt; lia).
      rewrite H1 in Hrun.
      destruct (Z.lt_ge_cases e MAX_HEURISTIC_SCORE) as [Hin|Hout].
      * assert (r = e) as -> by lia. rewrite H1.
        assert (Z.max me e = e) as H3 by lia.
        assert ((MAX_HEURISTIC_SCORE <=? e) = false) as H4 by (apply Z.leb_gt; lia).
        rewrite H3, H4. eapply IH; [lia | exact Hrun].
      * assert (e = MAX_HEURISTIC_SCORE) as -> by lia.
        assert (r = MAX_HEURISTIC_SCORE) as -> by lia.
        rewrite H1.
        assert ((MAX_HEURISTIC_SCORE <=? Z.max me MAX_HEURISTIC_SCORE) = true) as H4
          by (apply Z.leb_le; lia).
        rewrite H4.
        apply max_loop_saturated in Hrun as (-> & -> & ->); [done.. |].
        intros mv a k e k' Hch.
        destruct (Hchild mv a MIN_HEURISTIC_SCORE k e k') as (-> & ? & _);
          [unfold MIN_HEURISTIC_SCORE, MAX_HEURISTIC_SCORE; lia | done | done].
Qed.

Lemma min_loop_root childU childP selfU selfP alphaU moves :
  alpha_beta (options selfU) = false -> alpha_beta (options selfP) = true ->
  max_time (options selfU) = None -> max_time (options selfP) = None ->
  (forall move bU b n e n2, MIN_HEURISTIC_SCORE < b <= MAX_HEURISTIC_SCORE ->
     childU move bU n = Ok (e, n2) ->
     n2 = n /\ MIN_HEURISTIC_SCORE <= e
     /\ exists r, childP move b n = Ok (r, n) /\ MIN_HEURISTIC_SCORE <= r
                  /\ window_rel MIN_HEURISTIC_SCORE b e r) ->
  forall me best bU n vU mU n1,
    MIN_HEURISTIC_SCORE < me <= MAX_HEURISTIC_SCORE ->
    min_loop elapsed childU selfU alphaU moves me best bU n = Ok (vU, mU, n1) ->
    min_loop elapsed childP selfP MIN_HEURISTIC_SCORE moves me best me n
    = Ok (vU, mU, n1).
Proof.
  intros HabU HabP HtU HtP Hchild.
  induction moves as [|move rest IH]; intros me best bU n vU mU n1 Hme Hrun.
  - exact Hrun.
  - cbn [min_loop] in Hrun |- *.
    rewrite time_exceeded_no_limit in Hrun by done.
    rewrite time_exceeded_no_limit by done.
    destruct (childU move bU n) as [[e n2]|] eqn:HchU; [|discriminate].
    destruct (Hchild move bU me n e n2) as (-> & He & r & HchP & Hr & Hrel);
      [done | done |].
    rewrite HchP. simpl in Hrun |- *. rewrite HabU in Hrun. rewrite HabP.
    unfold window_rel in Hrel.
    destruct (Z.le_gt_cases me e) as [Hge|Hlt].
    + assert ((e <? me) = false) as H1 by (apply Z.ltb_ge; lia).
      assert ((r <? me) = false) as H2 by (apply Z.ltb_ge; lia).
      assert (Z.min me r = me) as H3 by lia.
      assert ((me <=? MIN_HEURISTIC_SCORE) = false) as H4 by (apply Z.leb_gt; lia).
      rewrite H1 in Hrun. rewrite H2, H3, H4. by eapply IH.
    + assert ((e <? me) = true) as H1 by (apply Z.ltb_lt; lia).
      rewrite H1 in Hrun.
      destruct (Z.lt_ge_cases MIN_HEURISTIC_SCORE e) as [Hin|Hout].
      * assert (r = e) as -> by lia. rewrite H1.
        assert (Z.min me e = e) as H3 by lia.
        assert ((e <=? MIN_HEURISTIC_SCORE) = false) as H4 by (apply Z.leb_gt; lia).
        rewrite H3, H4. eapply IH; [lia | exact Hrun].
      * assert (e = MIN_HEURISTIC_SCORE) as -> by lia.
        assert (r = MIN_HEURISTIC_SCORE) as -> by lia.
        rewrite H1.
        assert ((Z.min me MIN_HEURISTIC_SCORE <=? MIN_HEURISTIC_SCORE) = true) as H4
          by (apply Z.leb_le; lia).
        rewrite H4.
        apply min_loop_saturated in Hrun as (-> & -> & ->); [done.. |].
        intros mv a k e k' Hch.
        destruct (Hchild mv a MAX_HEURISTIC_SCORE k e k') as (-> & ? & _);
          [unfold MIN_HEURISTIC_SCORE, MAX_HEURISTIC_SCORE; lia | done | done].
Qed.

Lemma minimax_root_pruned depth g maximizing n v m k n1 :
  max_time (options g) = None ->
  minimax elapsed depth (set_alpha_beta false g) maximizing
          MIN_HEURISTIC_SCORE MAX_HEURISTIC_SCORE n None None None
  = Ok (v, m, k, n1) ->
  minimax elapsed depth (set_alpha_beta true g) maximizing
          MIN_HEURISTIC_SCORE MAX_HEURISTIC_SCORE n None None None
  = Ok (v, m, k, n1).
Proof.
  intros Hnone. destruct depth as [|d]; cbn [minimax].
  { change (@None Game) with (set_alpha_beta false <$> @None Game) at 1.
    change (@None Game) with (set_alpha_beta true <$> @None Game) at 2.
    by rewrite !calculate_heuristic3_set_alpha_beta. }
  change (is_finished (set_alpha_beta false g)) with (is_finished g).
  change (is_finished (set_alpha_beta true g)) with (is_finished g).
  destruct (is_finished g).
  { change (@None Game) with (set_alpha_beta false <$> @None Game) at 1.
    change (@None Game) with (set_alpha_beta true <$> @None Game) at 2.
    by rewrite !calculate_heuristic3_set_alpha_beta. }
  rewrite !move_candidates_set_alpha_beta.
  destruct (move_candidates g) as [ms|]; [|by destruct maximizing].
  simpl. destruct maximizing; intros Hrun.
  - match type of Hrun with
    | context [max_loop ?el ?ch ?s ?b ?l ?me ?bm ?a ?n0] =>
        destruct (max_loop el ch s b l me bm a n0) as [[[v0 b0] n0']|e] eqn:Hloop
    end; [|discriminate].
    simpl in Hrun. injection Hrun as <- <- <- <-.
    eapply (max_loop_root _ _ _ (set_alpha_beta true g)) in Hloop; try done.
    + by rewrite Hloop.
    + intros move aU a k e k' Ha Hex.
      eapply (expand_pruned _ _ _ _ _ _ a MAX_HEURISTIC_SCORE) in Hex
        as (-> & He & r & HP & Hr & Hrel); [| done | lia..].
      split; [done|]. split; [lia|]. exists r. split; [exact HP|]. split; [lia | done].
  - match type of Hrun with
    | context [min_loop ?el ?ch ?s ?a ?l ?me ?bm ?b ?n0] =>
        destruct (min_loop el ch s a l me bm b n0) as [[[v0 b0] n0']|e] eqn:Hloop
    end; [|discriminate].
    simpl in Hrun. injection Hrun as <- <- <- <-.
    eapply (min_loop_root _ _ _ (set_alpha_beta true g)) in Hloop; try done.
    + by rewrite Hloop.
    + intros move bU b k e k' Hb Hex.
      eapply (expand_pruned _ _ _ _ _ _ MIN_HEURISTIC_SCORE b) in Hex
        as (-> & He & r & HP & Hr & Hrel); [| done | lia..].
      split; [done|]. split; [lia|]. exists r. split; [exact HP|]. split; [lia | done].
Qed.

(** X29.  Without a time limit, pruning changes nothing that the search
    without pruning returns: started with the full window at any depth,
    [minimax] with alpha-beta pruning returns the same score, the same
    move and the same depth figure; and [suggest_move] suggests the same
    move (or the same absence of a move). *)
Theorem pruning_keeps_result (g : Game) (n : nat) :
  max_time (options g) = None ->
  (forall depth maximizing v m k n1,
     minimax elapsed depth (set_alpha_beta false g) maximizing
             MIN_HEURISTIC_SCORE MAX_HEURISTIC_SCORE n None None None
     = Ok (v, m, k, n1) ->
     minimax elapsed depth (set_alpha_beta true g) maximizing
             MIN_HEURISTIC_SCORE MAX_HEURISTIC_SCORE n None None None
     = Ok (v, m, k, n1))
  /\ (forall mv n1,
        suggest_move elapsed (set_alpha_beta false g) n = Ok (mv, n1) ->
        suggest_move elapsed (set_alpha_beta true g) n = Ok (mv, n1)).
Proof.
  intros Hnone. split.
  - intros depth maximizing v m k n1. by apply minimax_root_pruned.
  - intros mv n1. unfold suggest_move, clone.
    change (next_player (set_alpha_beta false g)) with (next_player g).
    change (next_player (set_alpha_beta true g)) with (next_player g).
    destruct (minimax elapsed 2 (set_alpha_beta false g) _ _ _ _ _ _ _)
      as [[[[v m] k] n']|] eqn:HU; [|discriminate].
    apply minimax_root_pruned in HU; [|done]. by rewrite HU.
Qed.

End PruningMove.

(** On [skirmish_game] the exhaustive search returns, so the theorem
    applies, and pruning does cut: once the first move has raised the
    lower bound to -93, the replies to A1-B1 are searched with pruning
    only until one of them falls to -93, where the exhaustive search
    goes on to the value -100 of that move. *)
Lemma pruning_keeps_result_witness :
  suggest_move frozen_clock (set_alpha_beta true skirmish_game) 0
  = Ok (Some (mkCoordPair (mkCoord 0 0) (mkCoord 1 0)), 0%nat)
  /\ expand (fun gc a b k => minimax frozen_clock 1 gc false a b k)
            (set_alpha_beta false skirmish_game)
            (mkCoordPair (mkCoord 0 1) (mkCoord 1 1))
            MIN_HEURISTIC_SCORE MAX_HEURISTIC_SCORE 0
     = Ok (-100, 0%nat)
  /\ expand (fun gc a b k => minimax frozen_clock 1 gc false a b k)
            (set_alpha_beta true skirmish_game)
            (mkCoordPair (mkCoord 0 1) (mkCoord 1 1))
            (-93) MAX_HEURISTIC_SCORE 0
     = Ok (-93, 0%nat).
Proof.
  split; [|split; vm_compute; reflexivity].
  apply (pruning_keeps_result frozen_clock skirmish_game 0);
    vm_compute; reflexivity.
Defined.
